(** * Verification of [mace/tools/cuda_tools.py]

    A shallow embedding of the CUDA rewrite of a MACE model: the linear
    replacement [linear_matmul], the contraction wrapper
    [SymmetricContractionWrapper], the two rewritten interaction forwards,
    the top-level [optimize_cuda_mace], the benchmark loader and the path
    computation of [main].

    Scalars are kept abstract (class [Scalar]): every statement holds for
    whatever arithmetic the tensors are computed with.  Persistent tensors
    (parameters, stored weights) live in a heap of tensor objects and
    storages so that sharing and in-place mutation are visible; activations
    flowing through a forward call are tensor values. *)

From Stdlib Require Import ZArith Ascii String.
From Stdlib Require PrimFloat Uint63.
From stdpp Require Import base tactics option list gmap strings pretty.

Local Open Scope string_scope.
Local Open Scope list_scope.
Local Open Scope nat_scope.

(** ** Exceptions and results *)

Inductive exn :=
| RuntimeError
| IndexError
| KeyError
| AttributeError
| TypeError
| OSError
| StopIteration
| DanglingReference.   (* not a Python exception: a location absent from
                          the heap, which no well-formed heap produces *)

Inductive res (A : Type) :=
| Ok (a : A)
| Raise (e : exn).
Arguments Ok {A} a.
Arguments Raise {A} e.

Definition res_bind {A B} (r : res A) (k : A → res B) : res B :=
  match r with
  | Ok a => k a
  | Raise e => Raise e
  end.

(** A computation over a mutable state [S] that may raise.  The state
    reached when an exception is raised is kept: Python does not roll back
    the mutations done before the exception. *)
Definition SE (S A : Type) : Type := S → res A * S.

Definition se_ret {S A} (a : A) : SE S A := λ s, (Ok a, s).

Definition se_bind {S A B} (m : SE S A) (k : A → SE S B) : SE S B :=
  λ s, match m s with
       | (Ok a, s') => k a s'
       | (Raise e, s') => (Raise e, s')
       end.

Definition se_raise {S A} (e : exn) : SE S A := λ s, (Raise e, s).
Definition se_modify {S} (f : S → S) : SE S unit := λ s, (Ok (), f s).
Definition se_lift {S A} (r : res A) : SE S A := λ s, (r, s).

Declare Scope se_scope.
Delimit Scope se_scope with se.
Notation "x <- c1 ;; c2" := (se_bind c1 (λ x, c2))
  (at level 100, c1 at next level, right associativity) : se_scope.
Notation "c1 ;;; c2" := (se_bind c1 (λ _, c2))
  (at level 100, right associativity) : se_scope.

(** [for x in xs: body x] *)
Fixpoint se_for {S A} (xs : list A) (body : A → SE S unit) : SE S unit :=
  match xs with
  | [] => se_ret ()
  | x :: xs' => se_bind (body x) (λ _, se_for xs' body)
  end.

(** ** Tensor values *)

Inductive Dtype := float32 | float64 | int32 | int64.

Global Instance Dtype_eq_dec : EqDecision Dtype.
Proof. solve_decision. Defined.

Record tensor (A : Type) := Tensor {
  t_dtype : Dtype;
  t_shape : list nat;
  t_data : list A;          (* row-major, contiguous *)
}.
Arguments Tensor {A} _ _ _.
Arguments t_dtype {A} _.
Arguments t_shape {A} _.
Arguments t_data {A} _.

Definition numel (shape : list nat) : nat := foldr Nat.mul 1 shape.
Global Arguments numel : simpl never.

Definition well_shaped {A} (t : tensor A) : Prop :=
  length (t_data t) = numel (t_shape t).

(** [t.shape[0]] and [t.shape[-1]]; both raise on a 0-dimensional tensor. *)
Definition shape_first (shape : list nat) : res nat :=
  match shape with
  | [] => Raise IndexError
  | d :: _ => Ok d
  end.

Definition shape_last (shape : list nat) : res nat :=
  match last shape with
  | None => Raise IndexError
  | Some d => Ok d
  end.

(** [t[i]] for a non-negative [i]: the [i]-th slice along the first axis. *)
Definition select0 {A} (i : nat) (t : tensor A) : res (tensor A) :=
  match t_shape t with
  | [] => Raise IndexError
  | d :: rest =>
      if decide (i < d)
      then Ok (Tensor (t_dtype t) rest
                 (take (numel rest) (drop (i * numel rest) (t_data t))))
      else Raise IndexError
  end.

(** [t.squeeze()]: every dimension of size one is removed, wherever it is.
    The data is untouched. *)
Definition squeeze_shape (shape : list nat) : list nat :=
  filter (λ d, d ≠ 1) shape.

Definition squeeze {A} (t : tensor A) : tensor A :=
  Tensor (t_dtype t) (squeeze_shape (t_shape t)) (t_data t).

(** Removing a single trailing dimension of size one and nothing else. *)
Definition squeeze_trailing_shape (shape : list nat) : list nat :=
  match last shape with
  | Some 1 => removelast shape
  | _ => shape
  end.

(** [t.view(d0, -1, d2)]: the middle dimension is inferred.  torch raises
    when the known dimensions have product zero (the inferred one would be
    ambiguous) or do not divide the number of elements. *)
Definition view_infer_mid {A} (d0 d2 : nat) (t : tensor A) : res (tensor A) :=
  let known := d0 * d2 in
  let n := numel (t_shape t) in
  if decide (known = 0) then Raise RuntimeError
  else if decide (n `mod` known = 0)
       then Ok (Tensor (t_dtype t) [d0; n `div` known; d2] (t_data t))
       else Raise RuntimeError.

(** 32-bit two's-complement wrap-around of [.int()] on an integer tensor. *)
Definition wrap32 (z : Z) : Z :=
  ((z + 2 ^ 31) `mod` 2 ^ 32 - 2 ^ 31)%Z.

Definition int_ (t : tensor Z) : tensor Z :=
  Tensor int32 (t_shape t) (map wrap32 (t_data t)).

(** [torch.Tensor([]).int()] and [torch.Tensor().int()]: an empty
    one-dimensional 32-bit integer tensor. *)
Definition empty_int_tensor : tensor Z := Tensor int32 [0] [].

(** ** Scalars

    The element type of floating tensors and the operations the program
    applies to it.  [pow_half n] is Python's [n ** 0.5] (the float power,
    not a square-root routine); [fcast d] rounds to the precision of [d];
    [fgtb] is the strict comparison behind [argmax]; [fdot u v] is the
    inner product of two vectors of the same length as [torch.matmul]
    computes it: the order in which the products are accumulated, and
    whether a product and a sum are fused, are the library's. *)
Class Scalar (F : Type) := {
  fzero : F;
  fadd : F → F → F;
  fmul : F → F → F;
  fdiv : F → F → F;
  fgtb : F → F → bool;
  pow_half : nat → F;
  fcast : Dtype → F → F;
  fdot : list F → list F → F;
}.

(** ** Representation metadata (e3nn irreps) *)

Record Irrep := { ir_l : nat; ir_p : Z }.

(** An [o3.Irreps]: a list of (multiplicity, irrep). *)
Definition Irreps := list (nat * Irrep).

Definition num_irreps (irreps : Irreps) : nat :=
  foldr (λ mi acc, mi.1 + acc) 0 irreps.

(** [o3.Irreps([irrep.ir for irrep in irreps_in])]: multiplicities stripped. *)
Definition coupling_of (irreps : Irreps) : Irreps :=
  map (λ mi, (1, mi.2)) irreps.

(** [o3.Irreps.spherical_harmonics(3)] *)
Definition spherical_harmonics_irreps (lmax : nat) : Irreps :=
  map (λ l, (1, {| ir_l := l; ir_p := if Nat.even l then 1%Z else (-1)%Z |}))
      (seq 0 (S lmax)).

(** ** Modules of the model *)

Abbreviation loc := nat (only parsing).

(** A module of a library whose internals are not part of this program;
    it is identified by [om_id] and registers the parameters [om_params]. *)
Record OpaqueModule := { om_id : nat; om_params : list loc }.

(** An e3nn linear layer, by the attributes read here: [irreps_in],
    [irreps_out], [instructions] and the parameter [weight]. *)
Record LinearE3nn := {
  irreps_in : Irreps;
  irreps_out : Irreps;
  instructions : list (nat * nat);
  weight : loc;
}.

(** The replacement built by [linear_matmul.__init__]: one plain tensor
    attribute [self.weights]. *)
Record linear_matmul := { lm_weights : loc }.

(** [mace_ops.ops.linear.Linear(irreps_in, irreps_out, instructions, weight)]:
    the constructor arguments are recorded as given. *)
Record CudaLinear := {
  cl_irreps_in : Irreps;
  cl_irreps_out : Irreps;
  cl_instructions : list (nat * nat);
  cl_weight : loc;
}.

Inductive LinearModule :=
| LinE3nn (l : LinearE3nn)
| LinMatmul (l : linear_matmul)
| LinCuda (l : CudaLinear).

Inductive TPModule :=
| TP_e3nn (m : OpaqueModule)
| InvariantMessagePassingTP.

(** Which callable the instance attribute [forward] of a block resolves to:
    the class's own method, or one of the two functions bound by
    [partial(..., block)]. *)
Inductive ForwardImpl :=
| class_forward
| bound_invariant_residual_interaction_forward
| bound_invariant_interaction_forward.

(** One entry of [symmetric_contractions.contractions]: the parameter
    [weights_max] and the parameter list [weights]. *)
Record Contraction := {
  weights_max : loc;
  weights : list loc;
}.

Record SymmetricContractionE3nn := {
  sc_irreps_in : Irreps;
  sc_irreps_out : Irreps;
  contractions : list Contraction;
}.

(** [CUDAContraction(coupling_irreps, irreps_out, all_weights, nthreadX=..,
    nthreadY=.., nthreadZ=.., dtype=..)], arguments recorded as given.
    [all_weights] is the dictionary [str(j) -> body order -> tensor]. *)
Record CUDAContraction := {
  cc_coupling_irreps : Irreps;
  cc_irreps_out : Irreps;
  cc_all_weights : gmap string (gmap nat loc);
  nthreadX : nat;
  nthreadY : nat;
  nthreadZ : nat;
  cc_dtype : Dtype;
}.

Record SymmetricContractionWrapper := {
  symmetric_contractions : CUDAContraction;
}.

Inductive ContractionModule :=
| SymE3nn (m : SymmetricContractionE3nn)
| SymWrapper (m : SymmetricContractionWrapper).

(** A product block: [symmetric_contractions] and [linear]. *)
Record ProductBlock := {
  pb_symmetric_contractions : ContractionModule;
  pb_linear : LinearModule;
}.

(** [SphericalHarmonics(sh_irreps=.., normalize=.., normalization=..,
    backend=..)], arguments recorded as given. *)
Record SphericalHarmonics := {
  sh_irreps : Irreps;
  sh_normalize : bool;
  sh_normalization : string;
  sh_backend : string;
}.

Section Program.
Context {F : Type} `{Scalar F}.

(** ** Floating tensor operations *)

(** [t / s] for a Python scalar [s]: elementwise, dtype of the tensor. *)
Definition tdiv (t : tensor F) (s : F) : tensor F :=
  Tensor (t_dtype t) (t_shape t) (map (λ x, fdiv x s) (t_data t)).

(** Value-level [reshape(shape)]: raises when the element counts differ. *)
Definition reshape_val (shape : list nat) (t : tensor F) : res (tensor F) :=
  if decide (numel shape = numel (t_shape t))
  then Ok (Tensor (t_dtype t) shape (t_data t))
  else Raise RuntimeError.

Definition row_of (k r : nat) (d : list F) : list F := take k (drop (r * k) d).

Definition col_of (k n j : nat) (d : list F) : list F :=
  map (λ i, nth (i * n + j) d fzero) (seq 0 k).

(** [torch.matmul(x, w)] for a two-dimensional [w] of shape [k, n] and an
    [x] of rank at least one whose last dimension is [k]: the leading
    dimensions of [x] are kept and each row of [x] is multiplied by [w].
    A 0-dimensional [x], a last dimension other than [k] or differing
    dtypes raise.  Entry [(r, j)] of the result is the inner product of
    row [r] of [x] with column [j] of [w].  (The rewrite only ever stores
    two-dimensional weights; other ranks of [w] are reported as an error
    here.) *)
Definition matmul (x w : tensor F) : res (tensor F) :=
  match t_shape w with
  | [k; n] =>
      match last (t_shape x) with
      | None => Raise RuntimeError
      | Some k' =>
          if decide (k' = k ∧ t_dtype x = t_dtype w)
          then
            let lead := removelast (t_shape x) in
            Ok (Tensor (t_dtype x) (lead ++ [n])
                  (flat_map
                     (λ r, map (λ j, fdot (row_of k r (t_data x))
                                          (col_of k n j (t_data w)))
                               (seq 0 n))
                     (seq 0 (numel lead))))
          else Raise RuntimeError
      end
  | _ => Raise RuntimeError
  end.

(** [argmax] of one row: the index of the first largest element. *)
Fixpoint argmax_from (best_i : nat) (best : F) (i : nat) (l : list F) : nat :=
  match l with
  | [] => best_i
  | x :: l' =>
      if fgtb x best then argmax_from i x (S i) l'
      else argmax_from best_i best (S i) l'
  end.

Definition argmax_row (l : list F) : nat :=
  match l with
  | [] => 0
  | x :: l' => argmax_from 0 x 1 l'
  end.

(** [y.argmax(dim=-1)]: a 64-bit integer tensor without the last axis.  A
    0-dimensional [y] gives index 0; a last axis of size zero raises. *)
Definition argmax_last (y : tensor F) : res (tensor Z) :=
  match last (t_shape y) with
  | None => Ok (Tensor int64 [] [0%Z])
  | Some k =>
      if decide (k = 0) then Raise IndexError
      else
        let lead := removelast (t_shape y) in
        Ok (Tensor int64 lead
              (map (λ r, Z.of_nat (argmax_row (row_of k r (t_data y))))
                   (seq 0 (numel lead))))
  end.

(** ** Model, heap *)

(** The attributes of an interaction block that this program reads or
    assigns ([self.linear_up], [self.conv_tp_weights], [self.tp],
    [self.linear], [self.skip_tp], [self.avg_num_neighbors], the instance
    attribute [forward]) and the name of its class. *)
Record InteractionBlock := {
  class_name : string;
  linear_up : LinearModule;
  conv_tp_weights : OpaqueModule;
  tp : TPModule;
  linear : LinearModule;
  skip_tp : OpaqueModule;
  avg_num_neighbors : F;
  forward : ForwardImpl;
}.

(** Modelled from the spec: the class [MACE] (mace.modules.models) is not
    part of this source file.  Following the data model of the
    specification, a model owns an ordered sequence of interaction blocks,
    each paired with a product block, the spherical-harmonics front-end and
    the node embedding whose input irreps the rewrite reads; the parameters
    of the sub-modules the rewrite never touches (embeddings, readouts) are
    kept as two lists, registered before and after the blocks. *)
Record MACE := {
  num_interactions : Z;
  spherical_harmonics : SphericalHarmonics;
  node_embedding_irreps_in : Irreps;
  embedding_params : list loc;
  interactions : list InteractionBlock;
  products : list ProductBlock;
  readout_params : list loc;
}.

(** A tensor object: a handle on a storage with its own metadata.  Several
    objects may share one storage ([detach], [.data], views). *)
Record TObj := {
  o_storage : loc;
  o_dtype : Dtype;
  o_shape : list nat;
  requires_grad : bool;
}.

Record Heap := {
  objs : list TObj;
  stor : list (list F);
  models : list MACE;
}.

(** The value a tensor object denotes in a heap. *)
Definition tensor_value (h : Heap) (o : loc) : option (tensor F) :=
  t ← objs h !! o;
  d ← stor h !! o_storage t;
  Some (Tensor (o_dtype t) (o_shape t) d).

(** *** Heap primitives *)

Definition set_objs (h : Heap) (os : list TObj) : Heap :=
  {| objs := os; stor := stor h; models := models h |}.
Definition set_stor (h : Heap) (ss : list (list F)) : Heap :=
  {| objs := objs h; stor := ss; models := models h |}.
Definition set_models (h : Heap) (ms : list MACE) : Heap :=
  {| objs := objs h; stor := stor h; models := ms |}.

Definition of_option {A} (o : option A) : SE Heap A :=
  λ h, match o with
       | Some a => (Ok a, h)
       | None => (Raise DanglingReference, h)
       end.

Definition get_obj (o : loc) : SE Heap TObj := λ h, of_option (objs h !! o) h.
Definition get_storage (s : loc) : SE Heap (list F) :=
  λ h, of_option (stor h !! s) h.
Definition get_model (m : loc) : SE Heap MACE :=
  λ h, of_option (models h !! m) h.

Definition alloc_obj (t : TObj) : SE Heap loc :=
  λ h, (Ok (length (objs h)), set_objs h (objs h ++ [t])).
Definition alloc_storage (d : list F) : SE Heap loc :=
  λ h, (Ok (length (stor h)), set_stor h (stor h ++ [d])).

Local Open Scope se_scope.

(** [t.detach()] and [t.data]: a new tensor object on the same storage
    that does not require gradients. *)
Definition detach (o : loc) : SE Heap loc :=
  t <- get_obj o;;
  alloc_obj {| o_storage := o_storage t; o_dtype := o_dtype t;
               o_shape := o_shape t; requires_grad := false |}.

Definition data_ (o : loc) : SE Heap loc := detach o.

(** [t.clone()]: a new object on a fresh copy of the storage. *)
Definition clone (o : loc) : SE Heap loc :=
  t <- get_obj o;;
  d <- get_storage (o_storage t);;
  s <- alloc_storage d;;
  alloc_obj {| o_storage := s; o_dtype := o_dtype t;
               o_shape := o_shape t; requires_grad := requires_grad t |}.

(** [t.type(dtype)]: the tensor itself when it already has that dtype,
    otherwise a converted copy. *)
Definition type_ (dt : Dtype) (o : loc) : SE Heap loc :=
  t <- get_obj o;;
  if decide (o_dtype t = dt) then se_ret o
  else
    d <- get_storage (o_storage t);;
    s <- alloc_storage (map (fcast dt) d);;
    alloc_obj {| o_storage := s; o_dtype := dt;
                 o_shape := o_shape t; requires_grad := requires_grad t |}.

(** [t.reshape(shape)] of a contiguous tensor: a view on the same storage,
    or a [RuntimeError] when the element counts differ. *)
Definition reshape (shape : list nat) (o : loc) : SE Heap loc :=
  t <- get_obj o;;
  if decide (numel shape = numel (o_shape t))
  then alloc_obj {| o_storage := o_storage t; o_dtype := o_dtype t;
                    o_shape := shape; requires_grad := requires_grad t |}
  else se_raise RuntimeError.

(** [t / s]: a new tensor on a new storage. *)
Definition div_scalar (s : F) (o : loc) : SE Heap loc :=
  t <- get_obj o;;
  d <- get_storage (o_storage t);;
  st <- alloc_storage (map (λ x, fdiv x s) d);;
  alloc_obj {| o_storage := st; o_dtype := o_dtype t;
               o_shape := o_shape t; requires_grad := requires_grad t |}.

(** ** [linear_matmul] *)

(** [linear_matmul.__init__(self, linear_e3nn)].  The two multiplicities
    are read from [linear_e3nn.__dict__]; a module without these entries
    raises [KeyError].  That is the case of a [linear_matmul]; the
    accelerated [Linear] is taken to be the same (the rewrite is applied to
    e3nn layers, and meets the other two only when run a second time on the
    same model). *)
Definition linear_matmul_init (linear_e3nn : LinearModule)
  : SE Heap linear_matmul :=
  match linear_e3nn with
  | LinE3nn l =>
      let num_channels_in := num_irreps (irreps_in l) in
      let num_channels_out := num_irreps (irreps_out l) in
      d <- data_ (weight l);;
      r <- reshape [num_channels_in; num_channels_out] d;;
      w <- div_scalar (pow_half num_channels_in) r;;
      se_ret {| lm_weights := w |}
  | LinMatmul _ => se_raise KeyError
  | LinCuda _ => se_raise KeyError
  end.

(** [linear_matmul.forward(self, x)] *)
Definition linear_matmul_forward (h : Heap) (self : linear_matmul)
    (x : tensor F) : res (tensor F) :=
  match tensor_value h (lm_weights self) with
  | Some w => matmul x w
  | None => Raise DanglingReference
  end.

(** ** Accelerated and library kernels

    The forward computations of the modules this program does not define:
    the e3nn layers it leaves in place and the [mace_ops] primitives it
    installs.  They read the weights they own from the heap.  Each of them
    is a call into a library, which returns a tensor or raises (on shapes,
    dtypes or devices it does not accept). *)
Class Kernels := {
  e3nn_linear_forward : Heap → LinearE3nn → tensor F → res (tensor F);
  cuda_linear_forward : Heap → CudaLinear → tensor F → res (tensor F);
  skip_tp_forward :
    Heap → OpaqueModule → tensor F → tensor F → res (tensor F);
  conv_tp_weights_forward : Heap → OpaqueModule → tensor F → res (tensor F);
  calculate_first_occurences : tensor Z → nat → tensor Z → res (tensor Z);
  tp_forward :
    tensor F → tensor F → tensor F → tensor Z → tensor Z → tensor Z
    → res (tensor F);
  cuda_contraction_forward :
    Heap → CUDAContraction → tensor F → tensor Z → res (tensor F);
}.

Context `{Kernels}.

(** ** [SymmetricContractionWrapper.forward] *)

Definition SymmetricContractionWrapper_forward (h : Heap)
    (self : SymmetricContractionWrapper) (x y : tensor F) : res (tensor F) :=
  res_bind (argmax_last y) (λ y_idx,
    let y := int_ y_idx in
    res_bind (cuda_contraction_forward h (symmetric_contractions self) x y)
      (λ out, Ok (squeeze out))).

(** ** The rewritten interaction forwards *)

(** Calling a linear module of whichever kind is installed. *)
Definition call_linear_module (h : Heap) (m : LinearModule) (x : tensor F)
  : res (tensor F) :=
  match m with
  | LinE3nn l => e3nn_linear_forward h l x
  | LinMatmul l => linear_matmul_forward h l x
  | LinCuda l => cuda_linear_forward h l x
  end.

(** The calls a forward makes on the sub-modules of its block, recorded in
    the order they happen together with their arguments. *)
Inductive call :=
| call_skip_tp (node_feats node_attrs : tensor F)
| call_linear_up (node_feats : tensor F)
| call_conv_tp_weights (edge_feats : tensor F)
| call_calculate_first_occurences
    (receiver : tensor Z) (num_nodes : nat) (buffer : tensor Z)
| call_tp_forward
    (node_feats edge_attrs tp_weights : tensor F)
    (sender receiver first_occurences : tensor Z)
| call_linear (message : tensor F).

Definition invoke {A} (c : call) (r : res A) : SE (list call) A :=
  λ tr, (r, tr ++ [c]).

Definition tp_calculate_first_occurences (m : TPModule)
    (receiver : tensor Z) (num_nodes : nat) (buffer : tensor Z)
  : SE (list call) (tensor Z) :=
  match m with
  | InvariantMessagePassingTP =>
      invoke (call_calculate_first_occurences receiver num_nodes buffer)
             (calculate_first_occurences receiver num_nodes buffer)
  | TP_e3nn _ => se_raise AttributeError
  end.

Definition tp_forward_call (m : TPModule)
    (node_feats edge_attrs tp_weights : tensor F)
    (sender receiver first_occurences : tensor Z)
  : SE (list call) (tensor F) :=
  match m with
  | InvariantMessagePassingTP =>
      invoke (call_tp_forward node_feats edge_attrs tp_weights
                              sender receiver first_occurences)
             (tp_forward node_feats edge_attrs tp_weights
                         sender receiver first_occurences)
  | TP_e3nn _ => se_raise TypeError
  end.

Definition invariant_residual_interaction_forward (h : Heap)
    (self : InteractionBlock)
    (node_attrs node_feats edge_attrs edge_feats : tensor F)
    (edge_index : tensor Z)
  : SE (list call) (tensor F * option (tensor F)) :=
  e0 <- se_lift (select0 0 edge_index);;
  let sender := int_ e0 in
  e1 <- se_lift (select0 1 edge_index);;
  let receiver := int_ e1 in
  num_nodes <- se_lift (shape_first (t_shape node_feats));;
  sc <- invoke (call_skip_tp node_feats node_attrs)
          (skip_tp_forward h (skip_tp self) node_feats node_attrs);;
  node_feats <- invoke (call_linear_up node_feats)
          (call_linear_module h (linear_up self) node_feats);;
  tp_weights <- invoke (call_conv_tp_weights edge_feats)
          (conv_tp_weights_forward h (conv_tp_weights self) edge_feats);;
  first_occurences <-
    tp_calculate_first_occurences (tp self) receiver num_nodes empty_int_tensor;;
  d0 <- se_lift (shape_first (t_shape tp_weights));;
  d2 <- se_lift (shape_last (t_shape node_feats));;
  viewed <- se_lift (view_infer_mid d0 d2 tp_weights);;
  message <- tp_forward_call (tp self) node_feats edge_attrs viewed
               sender receiver first_occurences;;
  lin <- invoke (call_linear message)
           (call_linear_module h (linear self) message);;
  let message := tdiv lin (avg_num_neighbors self) in
  se_ret (message, Some sc).

Definition invariant_interaction_forward (h : Heap)
    (self : InteractionBlock)
    (node_attrs node_feats edge_attrs edge_feats : tensor F)
    (edge_index : tensor Z)
  : SE (list call) (tensor F * option (tensor F)) :=
  e0 <- se_lift (select0 0 edge_index);;
  let sender := int_ e0 in
  e1 <- se_lift (select0 1 edge_index);;
  let receiver := int_ e1 in
  num_nodes <- se_lift (shape_first (t_shape node_feats));;
  node_feats <- invoke (call_linear_up node_feats)
          (call_linear_module h (linear_up self) node_feats);;
  tp_weights <- invoke (call_conv_tp_weights edge_feats)
          (conv_tp_weights_forward h (conv_tp_weights self) edge_feats);;
  first_occurences <-
    tp_calculate_first_occurences (tp self) receiver num_nodes empty_int_tensor;;
  d0 <- se_lift (shape_first (t_shape tp_weights));;
  d2 <- se_lift (shape_last (t_shape node_feats));;
  tp_weights <- se_lift (view_infer_mid d0 d2 tp_weights);;
  message <- tp_forward_call (tp self) node_feats edge_attrs tp_weights
               sender receiver first_occurences;;
  lin <- invoke (call_linear message)
           (call_linear_module h (linear self) message);;
  let message := tdiv lin (avg_num_neighbors self) in
  se_ret (message, None).

(** Calling the block: whatever its [forward] attribute is bound to.  The
    class's own method belongs to the library and is not modelled. *)
Definition InteractionBlock_call (h : Heap) (self : InteractionBlock)
    (node_attrs node_feats edge_attrs edge_feats : tensor F)
    (edge_index : tensor Z)
  : option (SE (list call) (tensor F * option (tensor F))) :=
  match forward self with
  | class_forward => None
  | bound_invariant_residual_interaction_forward =>
      Some (invariant_residual_interaction_forward h self
              node_attrs node_feats edge_attrs edge_feats edge_index)
  | bound_invariant_interaction_forward =>
      Some (invariant_interaction_forward h self
              node_attrs node_feats edge_attrs edge_feats edge_index)
  end.

(** ** [optimize_cuda_mace] *)

(** Python's [needle in s] on strings. *)
Fixpoint str_prefix (p s : string) : bool :=
  match p, s with
  | EmptyString, _ => true
  | String a p', String b s' => if Ascii.eqb a b then str_prefix p' s' else false
  | String _ _, EmptyString => false
  end.

Fixpoint str_contains (needle s : string) : bool :=
  str_prefix needle s ||
  match s with
  | EmptyString => false
  | String _ s' => str_contains needle s'
  end.

Definition set_linear_up (v : LinearModule) (b : InteractionBlock) :=
  {| class_name := class_name b; linear_up := v;
     conv_tp_weights := conv_tp_weights b; tp := tp b; linear := linear b;
     skip_tp := skip_tp b; avg_num_neighbors := avg_num_neighbors b;
     forward := forward b |}.
Definition set_linear (v : LinearModule) (b : InteractionBlock) :=
  {| class_name := class_name b; linear_up := linear_up b;
     conv_tp_weights := conv_tp_weights b; tp := tp b; linear := v;
     skip_tp := skip_tp b; avg_num_neighbors := avg_num_neighbors b;
     forward := forward b |}.
Definition set_tp (v : TPModule) (b : InteractionBlock) :=
  {| class_name := class_name b; linear_up := linear_up b;
     conv_tp_weights := conv_tp_weights b; tp := v; linear := linear b;
     skip_tp := skip_tp b; avg_num_neighbors := avg_num_neighbors b;
     forward := forward b |}.
Definition set_forward (v : ForwardImpl) (b : InteractionBlock) :=
  {| class_name := class_name b; linear_up := linear_up b;
     conv_tp_weights := conv_tp_weights b; tp := tp b; linear := linear b;
     skip_tp := skip_tp b; avg_num_neighbors := avg_num_neighbors b;
     forward := v |}.

Definition set_pb_symmetric_contractions (v : ContractionModule) (p : ProductBlock) :=
  {| pb_symmetric_contractions := v; pb_linear := pb_linear p |}.
Definition set_pb_linear (v : LinearModule) (p : ProductBlock) :=
  {| pb_symmetric_contractions := pb_symmetric_contractions p; pb_linear := v |}.

Definition set_spherical_harmonics (v : SphericalHarmonics) (m : MACE) :=
  {| num_interactions := num_interactions m; spherical_harmonics := v;
     node_embedding_irreps_in := node_embedding_irreps_in m;
     embedding_params := embedding_params m; interactions := interactions m;
     products := products m; readout_params := readout_params m |}.
Definition set_interactions (v : list InteractionBlock) (m : MACE) :=
  {| num_interactions := num_interactions m;
     spherical_harmonics := spherical_harmonics m;
     node_embedding_irreps_in := node_embedding_irreps_in m;
     embedding_params := embedding_params m; interactions := v;
     products := products m; readout_params := readout_params m |}.
Definition set_products (v : list ProductBlock) (m : MACE) :=
  {| num_interactions := num_interactions m;
     spherical_harmonics := spherical_harmonics m;
     node_embedding_irreps_in := node_embedding_irreps_in m;
     embedding_params := embedding_params m; interactions := interactions m;
     products := v; readout_params := readout_params m |}.

(** [Module.parameters()] over the model record above: the parameters
    registered by the sub-modules, in registration order.  A
    [linear_matmul] keeps its weights as a plain attribute and registers
    nothing; the accelerated [Linear] is taken to register the weight it
    was given.  (torch skips a parameter it has already yielded; the two
    uses below, an idempotent assignment to every element and reading the
    first element, do not depend on that.) *)
Definition linear_parameters (m : LinearModule) : list loc :=
  match m with
  | LinE3nn l => [weight l]
  | LinMatmul _ => []
  | LinCuda l => [cl_weight l]
  end.

Definition tp_parameters (m : TPModule) : list loc :=
  match m with
  | TP_e3nn o => om_params o
  | InvariantMessagePassingTP => []
  end.

Definition block_parameters (b : InteractionBlock) : list loc :=
  linear_parameters (linear_up b) ++ tp_parameters (tp b)
  ++ om_params (conv_tp_weights b) ++ linear_parameters (linear b)
  ++ om_params (skip_tp b).

Definition contraction_parameters (c : Contraction) : list loc :=
  weights_max c :: weights c.

Definition product_parameters (p : ProductBlock) : list loc :=
  match pb_symmetric_contractions p with
  | SymE3nn m => flat_map contraction_parameters (contractions m)
  | SymWrapper _ => []
  end ++ linear_parameters (pb_linear p).

Definition parameters (m : MACE) : list loc :=
  embedding_params m ++ flat_map block_parameters (interactions m)
  ++ flat_map product_parameters (products m) ++ readout_params m.

Definition model_parameters (model : loc) : SE Heap (list loc) :=
  m <- get_model model;; se_ret (parameters m).

(** [param.requires_grad = b] *)
Definition set_requires_grad (b : bool) (param : loc) : SE Heap unit :=
  t <- get_obj param;;
  se_modify (λ h, set_objs h
     (<[param := {| o_storage := o_storage t; o_dtype := o_dtype t;
                    o_shape := o_shape t; requires_grad := b |}]> (objs h))).

Definition get_model_dtype (model : loc) : SE Heap Dtype :=
  ps <- model_parameters model;;
  match ps with
  | [] => se_raise StopIteration
  | p :: _ => t <- get_obj p;; se_ret (o_dtype t)
  end.

Definition update_model (model : loc) (f : MACE → MACE) : SE Heap unit :=
  m <- get_model model;;
  se_modify (λ h, set_models h (<[model := f m]> (models h))).

(** [l[i]] on a Python list or [ModuleList] *)
Definition list_index {A} (l : list A) (i : nat) : SE Heap A :=
  match l !! i with
  | Some a => se_ret a
  | None => se_raise IndexError
  end.

Definition get_interaction (model : loc) (i : nat) : SE Heap InteractionBlock :=
  m <- get_model model;; list_index (interactions m) i.

Definition get_product (model : loc) (i : nat) : SE Heap ProductBlock :=
  m <- get_model model;; list_index (products m) i.

(** [model.interactions[i].attr = v] *)
Definition set_interaction (model : loc) (i : nat)
    (f : InteractionBlock → InteractionBlock) : SE Heap unit :=
  _ <- get_interaction model i;;
  update_model model (λ m, set_interactions (alter f i (interactions m)) m).

Definition set_product (model : loc) (i : nat)
    (f : ProductBlock → ProductBlock) : SE Heap unit :=
  _ <- get_product model i;;
  update_model model (λ m, set_products (alter f i (products m)) m).

Definition linear_to_cuda (linear : LinearModule) : SE Heap CudaLinear :=
  match linear with
  | LinE3nn l =>
      se_ret {| cl_irreps_in := irreps_in l; cl_irreps_out := irreps_out l;
                cl_instructions := instructions l; cl_weight := weight l |}
  | LinMatmul _ => se_raise KeyError
  | LinCuda _ => se_raise KeyError
  end.

(** [for ...: acc = body(acc, x)] : a loop that rebinds a local *)
Fixpoint se_fold {S A B} (xs : list A) (body : B → A → SE S B) (acc : B)
  : SE S B :=
  match xs with
  | [] => se_ret acc
  | x :: xs' => se_bind (body acc x) (se_fold xs' body)
  end.

(** [d[k1][k2] = v] on a dictionary of dictionaries *)
Definition dict_set2 (d : gmap string (gmap nat loc)) (k1 : string)
    (k2 : nat) (v : loc) : SE Heap (gmap string (gmap nat loc)) :=
  match d !! k1 with
  | Some inner => se_ret (<[k1 := <[k2 := v]> inner]> d)
  | None => se_raise KeyError
  end.

(** [w.detach().clone().type(dtype)] *)
Definition detach_clone_type (dtype : Dtype) (w : loc) : SE Heap loc :=
  d <- detach w;; c <- clone d;; type_ dtype c.

(** [symm_contract.contractions]; the wrapper has no such attribute. *)
Definition contractions_of (m : ContractionModule) : SE Heap (list Contraction) :=
  match m with
  | SymE3nn e => se_ret (contractions e)
  | SymWrapper _ => se_raise AttributeError
  end.

(** The body of the loop over [j] that fills [all_weights]. *)
Definition extract_contraction_weights (dtype : Dtype) (cs : list Contraction)
    (all_weights : gmap string (gmap nat loc)) (j : nat)
  : SE Heap (gmap string (gmap nat loc)) :=
  let all_weights := <[pretty j := ∅]> all_weights in
  c <- list_index cs j;;
  w3 <- detach_clone_type dtype (weights_max c);;
  all_weights <- dict_set2 all_weights (pretty j) 3 w3;;
  c <- list_index cs j;;
  p <- list_index (weights c) 0;;
  w2 <- detach_clone_type dtype p;;
  all_weights <- dict_set2 all_weights (pretty j) 2 w2;;
  c <- list_index cs j;;
  p <- list_index (weights c) 1;;
  w1 <- detach_clone_type dtype p;;
  dict_set2 all_weights (pretty j) 1 w1.

Definition extract_all_weights (dtype : Dtype) (symm_contract : ContractionModule)
  : SE Heap (gmap string (gmap nat loc)) :=
  cs <- contractions_of symm_contract;;
  se_fold (seq 0 (length cs)) (extract_contraction_weights dtype cs) ∅.

(** The body of the loop [for i in range(n_layers)]. *)
Definition optimize_layer (model : loc) (dtype : Dtype) (i : nat) : SE Heap unit :=
  blk <- get_interaction model i;;
  lu <- linear_matmul_init (linear_up blk);;
  set_interaction model i (set_linear_up (LinMatmul lu));;;
  blk <- get_interaction model i;;
  lc <- linear_to_cuda (linear blk);;
  set_interaction model i (set_linear (LinCuda lc));;;
  set_interaction model i (set_tp InvariantMessagePassingTP);;;
  blk <- get_interaction model i;;
  (if str_contains "Residual" (class_name blk)
   then set_interaction model i
          (set_forward bound_invariant_residual_interaction_forward)
   else set_interaction model i
          (set_forward bound_invariant_interaction_forward));;;
  pb <- get_product model i;;
  let symm_contract := pb_symmetric_contractions pb in
  all_weights <- extract_all_weights dtype symm_contract;;
  pb <- get_product model i;;
  match pb_symmetric_contractions pb with
  | SymWrapper _ => se_raise AttributeError
  | SymE3nn e =>
      let irreps_in := sc_irreps_in e in
      let coupling_irreps := coupling_of irreps_in in
      let irreps_out := sc_irreps_out e in
      let symmetric_contractions :=
        {| cc_coupling_irreps := coupling_irreps; cc_irreps_out := irreps_out;
           cc_all_weights := all_weights;
           nthreadX := 32; nthreadY := 4; nthreadZ := 1; cc_dtype := dtype |} in
      set_product model i
        (set_pb_symmetric_contractions
           (SymWrapper {| symmetric_contractions := symmetric_contractions |}));;;
      pb <- get_product model i;;
      pl <- linear_matmul_init (pb_linear pb);;
      set_product model i (set_pb_linear (LinMatmul pl))
  end.

Definition optimize_cuda_mace (model : loc) : SE Heap loc :=
  ps <- model_parameters model;;
  se_for ps (set_requires_grad false);;;
  dtype <- get_model_dtype model;;
  m <- get_model model;;
  let n_layers := Z.to_nat (num_interactions m) in
  let sh_irreps := spherical_harmonics_irreps 3 in
  let spherical_harmonics :=
    {| sh_irreps := sh_irreps; sh_normalize := true;
       sh_normalization := "component"; sh_backend := "opt" |} in
  update_model model (set_spherical_harmonics spherical_harmonics);;;
  m <- get_model model;;
  let num_elements := num_irreps (node_embedding_irreps_in m) in
  se_for (seq 0 n_layers) (optimize_layer model dtype);;;
  se_ret model.

(** ** Vocabulary for the statements about the heap *)

(** Value-level [t.type(dtype)]. *)
Definition tcast (dt : Dtype) (t : tensor F) : tensor F :=
  if decide (t_dtype t = dt) then t
  else Tensor dt (t_shape t) (map (fcast dt) (t_data t)).

(** [h'] has every tensor object and storage of [h], unchanged, and
    possibly new ones after them. *)
Definition heap_grows (h h' : Heap) : Prop :=
  objs h `prefix_of` objs h' ∧ stor h `prefix_of` stor h'.

(** A computation that only allocates: whatever its outcome, the heap it
    leaves has grown. *)
Definition grows {A} (m : SE Heap A) : Prop :=
  ∀ h, heap_grows h (m h).2.

(** A computation on tensors alone: it neither reads nor writes the model
    objects of the heap. *)
Definition tensor_op {A} (m : SE Heap A) : Prop :=
  ∀ h ms, m (set_models h ms) = ((m h).1, set_models (m h).2 ms).


(** [w] is, in [h'], a tensor object that did not exist in [h], on a
    storage that did not exist in [h], not requiring gradients, and
    denoting the value [src] had in [h] cast to [dtype]. *)
Definition detached_clone (dtype : Dtype) (h h' : Heap) (src w : loc) : Prop :=
  (∀ t, tensor_value h src = Some t → tensor_value h' w = Some (tcast dtype t))
  ∧ ∃ o', objs h' !! w = Some o'
          ∧ requires_grad o' = false
          ∧ length (objs h) ≤ w
          ∧ length (stor h) ≤ o_storage o'.

(** The effect of one pass of the layer loop on the blocks of a layer:
    [blk], [pb] before in heap [h], [blk'], [pb'] after in heap [h']. *)
Definition layer_rewritten (dtype : Dtype) (h h' : Heap)
    (blk : InteractionBlock) (pb : ProductBlock)
    (blk' : InteractionBlock) (pb' : ProductBlock) : Prop :=
  ∃ e l_lin lu aw pl h1 h2,
    pb_symmetric_contractions pb = SymE3nn e ∧
    linear blk = LinE3nn l_lin ∧
    linear_matmul_init (linear_up blk) h = (Ok lu, h1) ∧
    extract_all_weights dtype (SymE3nn e) h1 = (Ok aw, h2) ∧
    linear_matmul_init (pb_linear pb) h2 = (Ok pl, h') ∧
    blk' = {| class_name := class_name blk;
              linear_up := LinMatmul lu;
              conv_tp_weights := conv_tp_weights blk;
              tp := InvariantMessagePassingTP;
              linear := LinCuda {| cl_irreps_in := irreps_in l_lin;
                                   cl_irreps_out := irreps_out l_lin;
                                   cl_instructions := instructions l_lin;
                                   cl_weight := weight l_lin |};
              skip_tp := skip_tp blk;
              avg_num_neighbors := avg_num_neighbors blk;
              forward := if str_contains "Residual" (class_name blk)
                         then bound_invariant_residual_interaction_forward
                         else bound_invariant_interaction_forward |} ∧
    pb' = {| pb_symmetric_contractions :=
               SymWrapper {| symmetric_contractions :=
                 {| cc_coupling_irreps := coupling_of (sc_irreps_in e);
                    cc_irreps_out := sc_irreps_out e;
                    cc_all_weights := aw;
                    nthreadX := 32; nthreadY := 4; nthreadZ := 1;
                    cc_dtype := dtype |} |};
             pb_linear := LinMatmul pl |}.

(** ** The command-line driver and the benchmark harness *)

(** Structures of [ase], as the expressions that build them. *)
Inductive Atoms :=
| atoms_of_file (numbers : list nat)
| build_bulk (name crystalstructure : string) (a_milli : Z) (cubic : bool)
| atoms_repeat (atoms : Atoms) (rep : nat * nat * nat).

Record World := {
  w_heap : Heap;
  w_stdout : list string;                 (* lines printed *)
  w_saved : list (string * loc);          (* saves completed by torch.save *)
}.

Definition lift_heap {A} (m : SE Heap A) : SE World A :=
  λ w, match m (w_heap w) with
       | (r, h') => (r, {| w_heap := h'; w_stdout := w_stdout w;
                           w_saved := w_saved w |})
       end.

Definition print (line : string) : SE World unit :=
  se_modify (λ w, {| w_heap := w_heap w; w_stdout := w_stdout w ++ [line];
                     w_saved := w_saved w |}).

(** What the driver asks of its environment: loading a model onto the
    device, the two global settings, writing a file (opening the path and
    serialising into it: a missing directory, a lack of permission or a
    failed write raises), reading a trajectory with [ase], the number of
    atoms of a structure, and the timed part of the benchmark (building
    the batch and running the timer). *)
Class System := {
  torch_load : string → SE Heap loc;
  set_default_dtype : string → res unit;
  init_device : string → res unit;
  write_file : string → res unit;
  ase_io_read : string → res (list Atoms);
  ase_len : Atoms → nat;
  time_model : loc → list Atoms → string → SE World unit;
}.

Context `{System}.

(** [torch.save(obj, path)]: the path is opened and the object written to
    it, either of which may raise; a save that completes is recorded. *)
Definition torch_save (obj : loc) (path : string) : SE World unit :=
  se_lift (write_file path);;;
  se_modify (λ w, {| w_heap := w_heap w; w_stdout := w_stdout w;
                     w_saved := w_saved w ++ [(path, obj)] |}).

(** [try: body  except Exception: handler] *)
Definition se_try {S A} (body : SE S A) (handler : SE S A) : SE S A :=
  λ s, match body s with
       | (Ok a, s') => (Ok a, s')
       | (Raise _, s') => handler s'
       end.

Definition benchmark (model : loc) (benchmark_file name : string)
  : SE World unit :=
  atoms_list <-
    se_try (se_lift (ase_io_read benchmark_file))
      (print ("Could not read file " +:+ benchmark_file);;;
       let atoms := build_bulk "C" "diamond" 3567 true in
       let atoms_list := [atoms_repeat atoms (10, 10, 10)] in
       match atoms_list !! 0 with
       | Some first =>
           print ("Number of atoms " +:+ pretty (ase_len first));;;
           se_ret atoms_list
       | None => se_raise IndexError
       end);;
  time_model model atoms_list name.

(** Python's [s.split(sep)] for a one-character separator, and
    [sep.join(parts)]. *)
Fixpoint str_split (sep : Ascii.ascii) (s : string) : list string :=
  match s with
  | EmptyString => [EmptyString]
  | String c s' =>
      if Ascii.eqb c sep then EmptyString :: str_split sep s'
      else match str_split sep s' with
           | [] => [String c EmptyString]
           | w :: ws => String c w :: ws
           end
  end.

Fixpoint str_join (sep : string) (parts : list string) : string :=
  match parts with
  | [] => EmptyString
  | [x] => x
  | x :: rest => x +:+ sep +:+ str_join sep rest
  end.

Record Args := {
  args_model : string;
  args_output : string;
  args_dtype : string;
  args_benchmark : bool;
  args_benchmark_file : string;
}.

(** The two assignments of [main] that compute where the model is saved. *)
Definition model_opt_path (args : Args) : string :=
  let model_dir := str_join "/" (removelast (str_split "/"%char (args_model args))) in
  model_dir +:+ "/" +:+ args_output args.

Definition main (args : Args) : SE World unit :=
  se_lift (set_default_dtype (args_dtype args));;;
  se_lift (init_device "cuda");;;
  model <- lift_heap (torch_load (args_model args));;
  model_opt <- lift_heap (optimize_cuda_mace model);;
  torch_save model_opt (model_opt_path args);;;
  if args_benchmark args then
    benchmark model_opt (args_benchmark_file args) "opt";;;
    model <- lift_heap (torch_load (args_model args));;
    benchmark model (args_benchmark_file args) "orig"
  else se_ret ().

(** The directory a path lies in, as the sequence of its components once
    resolved against the working directory: an absolute path starts at the
    root, a relative one at [cwd]; empty components and [.] are dropped. *)
Definition path_components (p : string) : list string :=
  filter (λ c, c ≠ "" ∧ c ≠ ".") (str_split "/"%char p).

Definition resolve_path (cwd p : string) : list string :=
  if str_prefix "/" p then path_components p
  else path_components cwd ++ path_components p.

Definition containing_directory (cwd p : string) : list string :=
  removelast (resolve_path cwd p).

End Program.

(** ** Vocabulary for the statements about the model object *)

Section Frame.
Context {F : Type}.

(** [m'] is [m] up to the parts the rewrite assigns: the blocks and the
    spherical harmonics may differ; the number of layers, the node
    embedding, the parameters of the other sub-modules and the number of
    blocks are the same. *)
Definition same_frame (m m' : @MACE F) : Prop :=
  num_interactions m' = num_interactions m ∧
  node_embedding_irreps_in m' = node_embedding_irreps_in m ∧
  embedding_params m' = embedding_params m ∧
  readout_params m' = readout_params m ∧
  length (interactions m') = length (interactions m) ∧
  length (products m') = length (products m).

(** From [h] to [h'] no model object was created or removed, the model
    objects other than [model] are the same, and [model] is the same up to
    its blocks and spherical harmonics. *)
Definition model_frame (model : loc) (h h' : @Heap F) : Prop :=
  length (models h') = length (models h) ∧
  (∀ k, k ≠ model → models h' !! k = models h !! k) ∧
  (∀ m, models h !! model = Some m →
        ∃ m', models h' !! model = Some m' ∧ same_frame m m').

(** A computation that, whatever its outcome, stays within the frame. *)
Definition frames {A} (model : loc) (c : SE (@Heap F) A) : Prop :=
  ∀ h, model_frame model h (c h).2.

(** A linear layer the constructor of [linear_matmul] accepts: an e3nn
    layer whose weight is in the heap with
    [num_channels_in * num_channels_out] elements. *)
Definition linear_ok (h : @Heap F) (lin : LinearModule) : Prop :=
  ∃ l o, lin = LinE3nn l ∧ objs h !! weight l = Some o
         ∧ is_Some (stor h !! o_storage o)
         ∧ numel (o_shape o) = num_irreps (irreps_in l) * num_irreps (irreps_out l).

(** A layer the loop body can rewrite: e3nn linear layers with weights of
    the right size, and an e3nn contraction whose every part has its
    weights in the heap and at least two lower-order weights. *)
Definition layer_ok (h : @Heap F) (blk : @InteractionBlock F)
    (pb : ProductBlock) : Prop :=
  linear_ok h (linear_up blk) ∧
  (∃ l, linear blk = LinE3nn l) ∧
  (∃ e, pb_symmetric_contractions pb = SymE3nn e ∧
        (∀ c p, c ∈ contractions e → p ∈ contraction_parameters c →
                is_Some (tensor_value h p)) ∧
        Forall (λ c, 2 ≤ length (weights c)) (contractions e)) ∧
  linear_ok h (pb_linear pb).

End Frame.

(** ** Executable instances

    Integer arithmetic standing in for the scalars, small kernels that
    raise on the inputs they do not accept and a small environment, to run
    the definitions on concrete inputs; and binary64 arithmetic, where
    rounding is visible. *)

Global Instance Z_scalar : Scalar Z := {|
  fzero := 0%Z;
  fadd := Z.add;
  fmul := Z.mul;
  fdiv := Z.div;
  fgtb := Z.gtb;
  pow_half := λ n, Z.sqrt (Z.of_nat n);
  fcast := λ _ x, x;
  fdot := λ u v, fold_left (λ acc p, (acc + p.1 * p.2)%Z) (zip u v) 0%Z;
|}.

(** *** Binary64 arithmetic

    The scalars of a [float64] tensor, with the kernel's IEEE 754 binary64
    operations: addition, multiplication, division and the square root are
    correctly rounded. *)
Module Binary64.
Import PrimFloat.

Definition float_of_nat (n : nat) : float := of_uint63 (Uint63.of_Z (Z.of_nat n)).

(** CPython evaluates [n ** 0.5] with the C library's [pow], which IEEE 754
    does not require to be correctly rounded, unlike the square root.  At
    2921 CPython 3 (glibc, x86-64) returns 54.046276467486635, the double
    [0x1.b05ec632536fap+5], one unit in the last place below the correctly
    rounded root 54.04627646748664 that [math.sqrt] and [torch.sqrt] give.
    That value is recorded here; at the other arguments, where [pow] is
    within one unit in the last place of the root, the root stands in for
    it, and no statement evaluates [float_pow_half] there. *)
Definition float_pow_half (n : nat) : float :=
  if Nat.eqb n 2921 then 0x1.b05ec632536fap+5%float
  else sqrt (float_of_nat n).

(** The inner product is taken with separately rounded products added from
    the first index on, one of the orders a kernel may use. *)
Definition float_scalar : Scalar float := {|
  fzero := 0%float;
  fadd := add;
  fmul := mul;
  fdiv := div;
  fgtb := λ a b, ltb b a;
  pow_half := float_pow_half;
  fcast := λ _ x, x;
  fdot := λ u v,
    fold_left (λ acc p, add acc (mul p.1 p.2)) (zip u v) 0%float;
|}.

(** A layer of 2921 input channels and one output channel whose first
    weight is the square root of 2921, and an input that selects that
    weight. *)
Definition wide_layer : LinearE3nn :=
  {| irreps_in := [(2921, {| ir_l := 0; ir_p := 1 |})];
     irreps_out := [(1, {| ir_l := 0; ir_p := 1 |})];
     instructions := [(0, 0)]; weight := 0 |}.

Definition wide_weight : tensor float :=
  Tensor float64 [2921; 1] (sqrt (float_of_nat 2921) :: repeat 1%float 2920).

Definition wide_heap : Heap (F := float) :=
  {| objs := [{| o_storage := 0; o_dtype := float64; o_shape := [2921; 1];
                 requires_grad := true |}];
     stor := [t_data wide_weight];
     models := [] |}.

Definition wide_input : tensor float :=
  Tensor float64 [1; 2921] (1%float :: repeat 0%float 2920).

End Binary64.

(** For each node, the position of the first edge it receives, or -1. *)
Fixpoint first_index_of (z : Z) (l : list Z) (i : Z) : Z :=
  match l with
  | [] => (-1)%Z
  | x :: l' => if Z.eqb x z then i else first_index_of z l' (i + 1)%Z
  end.

Global Instance sample_kernels : Kernels (F := Z) := {|
  e3nn_linear_forward := λ _ _ x, Ok x;
  cuda_linear_forward := λ _ _ x, Ok x;
  skip_tp_forward := λ _ _ x attrs,
    match t_shape x, t_shape attrs with
    | n :: _, n' :: _ => if decide (n = n') then Ok x else Raise RuntimeError
    | _, _ => Raise RuntimeError
    end;
  conv_tp_weights_forward := λ _ _ e, Ok e;
  calculate_first_occurences := λ receiver n _,
    if decide (length (t_shape receiver) = 1)
    then Ok (Tensor int32 [n]
               (map (λ i, first_index_of (Z.of_nat i) (t_data receiver) 0)
                    (seq 0 n)))
    else Raise RuntimeError;
  tp_forward := λ node_feats _ _ _ _ _,
    Ok (Tensor (t_dtype node_feats) (t_shape node_feats ++ [1])
          (t_data node_feats));
  cuda_contraction_forward := λ _ cc x _,
    if decide (t_dtype x = cc_dtype cc)
    then Ok (Tensor (t_dtype x) (t_shape x ++ [1]) (t_data x))
    else Raise RuntimeError;
|}.

Definition scalars (n : nat) : Irreps := [(n, {| ir_l := 0; ir_p := 1 |})].

Definition sample_param (storage : loc) (shape : list nat) : TObj :=
  {| o_storage := storage; o_dtype := float64; o_shape := shape;
     requires_grad := true |}.

(** A block whose parameters are the tensor objects [base .. base+2]. *)
Definition sample_block (name : string) (base : loc) : InteractionBlock (F := Z) :=
  {| class_name := name;
     linear_up := LinE3nn {| irreps_in := scalars 4; irreps_out := scalars 2;
                             instructions := [(0, 0)]; weight := base |};
     conv_tp_weights := {| om_id := 1; om_params := [] |};
     tp := TP_e3nn {| om_id := 2; om_params := [] |};
     linear := LinE3nn {| irreps_in := scalars 2; irreps_out := scalars 2;
                          instructions := [(0, 0)]; weight := base + 1 |};
     skip_tp := {| om_id := 3; om_params := [base + 2] |};
     avg_num_neighbors := 2%Z;
     forward := class_forward |}.

(** A product block whose parameters are [base .. base+3]. *)
Definition sample_product (base : loc) : ProductBlock :=
  {| pb_symmetric_contractions :=
       SymE3nn {| sc_irreps_in := [(2, {| ir_l := 0; ir_p := 1 |});
                                   (2, {| ir_l := 1; ir_p := (-1) |})];
                  sc_irreps_out := scalars 2;
                  contractions :=
                    [{| weights_max := base; weights := [base + 1; base + 2] |}] |};
     pb_linear := LinE3nn {| irreps_in := scalars 2; irreps_out := scalars 2;
                             instructions := [(0, 0)]; weight := base + 3 |} |}.

Definition sample_model : MACE (F := Z) :=
  {| num_interactions := 2;
     spherical_harmonics := {| sh_irreps := spherical_harmonics_irreps 3;
                               sh_normalize := true;
                               sh_normalization := "component";
                               sh_backend := "e3nn" |};
     node_embedding_irreps_in := scalars 3;
     embedding_params := [0];
     interactions := [sample_block "RealAgnosticInteractionBlock" 1;
                      sample_block "RealAgnosticResidualInteractionBlock" 4];
     products := [sample_product 7; sample_product 11];
     readout_params := [15] |}.

Definition sample_shapes : list (list nat) :=
  [ [3; 4];
    [1; 8]; [4]; [6];
    [1; 8]; [4]; [6];
    [2; 3]; [2; 2]; [2]; [4];
    [2; 3]; [2; 2]; [2]; [4];
    [2] ].

Definition sample_heap : Heap (F := Z) :=
  {| objs := imap sample_param sample_shapes;
     stor := imap (λ i shape, map (λ k, Z.of_nat (4 * (i + k + 1)))
                                  (seq 0 (numel shape))) sample_shapes;
     models := [sample_model] |}.

Global Instance sample_system : System (F := Z) := {|
  torch_load := λ path h,
    (Ok (length (models h)),
     set_models h (models h ++ [sample_model]));
  set_default_dtype := λ _, Ok ();
  init_device := λ _, Ok ();
  write_file := λ path,
    if str_contains "missing/" path then Raise OSError else Ok ();
  ase_io_read := λ path,
    if String.eqb path "frames.xyz" then Ok [atoms_of_file [6; 6]]
    else Raise OSError;
  ase_len := fix len a :=
    match a with
    | atoms_of_file ns => length ns
    | build_bulk _ _ _ cubic => if cubic then 8 else 2
    | atoms_repeat a' (x, y, z) => len a' * x * y * z
    end;
  time_model := λ _ atoms_list name,
    print ("timed " +:+ name +:+ " on " +:+ pretty (length atoms_list));
|}.

Definition sample_wrapper : SymmetricContractionWrapper :=
  {| symmetric_contractions :=
       {| cc_coupling_irreps := [(1, {| ir_l := 0; ir_p := 1 |})];
          cc_irreps_out := scalars 2; cc_all_weights := ∅;
          nthreadX := 32; nthreadY := 4; nthreadZ := 1; cc_dtype := float64 |} |}.

(** The heap left by the rewrite of the sample model, and its blocks. *)
Definition sample_rewritten : Heap (F := Z) :=
  (optimize_cuda_mace 0 sample_heap).2.

Definition sample_rewritten_block (i : nat) : InteractionBlock (F := Z) :=
  default (sample_block "" 0)
          (m ← models sample_rewritten !! 0; interactions m !! i).

(** A graph of two nodes joined by two edges, one in each direction. *)
Definition sample_node_attrs : tensor Z := Tensor float64 [2; 3] [1; 0; 0; 0; 1; 0]%Z.
Definition sample_node_feats : tensor Z :=
  Tensor float64 [2; 4] [1; 2; 3; 4; 5; 6; 7; 8]%Z.
Definition sample_edge_attrs : tensor Z := Tensor float64 [2; 1] [1; 1]%Z.
Definition sample_edge_feats : tensor Z :=
  Tensor float64 [2; 4] [1; 1; 2; 2; 3; 3; 4; 4]%Z.
Definition sample_edge_index : tensor Z := Tensor int64 [2; 2] [0; 1; 1; 0]%Z.

(** * Properties *)

Lemma se_bind_Ok {S A B} (m : SE S A) (k : A → SE S B) s b s' :
  se_bind m k s = (Ok b, s') →
  ∃ a s1, m s = (Ok a, s1) ∧ k a s1 = (Ok b, s').
Proof.
  unfold se_bind. destruct (m s) as [[a|e] s1]; [eauto | discriminate].
Qed.

Lemma se_bind_step {S A B} (m : SE S A) (k : A → SE S B) s a s1 :
  m s = (Ok a, s1) → se_bind m k s = k a s1.
Proof. unfold se_bind. by intros ->. Qed.

Lemma se_bind_raise {S A B} (m : SE S A) (k : A → SE S B) s e s1 :
  m s = (Raise e, s1) → se_bind m k s = (Raise e, s1).
Proof. unfold se_bind. by intros ->. Qed.

Lemma numel_pair a b : numel [a; b] = a * b.
Proof. unfold numel; simpl. lia. Qed.

Lemma lookup_map {A B} (f : A → B) (l : list A) i :
  map f l !! i = f <$> (l !! i).
Proof. revert i. induction l as [|x l IH]; intros [|i]; simpl; auto. Qed.

Lemma lookup_flat_map_const {A B} (f : A → list B) (l : list A) n i j a :
  (∀ x, length (f x) = n) → l !! i = Some a → j < n →
  flat_map f l !! (i * n + j) = f a !! j.
Proof.
  intros Hlen. revert i. induction l as [|x l IH]; intros i Hi Hj; [done|].
  destruct i as [|i]; simpl in *.
  - simplify_eq. rewrite lookup_app_l; [done | rewrite Hlen; lia].
  - rewrite lookup_app_r; rewrite Hlen; [|lia].
    replace (n + i * n + j - n) with (i * n + j) by lia. by apply IH.
Qed.

Section LinearFacts.
Context {F : Type} `{Scalar F}.

Lemma matmul_entries (x w : tensor F) batch k n :
  t_shape x = [batch; k] → t_shape w = [k; n] → t_dtype x = t_dtype w →
  ∃ y, matmul x w = Ok y ∧ t_dtype y = t_dtype x ∧ t_shape y = [batch; n] ∧
    ∀ b j, b < batch → j < n →
      t_data y !! (b * n + j)
      = Some (fdot (row_of k b (t_data x)) (col_of k n j (t_data w))).
Proof.
  intros Hx Hw Hd. unfold matmul. rewrite Hw, Hx. simpl.
  rewrite decide_True by done. eexists; split; [done|]. simpl.
  split; [done|]. split; [done|]. intros b j Hb Hj.
  rewrite (lookup_flat_map_const _ _ n b j b).
  - rewrite lookup_map, lookup_seq_lt by done. done.
  - intros r. by rewrite length_map, length_seq.
  - rewrite lookup_seq_lt by (unfold numel; simpl; lia). done.
  - done.
Qed.

(** *** Running the heap primitives *)

Lemma get_obj_run (h : @Heap F) o t :
  objs h !! o = Some t → get_obj o h = (Ok t, h).
Proof. unfold get_obj, of_option. by intros ->. Qed.

Lemma get_storage_run (h : @Heap F) s d :
  stor h !! s = Some d → get_storage s h = (Ok d, h).
Proof. unfold get_storage, of_option. by intros ->. Qed.

Lemma get_model_run (h : @Heap F) k m :
  models h !! k = Some m → get_model k h = (Ok m, h).
Proof. unfold get_model, of_option. by intros ->. Qed.

Lemma detach_run (h : @Heap F) o t :
  objs h !! o = Some t →
  detach o h =
    (Ok (length (objs h)),
     set_objs h (objs h ++ [{| o_storage := o_storage t; o_dtype := o_dtype t;
                               o_shape := o_shape t; requires_grad := false |}])).
Proof.
  intros Ho. unfold detach. by rewrite (se_bind_step _ _ _ _ _ (get_obj_run _ _ _ Ho)).
Qed.

Lemma reshape_run (h : @Heap F) shape o t :
  objs h !! o = Some t →
  reshape shape o h =
    if decide (numel shape = numel (o_shape t))
    then (Ok (length (objs h)),
          set_objs h (objs h ++ [{| o_storage := o_storage t; o_dtype := o_dtype t;
                                    o_shape := shape;
                                    requires_grad := requires_grad t |}]))
    else (Raise RuntimeError, h).
Proof.
  intros Ho. unfold reshape.
  rewrite (se_bind_step _ _ _ _ _ (get_obj_run _ _ _ Ho)).
  by destruct (decide _).
Qed.

Lemma div_scalar_run (h : @Heap F) s o t d :
  objs h !! o = Some t → stor h !! o_storage t = Some d →
  div_scalar s o h =
    (Ok (length (objs h)),
     {| objs := objs h ++ [{| o_storage := length (stor h); o_dtype := o_dtype t;
                              o_shape := o_shape t;
                              requires_grad := requires_grad t |}];
        stor := stor h ++ [map (λ x, fdiv x s) d];
        models := models h |}).
Proof.
  intros Ho Hd. unfold div_scalar.
  rewrite (se_bind_step _ _ _ _ _ (get_obj_run _ _ _ Ho)).
  by rewrite (se_bind_step _ _ _ _ _ (get_storage_run _ _ _ Hd)).
Qed.

Lemma clone_run (h : @Heap F) o t d :
  objs h !! o = Some t → stor h !! o_storage t = Some d →
  clone o h =
    (Ok (length (objs h)),
     {| objs := objs h ++ [{| o_storage := length (stor h); o_dtype := o_dtype t;
                              o_shape := o_shape t;
                              requires_grad := requires_grad t |}];
        stor := stor h ++ [d];
        models := models h |}).
Proof.
  intros Ho Hd. unfold clone.
  rewrite (se_bind_step _ _ _ _ _ (get_obj_run _ _ _ Ho)).
  by rewrite (se_bind_step _ _ _ _ _ (get_storage_run _ _ _ Hd)).
Qed.

Lemma type_run (h : @Heap F) dt o t d :
  objs h !! o = Some t → stor h !! o_storage t = Some d →
  type_ dt o h =
    if decide (o_dtype t = dt) then (Ok o, h)
    else
      (Ok (length (objs h)),
       {| objs := objs h ++ [{| o_storage := length (stor h); o_dtype := dt;
                                o_shape := o_shape t;
                                requires_grad := requires_grad t |}];
          stor := stor h ++ [map (fcast dt) d];
          models := models h |}).
Proof.
  intros Ho Hd. unfold type_.
  rewrite (se_bind_step _ _ _ _ _ (get_obj_run _ _ _ Ho)).
  destruct (decide _); [done|].
  by rewrite (se_bind_step _ _ _ _ _ (get_storage_run _ _ _ Hd)).
Qed.

Lemma lookup_snoc {A} (l : list A) (x : A) : (l ++ [x]) !! length l = Some x.
Proof. rewrite lookup_app_r by lia. by rewrite Nat.sub_diag. Qed.

(** What a construction does to the heap, whether it succeeds or raises. *)
Lemma linear_matmul_init_unfold (h : @Heap F) (l : LinearE3nn) (o : TObj) :
  objs h !! weight l = Some o →
  let c_in := num_irreps (irreps_in l) in
  let c_out := num_irreps (irreps_out l) in
  let od := {| o_storage := o_storage o; o_dtype := o_dtype o;
               o_shape := o_shape o; requires_grad := false |} in
  let ov := {| o_storage := o_storage o; o_dtype := o_dtype o;
               o_shape := [c_in; c_out]; requires_grad := false |} in
  linear_matmul_init (LinE3nn l) h =
    if decide (numel [c_in; c_out] = numel (o_shape o)) then
      match stor h !! o_storage o with
      | Some d =>
          (Ok {| lm_weights := S (S (length (objs h))) |},
           {| objs := (objs h ++ [od]) ++ [ov] ++
                [{| o_storage := length (stor h); o_dtype := o_dtype o;
                    o_shape := [c_in; c_out]; requires_grad := false |}];
              stor := stor h ++ [map (λ x, fdiv x (pow_half c_in)) d];
              models := models h |})
      | None => (Raise DanglingReference,
                 {| objs := (objs h ++ [od]) ++ [ov]; stor := stor h;
                    models := models h |})
      end
    else (Raise RuntimeError,
          {| objs := objs h ++ [od]; stor := stor h; models := models h |}).
Proof.
  intros Ho c_in c_out od ov. unfold linear_matmul_init, data_.
  rewrite (se_bind_step _ _ _ _ _ (detach_run _ _ _ Ho)).
  fold c_in c_out od.
  assert (Hod : objs (set_objs h (objs h ++ [od])) !! length (objs h) = Some od)
    by apply lookup_snoc.
  unfold se_bind at 1. rewrite (reshape_run _ _ _ _ Hod). simpl o_shape.
  destruct (decide (numel [c_in; c_out] = numel (o_shape o))) as [Hn|Hn]; [|done].
  unfold div_scalar, get_obj, get_storage, of_option, alloc_storage,
    alloc_obj, se_ret, set_stor, set_objs. unfold se_bind. simpl.
  rewrite lookup_snoc. simpl.
  destruct (stor h !! o_storage o) as [d|] eqn:Hd; [|done]. simpl.
  rewrite !length_app. simpl. rewrite <- !app_assoc. simpl.
  do 3 f_equal. lia.
Qed.

Lemma col_of_tdiv (k n j : nat) (d : list F) (s : F) :
  length d = k * n → j < n →
  col_of k n j (map (λ x, fdiv x s) d)
  = map (λ i, fdiv (nth (i * n + j) d fzero) s) (seq 0 k).
Proof.
  intros Hlen Hj. unfold col_of. apply map_ext_in. intros i Hi.
  apply in_seq in Hi.
  rewrite (nth_indep _ fzero (fdiv fzero s)) by (rewrite length_map; nia).
  apply (map_nth (λ x, fdiv x s)).
Qed.

(** C5: constructing a [linear_matmul] from a layer whose weight tensor
    does not have [num_channels_in * num_channels_out] elements raises a
    [RuntimeError] inside the constructor.  No replacement object is
    returned, so no forward can run on it, and no storage is created or
    changed: the weight is neither truncated nor padded. *)
Theorem linear_matmul_init_fails_fast (h : @Heap F) (l : LinearE3nn) (o : TObj) :
  objs h !! weight l = Some o →
  numel (o_shape o) ≠ num_irreps (irreps_in l) * num_irreps (irreps_out l) →
  ∃ h', linear_matmul_init (LinE3nn l) h = (Raise RuntimeError, h')
        ∧ stor h' = stor h
        ∧ models h' = models h
        ∧ ∀ p, p < length (objs h) → objs h' !! p = objs h !! p.
Proof.
  intros Ho Hne. rewrite (linear_matmul_init_unfold h l o Ho).
  rewrite numel_pair. rewrite decide_False by congruence.
  eexists; split; [done|]. simpl. repeat split.
  intros p Hp. by rewrite lookup_app_l.
Qed.

(** C1 (amended): a [linear_matmul] built from a linear layer with
    multiplicities [c_in], [c_out] and weight [W] computes, for every input
    [x], exactly [torch.matmul(x, W.reshape(c_in, c_out) / c_in ** 0.5)]:
    the second operand has the elements of [W], each divided by the float
    power [c_in ** 0.5], laid out as [c_in] rows of [c_out].  On an input
    of shape [batch, c_in] the call succeeds, the result has shape
    [batch, c_out] and its entry [(b, j)] is the inner product, as
    [torch.matmul] accumulates it, of row [b] of [x] with the column of
    the quotients [W[i, j] / c_in ** 0.5]. *)
Theorem linear_matmul_forward_exact (h h' : @Heap F) (l : LinearE3nn)
    (W : tensor F) (r : linear_matmul) (c_in c_out : nat) :
  num_irreps (irreps_in l) = c_in →
  num_irreps (irreps_out l) = c_out →
  tensor_value h (weight l) = Some W →
  well_shaped W →
  linear_matmul_init (LinE3nn l) h = (Ok r, h') →
  reshape_val [c_in; c_out] W = Ok (Tensor (t_dtype W) [c_in; c_out] (t_data W)) ∧
  (∀ x, linear_matmul_forward h' r x
        = matmul x (Tensor (t_dtype W) [c_in; c_out]
                      (map (λ w, fdiv w (pow_half c_in)) (t_data W)))) ∧
  (∀ x batch, t_shape x = [batch; c_in] → t_dtype x = t_dtype W →
     ∃ y, linear_matmul_forward h' r x = Ok y
          ∧ t_dtype y = t_dtype x
          ∧ t_shape y = [batch; c_out]
          ∧ ∀ b j, b < batch → j < c_out →
              t_data y !! (b * c_out + j)
              = Some (fdot (take c_in (drop (b * c_in) (t_data x)))
                           (map (λ i, fdiv (nth (i * c_out + j) (t_data W) fzero)
                                           (pow_half c_in))
                                (seq 0 c_in)))).
Proof.
  intros Hin Hout HW Hws Hinit.
  unfold tensor_value in HW.
  destruct (objs h !! weight l) as [o|] eqn:Ho; [|done]. simpl in HW.
  destruct (stor h !! o_storage o) as [d|] eqn:Hd; [|done]. simpl in HW.
  injection HW as <-.
  rewrite (linear_matmul_init_unfold h l o Ho) in Hinit.
  rewrite Hin, Hout, Hd in Hinit.
  destruct (decide (numel [c_in; c_out] = numel (o_shape o))) as [Hn|]; [|done].
  injection Hinit as <- <-.
  unfold reshape_val. simpl t_shape. rewrite decide_True by done.
  split; [done|]. simpl t_dtype. simpl t_data.
  match goal with
  | |- context [linear_matmul_forward ?hh ?rr] =>
      assert (Hval : ∀ x, linear_matmul_forward hh rr x
                = matmul x (Tensor (o_dtype o) [c_in; c_out]
                              (map (λ w, fdiv w (pow_half c_in)) d)))
  end.
  { intros x. unfold linear_matmul_forward, tensor_value. simpl.
    rewrite lookup_app_r by (rewrite length_app; simpl; lia).
    rewrite length_app. simpl.
    replace (S (S (length (objs h))) - (length (objs h) + 1)) with 1 by lia.
    simpl. by rewrite lookup_snoc. }
  split; [exact Hval|].
  intros x batch Hx Hdt.
  destruct (matmul_entries x (Tensor (o_dtype o) [c_in; c_out]
                                (map (λ w, fdiv w (pow_half c_in)) d))
              batch c_in c_out)
    as (y & Hy & Hyd & Hys & Hye); [done..|].
  exists y. rewrite Hval. repeat split; [done..|].
  intros b j Hb Hj. rewrite (Hye b j Hb Hj). simpl. f_equal. f_equal.
  apply col_of_tdiv; [|done].
  unfold well_shaped in Hws. simpl in Hws. rewrite Hws, <- Hn. apply numel_pair.
Qed.

End LinearFacts.

Section ForwardFacts.
Context {F : Type} `{Scalar F} `{!Kernels (F := F)}.

Lemma length_filter_lt {A} (P : A → Prop) `{∀ x, Decision (P x)} (l : list A) i x :
  l !! i = Some x → ¬ P x → length (filter P l) < length l.
Proof.
  revert i. induction l as [|a l IH]; intros i Hi Hx; [done|].
  rewrite filter_cons. destruct i as [|i]; simpl in Hi.
  - simplify_eq. rewrite decide_False by done.
    pose proof (length_filter P l). simpl. lia.
  - specialize (IH i Hi Hx). destruct (decide (P a)); simpl; lia.
Qed.


Lemma residual_forward_inv (h : @Heap F) (self : InteractionBlock)
    node_attrs node_feats edge_attrs edge_feats edge_index tr msg sc tr' :
  invariant_residual_interaction_forward h self
    node_attrs node_feats edge_attrs edge_feats edge_index tr
  = (Ok (msg, sc), tr') →
  ∃ e0 e1 num_nodes s up tp_weights first_occurences d0 d2 viewed message lin,
    select0 0 edge_index = Ok e0 ∧ select0 1 edge_index = Ok e1 ∧
    shape_first (t_shape node_feats) = Ok num_nodes ∧
    skip_tp_forward h (skip_tp self) node_feats node_attrs = Ok s ∧
    call_linear_module h (linear_up self) node_feats = Ok up ∧
    conv_tp_weights_forward h (conv_tp_weights self) edge_feats = Ok tp_weights ∧
    tp self = InvariantMessagePassingTP ∧
    calculate_first_occurences (int_ e1) num_nodes empty_int_tensor
    = Ok first_occurences ∧
    shape_first (t_shape tp_weights) = Ok d0 ∧
    shape_last (t_shape up) = Ok d2 ∧
    view_infer_mid d0 d2 tp_weights = Ok viewed ∧
    tp_forward up edge_attrs viewed (int_ e0) (int_ e1) first_occurences
    = Ok message ∧
    call_linear_module h (linear self) message = Ok lin ∧
    msg = tdiv lin (avg_num_neighbors self) ∧
    sc = Some s ∧
    tr' = tr ++ [call_skip_tp node_feats node_attrs;
                 call_linear_up node_feats;
                 call_conv_tp_weights edge_feats;
                 call_calculate_first_occurences (int_ e1) num_nodes empty_int_tensor;
                 call_tp_forward up edge_attrs viewed (int_ e0) (int_ e1)
                   first_occurences;
                 call_linear message].
Proof.
  unfold invariant_residual_interaction_forward, tp_calculate_first_occurences,
    tp_forward_call.
  unfold se_bind, se_lift, invoke, se_ret, se_raise. intros Hrun.
  repeat case_match; simplify_eq.
  do 12 eexists. split_and!; try done.
  rewrite <- !app_assoc. done.
Qed.

Lemma standard_forward_inv (h : @Heap F) (self : InteractionBlock)
    node_attrs node_feats edge_attrs edge_feats edge_index tr msg sc tr' :
  invariant_interaction_forward h self
    node_attrs node_feats edge_attrs edge_feats edge_index tr
  = (Ok (msg, sc), tr') →
  ∃ e0 e1 num_nodes up tp_weights first_occurences d0 d2 viewed message lin,
    select0 0 edge_index = Ok e0 ∧ select0 1 edge_index = Ok e1 ∧
    shape_first (t_shape node_feats) = Ok num_nodes ∧
    call_linear_module h (linear_up self) node_feats = Ok up ∧
    conv_tp_weights_forward h (conv_tp_weights self) edge_feats = Ok tp_weights ∧
    tp self = InvariantMessagePassingTP ∧
    calculate_first_occurences (int_ e1) num_nodes empty_int_tensor
    = Ok first_occurences ∧
    shape_first (t_shape tp_weights) = Ok d0 ∧
    shape_last (t_shape up) = Ok d2 ∧
    view_infer_mid d0 d2 tp_weights = Ok viewed ∧
    tp_forward up edge_attrs viewed (int_ e0) (int_ e1) first_occurences
    = Ok message ∧
    call_linear_module h (linear self) message = Ok lin ∧
    msg = tdiv lin (avg_num_neighbors self) ∧
    sc = None ∧
    tr' = tr ++ [call_linear_up node_feats;
                 call_conv_tp_weights edge_feats;
                 call_calculate_first_occurences (int_ e1) num_nodes empty_int_tensor;
                 call_tp_forward up edge_attrs viewed (int_ e0) (int_ e1)
                   first_occurences;
                 call_linear message].
Proof.
  unfold invariant_interaction_forward, tp_calculate_first_occurences,
    tp_forward_call.
  unfold se_bind, se_lift, invoke, se_ret, se_raise. intros Hrun.
  repeat case_match; simplify_eq.
  do 11 eexists. split_and!; try done.
  rewrite <- !app_assoc. done.
Qed.



(** *** The contraction wrapper *)

Lemma squeeze_shape_no_one shape : 1 ∉ squeeze_shape shape.
Proof. unfold squeeze_shape. intros [Hne _]%list_elem_of_filter. by apply Hne. Qed.

Lemma argmax_from_bound (l : list F) best_i best i :
  best_i < i → argmax_from best_i best i l < i + length l.
Proof.
  revert best_i best i. induction l as [|x l IH]; intros bi b i Hi; simpl; [lia|].
  destruct (fgtb x b).
  - specialize (IH i x (S i)). lia.
  - specialize (IH bi b (S i)). lia.
Qed.

Lemma argmax_row_bound (l : list F) : l ≠ [] → argmax_row l < length l.
Proof.
  destruct l as [|x l]; [done|]. intros _. simpl.
  pose proof (argmax_from_bound l 0 x 1). lia.
Qed.

Lemma argmax_last_Ok (y : tensor F) lead k :
  t_shape y = lead ++ [k] → k ≠ 0 →
  argmax_last y
  = Ok (Tensor int64 lead
          (map (λ r, Z.of_nat (argmax_row (row_of k r (t_data y))))
               (seq 0 (numel lead)))).
Proof.
  intros Hs Hk. unfold argmax_last. rewrite Hs, last_snoc.
  rewrite decide_False by done. by rewrite removelast_last.
Qed.

(** C2 (amended): for every pair [(x, y)], a call of the wrapper's forward
    that returns has taken the arg-max of [y] over its last axis, cast it
    to 32-bit integers, called the contraction kernel on [x] and that
    selector, and returned the kernel's result with every dimension of size
    one removed, the elements unchanged.  Whenever the last axis of [y] is
    not empty the kernel is called, on a selector with one index per
    leading position of [y], and the outcome of the forward is the
    kernel's: its result squeezed, or the exception it raises. *)
Theorem wrapper_forward_argmax_kernel_squeeze (h : @Heap F)
    (self : SymmetricContractionWrapper) (x y : tensor F) :
  (∀ out, SymmetricContractionWrapper_forward h self x y = Ok out →
     ∃ y_idx k,
       argmax_last y = Ok y_idx ∧
       cuda_contraction_forward h (symmetric_contractions self) x (int_ y_idx)
       = Ok k ∧
       t_dtype (int_ y_idx) = int32
       ∧ out = squeeze k
       ∧ t_shape out = filter (λ d, d ≠ 1) (t_shape k)
       ∧ (1 ∉ t_shape out)
       ∧ t_data out = t_data k) ∧
  (∀ lead k, t_shape y = lead ++ [k] → k ≠ 0 →
     ∃ sel,
       SymmetricContractionWrapper_forward h self x y
       = match cuda_contraction_forward h (symmetric_contractions self) x sel with
         | Ok out => Ok (squeeze out)
         | Raise e => Raise e
         end
       ∧ t_dtype sel = int32
       ∧ t_shape sel = lead
       ∧ t_data sel
         = map (λ r, wrap32 (Z.of_nat (argmax_row (row_of k r (t_data y)))))
               (seq 0 (numel lead))).
Proof.
  split.
  - unfold SymmetricContractionWrapper_forward. intros out Hrun.
    destruct (argmax_last y) as [y_idx|] eqn:Hy; [|done]. simpl in Hrun.
    destruct (cuda_contraction_forward h (symmetric_contractions self) x
                (int_ y_idx)) as [k|] eqn:Hk; [|done]. simpl in Hrun.
    injection Hrun as <-. exists y_idx, k. split; [done|]. split; [done|].
    simpl. split_and!; try done. apply squeeze_shape_no_one.
  - intros lead k Hs Hk. unfold SymmetricContractionWrapper_forward.
    rewrite (argmax_last_Ok y lead k Hs Hk). simpl.
    eexists. split; [reflexivity|]. simpl. split_and!; try done.
    by rewrite map_map.
Qed.

(** C10: a dimension of size one of the kernel's result is removed by the
    wrapper wherever it stands.  In particular, when the first (node)
    dimension is one the result loses it, so a single-node batch gives a
    result of rank one less than a batch of several nodes with the same
    trailing dimensions. *)
Theorem wrapper_forward_drops_every_singleton (h : @Heap F)
    (self : SymmetricContractionWrapper) (x y out : tensor F) :
  SymmetricContractionWrapper_forward h self x y = Ok out →
  ∃ y_idx k,
    argmax_last y = Ok y_idx ∧
    cuda_contraction_forward h (symmetric_contractions self) x (int_ y_idx)
    = Ok k ∧
    (∀ i, t_shape k !! i = Some 1 → length (t_shape out) < length (t_shape k)) ∧
    (∀ rest, t_shape k = 1 :: rest →
       t_shape out = squeeze_shape rest
       ∧ length (t_shape out) < length (t_shape k)) ∧
    (∀ n rest, t_shape k = n :: rest → n ≠ 1 →
       t_shape out = n :: squeeze_shape rest
       ∧ length (t_shape out) = S (length (squeeze_shape rest))).
Proof.
  unfold SymmetricContractionWrapper_forward. intros Hrun.
  destruct (argmax_last y) as [y_idx|] eqn:Hy; [|done]. simpl in Hrun.
  destruct (cuda_contraction_forward h (symmetric_contractions self) x
              (int_ y_idx)) as [k|] eqn:Hk; [|done]. simpl in Hrun.
  injection Hrun as <-. exists y_idx, k. split; [done|]. split; [done|]. simpl.
  split; [|split].
  - intros i Hi. eapply (length_filter_lt (λ d, d ≠ 1)); [done|]. naive_solver.
  - intros rest ->. unfold squeeze_shape. rewrite filter_cons.
    rewrite decide_False by naive_solver. split; [done|].
    pose proof (length_filter (λ d, d ≠ 1) rest). simpl. lia.
  - intros n rest -> Hn. unfold squeeze_shape. rewrite filter_cons.
    by rewrite decide_True.
Qed.

End ForwardFacts.

Section HeapFacts.
Context {F : Type} `{Scalar F}.

Lemma heap_grows_refl (h : @Heap F) : heap_grows h h.
Proof. by split. Qed.

Lemma heap_grows_trans (h1 h2 h3 : @Heap F) :
  heap_grows h1 h2 → heap_grows h2 h3 → heap_grows h1 h3.
Proof. intros [] []. split; by etrans. Qed.

Lemma heap_grows_obj (h h' : @Heap F) p o :
  heap_grows h h' → objs h !! p = Some o → objs h' !! p = Some o.
Proof. intros [Ho _] Hp. by eapply prefix_lookup_Some. Qed.

Lemma heap_grows_storage (h h' : @Heap F) s d :
  heap_grows h h' → stor h !! s = Some d → stor h' !! s = Some d.
Proof. intros [_ Hs] Hp. by eapply prefix_lookup_Some. Qed.

Lemma heap_grows_value (h h' : @Heap F) p t :
  heap_grows h h' → tensor_value h p = Some t → tensor_value h' p = Some t.
Proof.
  intros Hg. unfold tensor_value. intros Hv.
  destruct (objs h !! p) as [o|] eqn:Ho; [|done]. simpl in Hv.
  destruct (stor h !! o_storage o) as [d|] eqn:Hd; [|done].
    rewrite (heap_grows_obj _ _ _ _ Hg Ho). simpl.
  by rewrite (heap_grows_storage _ _ _ _ Hg Hd).
Qed.

(** *** Computations that only allocate *)

Lemma grows_ret {A} (a : A) : grows (se_ret (S := @Heap F) a).
Proof. intros h. apply heap_grows_refl. Qed.

Lemma grows_raise {A} e : grows (se_raise (S := @Heap F) (A := A) e).
Proof. intros h. apply heap_grows_refl. Qed.

Lemma grows_bind {A B} (m : SE (@Heap F) A) (k : A → SE (@Heap F) B) :
  grows m → (∀ a, grows (k a)) → grows (se_bind m k).
Proof.
  intros Hm Hk h. unfold se_bind. specialize (Hm h).
  destruct (m h) as [[a|e] h1]; simpl in *; [|done].
  eapply heap_grows_trans; [done|]. apply Hk.
Qed.

Lemma grows_of_option {A} (o : option A) : grows (of_option (F := F) o).
Proof. intros h. unfold of_option. destruct o; apply heap_grows_refl. Qed.

Lemma grows_get_obj o : grows (get_obj (F := F) o).
Proof. intros h. unfold get_obj. apply grows_of_option. Qed.

Lemma grows_get_storage s : grows (get_storage (F := F) s).
Proof. intros h. unfold get_storage. apply grows_of_option. Qed.

Lemma grows_get_model k : grows (get_model (F := F) k).
Proof. intros h. unfold get_model. apply grows_of_option. Qed.

Lemma grows_alloc_obj t : grows (alloc_obj (F := F) t).
Proof. intros h. split; simpl; [by apply prefix_app_r | done]. Qed.

Lemma grows_alloc_storage (d : list F) : grows (alloc_storage d).
Proof. intros h. split; simpl; [done | by apply prefix_app_r]. Qed.

Lemma grows_list_index {A} (l : list A) i : grows (list_index (F := F) l i).
Proof. unfold list_index. destruct (l !! i); [apply grows_ret | apply grows_raise]. Qed.

Lemma grows_for {A} (xs : list A) (body : A → SE (@Heap F) unit) :
  (∀ x, grows (body x)) → grows (se_for xs body).
Proof.
  intros Hb. induction xs as [|x xs IH]; simpl; [apply grows_ret|].
  apply grows_bind; [apply Hb | by intros _].
Qed.

Lemma grows_fold {A B} (xs : list A) (body : B → A → SE (@Heap F) B) acc :
  (∀ b x, grows (body b x)) → grows (se_fold xs body acc).
Proof.
  intros Hb. revert acc. induction xs as [|x xs IH]; intros acc; simpl;
    [apply grows_ret|].
  apply grows_bind; [apply Hb | done].
Qed.

End HeapFacts.

Create HintDb grows discriminated.
#[export] Hint Resolve grows_ret grows_raise grows_get_obj grows_get_storage
  grows_get_model grows_alloc_obj grows_alloc_storage grows_list_index : grows.

(** Goes through the binds of a computation and closes the leaves with the
    [grows] hints, splitting on the conditionals and matches it meets. *)
Ltac solve_grows :=
  repeat first
    [ progress eauto with grows
    | apply grows_bind; [|intros ?]
    | apply grows_for; intros ?
    | apply grows_fold; intros ? ?
    | case_match ].

Section OptimizeFacts.
Context {F : Type} `{Scalar F}.

(** *** Computations on tensors alone *)

Lemma tensor_op_ret {A} (a : A) : tensor_op (se_ret (S := @Heap F) a).
Proof. done. Qed.

Lemma tensor_op_raise {A} e : tensor_op (se_raise (S := @Heap F) (A := A) e).
Proof. done. Qed.

Lemma tensor_op_bind {A B} (m : SE (@Heap F) A) (k : A → SE (@Heap F) B) :
  tensor_op m → (∀ a, tensor_op (k a)) → tensor_op (se_bind m k).
Proof.
  intros Hm Hk h ms. unfold se_bind. rewrite Hm.
  destruct (m h) as [[a|e] h1]; simpl; [apply Hk | done].
Qed.

Lemma tensor_op_get_obj o : tensor_op (get_obj (F := F) o).
Proof. intros h ms. unfold get_obj, of_option. simpl. by destruct (objs h !! o). Qed.

Lemma tensor_op_get_storage s : tensor_op (get_storage (F := F) s).
Proof. intros h ms. unfold get_storage, of_option. simpl. by destruct (stor h !! s). Qed.

Lemma tensor_op_alloc_obj t : tensor_op (alloc_obj (F := F) t).
Proof. done. Qed.

Lemma tensor_op_alloc_storage (d : list F) : tensor_op (alloc_storage d).
Proof. done. Qed.

Lemma tensor_op_list_index {A} (l : list A) i : tensor_op (list_index (F := F) l i).
Proof. unfold list_index. by destruct (l !! i). Qed.

Lemma tensor_op_fold {A B} (xs : list A) (body : B → A → SE (@Heap F) B) acc :
  (∀ b x, tensor_op (body b x)) → tensor_op (se_fold xs body acc).
Proof.
  intros Hb. revert acc. induction xs as [|x xs IH]; intros acc; simpl; [done|].
  apply tensor_op_bind; [apply Hb | done].
Qed.

Lemma tensor_op_models {A} (m : SE (@Heap F) A) h :
  tensor_op m → models (m h).2 = models h.
Proof.
  intros Hm. specialize (Hm h (models h)).
  replace (set_models h (models h)) with h in Hm by by destruct h.
  destruct (m h) as [r h1]. simpl in *. by injection Hm as ->.
Qed.

End OptimizeFacts.

Create HintDb tensor_op discriminated.
#[export] Hint Resolve tensor_op_ret tensor_op_raise tensor_op_get_obj
  tensor_op_get_storage tensor_op_alloc_obj tensor_op_alloc_storage
  tensor_op_list_index : tensor_op.

Ltac solve_tensor_op :=
  repeat first
    [ progress eauto with tensor_op
    | apply tensor_op_bind; [|intros ?]
    | apply tensor_op_fold; intros ? ?
    | case_match ].

Section RewriteFacts.
Context {F : Type} `{Scalar F}.

Lemma grows_detach o : grows (detach (F := F) o).
Proof. unfold detach. solve_grows. Qed.
Lemma grows_clone o : grows (clone (F := F) o).
Proof. unfold clone. solve_grows. Qed.
Lemma grows_type_ dt o : grows (type_ (F := F) dt o).
Proof. unfold type_. solve_grows. Qed.
Lemma grows_reshape shape o : grows (reshape (F := F) shape o).
Proof. unfold reshape. solve_grows. Qed.
Lemma grows_div_scalar (s : F) o : grows (div_scalar s o).
Proof. unfold div_scalar. solve_grows. Qed.

Lemma tensor_op_detach o : tensor_op (detach (F := F) o).
Proof. unfold detach. solve_tensor_op. Qed.
Lemma tensor_op_clone o : tensor_op (clone (F := F) o).
Proof. unfold clone. solve_tensor_op. Qed.
Lemma tensor_op_type_ dt o : tensor_op (type_ (F := F) dt o).
Proof. unfold type_. solve_tensor_op. Qed.
Lemma tensor_op_reshape shape o : tensor_op (reshape (F := F) shape o).
Proof. unfold reshape. solve_tensor_op. Qed.
Lemma tensor_op_div_scalar (s : F) o : tensor_op (div_scalar s o).
Proof. unfold div_scalar. solve_tensor_op. Qed.

Local Hint Resolve grows_detach grows_clone grows_type_ grows_reshape
  grows_div_scalar : grows.
Local Hint Resolve tensor_op_detach tensor_op_clone tensor_op_type_
  tensor_op_reshape tensor_op_div_scalar : tensor_op.

Lemma grows_linear_matmul_init lin : grows (linear_matmul_init (F := F) lin).
Proof. unfold linear_matmul_init, data_. solve_grows. Qed.
Lemma tensor_op_linear_matmul_init lin :
  tensor_op (linear_matmul_init (F := F) lin).
Proof. unfold linear_matmul_init, data_. solve_tensor_op. Qed.

Lemma grows_linear_to_cuda lin : grows (linear_to_cuda (F := F) lin).
Proof. unfold linear_to_cuda. solve_grows. Qed.
Lemma tensor_op_linear_to_cuda lin : tensor_op (linear_to_cuda (F := F) lin).
Proof. unfold linear_to_cuda. solve_tensor_op. Qed.

Lemma grows_dict_set2 d k1 k2 v : grows (dict_set2 (F := F) d k1 k2 v).
Proof. unfold dict_set2. solve_grows. Qed.
Lemma tensor_op_dict_set2 d k1 k2 v : tensor_op (dict_set2 (F := F) d k1 k2 v).
Proof. unfold dict_set2. solve_tensor_op. Qed.

Lemma grows_detach_clone_type dt w : grows (detach_clone_type (F := F) dt w).
Proof. unfold detach_clone_type. solve_grows. Qed.
Lemma tensor_op_detach_clone_type dt w :
  tensor_op (detach_clone_type (F := F) dt w).
Proof. unfold detach_clone_type. solve_tensor_op. Qed.

Local Hint Resolve grows_linear_matmul_init grows_linear_to_cuda
  grows_dict_set2 grows_detach_clone_type : grows.
Local Hint Resolve tensor_op_linear_matmul_init tensor_op_linear_to_cuda
  tensor_op_dict_set2 tensor_op_detach_clone_type : tensor_op.

Lemma grows_extract_contraction_weights dt cs aw j :
  grows (extract_contraction_weights (F := F) dt cs aw j).
Proof. unfold extract_contraction_weights. solve_grows. Qed.
Lemma tensor_op_extract_contraction_weights dt cs aw j :
  tensor_op (extract_contraction_weights (F := F) dt cs aw j).
Proof. unfold extract_contraction_weights. solve_tensor_op. Qed.

Lemma grows_extract_all_weights dt sc : grows (extract_all_weights (F := F) dt sc).
Proof.
  unfold extract_all_weights, contractions_of. solve_grows.
Qed.
Lemma tensor_op_extract_all_weights dt sc :
  tensor_op (extract_all_weights (F := F) dt sc).
Proof.
  unfold extract_all_weights, contractions_of. solve_tensor_op.
Qed.

End RewriteFacts.

Section LayerFacts.
Context {F : Type} `{Scalar F}.

Lemma alter_insert_lookup {A} (f : A → A) (l : list A) i x :
  l !! i = Some x → alter f i l = <[i := f x]> l.
Proof.
  revert i. induction l as [|a l IH]; intros [|i] Hi; simplify_eq/=; [done|].
  f_equal. by apply IH.
Qed.

Lemma get_interaction_run model i (h : @Heap F) m blk :
  models h !! model = Some m → interactions m !! i = Some blk →
  get_interaction model i h = (Ok blk, h).
Proof.
  intros Hm Hb. unfold get_interaction.
  rewrite (se_bind_step _ _ _ _ _ (get_model_run _ _ _ Hm)).
  unfold list_index. by rewrite Hb.
Qed.

Lemma get_interaction_inv model i (h h' : @Heap F) blk :
  get_interaction model i h = (Ok blk, h') →
  h' = h ∧ ∃ m, models h !! model = Some m ∧ interactions m !! i = Some blk.
Proof.
  unfold get_interaction, get_model, of_option, list_index, se_bind, se_ret, se_raise.
  intros Hrun. repeat case_match; simplify_eq. eauto.
Qed.

Lemma get_product_run model i (h : @Heap F) m pb :
  models h !! model = Some m → products m !! i = Some pb →
  get_product model i h = (Ok pb, h).
Proof.
  intros Hm Hb. unfold get_product.
  rewrite (se_bind_step _ _ _ _ _ (get_model_run _ _ _ Hm)).
  unfold list_index. by rewrite Hb.
Qed.

Lemma get_product_inv model i (h h' : @Heap F) pb :
  get_product model i h = (Ok pb, h') →
  h' = h ∧ ∃ m, models h !! model = Some m ∧ products m !! i = Some pb.
Proof.
  unfold get_product, get_model, of_option, list_index, se_bind, se_ret, se_raise.
  intros Hrun. repeat case_match; simplify_eq. eauto.
Qed.

Lemma update_model_run model f (h : @Heap F) m :
  models h !! model = Some m →
  update_model model f h = (Ok (), set_models h (<[model := f m]> (models h))).
Proof.
  intros Hm. unfold update_model.
  by rewrite (se_bind_step _ _ _ _ _ (get_model_run _ _ _ Hm)).
Qed.

Lemma set_interaction_run model i f (h : @Heap F) m blk :
  models h !! model = Some m → interactions m !! i = Some blk →
  set_interaction model i f h
  = (Ok (), set_models h
       (<[model := set_interactions (<[i := f blk]> (interactions m)) m]>
          (models h))).
Proof.
  intros Hm Hb. unfold set_interaction.
  rewrite (se_bind_step _ _ _ _ _ (get_interaction_run _ _ _ _ _ Hm Hb)).
  rewrite (update_model_run _ _ _ _ Hm).
  by rewrite (alter_insert_lookup _ _ _ _ Hb).
Qed.

Lemma set_product_run model i f (h : @Heap F) m pb :
  models h !! model = Some m → products m !! i = Some pb →
  set_product model i f h
  = (Ok (), set_models h
       (<[model := set_products (<[i := f pb]> (products m)) m]> (models h))).
Proof.
  intros Hm Hb. unfold set_product.
  rewrite (se_bind_step _ _ _ _ _ (get_product_run _ _ _ _ _ Hm Hb)).
  rewrite (update_model_run _ _ _ _ Hm).
  by rewrite (alter_insert_lookup _ _ _ _ Hb).
Qed.

(** Running a tensor computation in a heap whose models were replaced. *)
Lemma tensor_op_run {A} (m : SE (@Heap F) A) h ms r h1 :
  tensor_op m → m h = (r, h1) → m (set_models h ms) = (r, set_models h1 ms).
Proof. intros Hm Hrun. rewrite Hm. by rewrite Hrun. Qed.

Lemma lookup_insert_same {A} (l : list A) i x y :
  l !! i = Some x → <[i := y]> l !! i = Some y.
Proof. intros Hl. apply list_lookup_insert_eq. by eapply lookup_lt_Some. Qed.

Lemma set_interaction_step model i f (hT : @Heap F) ms m blk :
  ms !! model = Some m → interactions m !! i = Some blk →
  set_interaction model i f (set_models hT ms)
  = (Ok (), set_models hT
       (<[model := set_interactions (<[i := f blk]> (interactions m)) m]> ms)).
Proof. intros Hm Hb. by rewrite (set_interaction_run model i f _ m blk). Qed.

Lemma set_product_step model i f (hT : @Heap F) ms m pb :
  ms !! model = Some m → products m !! i = Some pb →
  set_product model i f (set_models hT ms)
  = (Ok (), set_models hT
       (<[model := set_products (<[i := f pb]> (products m)) m]> ms)).
Proof. intros Hm Hb. by rewrite (set_product_run model i f _ m pb). Qed.

Lemma get_interaction_step model i (hT : @Heap F) ms m blk :
  ms !! model = Some m → interactions m !! i = Some blk →
  get_interaction model i (set_models hT ms) = (Ok blk, set_models hT ms).
Proof. intros Hm Hb. by apply (get_interaction_run model i _ m blk). Qed.

Lemma get_product_step model i (hT : @Heap F) ms m pb :
  ms !! model = Some m → products m !! i = Some pb →
  get_product model i (set_models hT ms) = (Ok pb, set_models hT ms).
Proof. intros Hm Hb. by apply (get_product_run model i _ m pb). Qed.

Lemma optimize_layer_Ok model dtype i (h h' : @Heap F) :
  optimize_layer model dtype i h = (Ok (), h') →
  ∃ m blk pb blk' pb' h3,
    models h !! model = Some m ∧
    interactions m !! i = Some blk ∧ products m !! i = Some pb ∧
    layer_rewritten dtype h h3 blk pb blk' pb' ∧
    h' = set_models h3
           (<[model := set_products (<[i := pb']> (products m))
                         (set_interactions (<[i := blk']> (interactions m)) m)]>
              (models h)).
Proof.
  unfold optimize_layer. intros Hrun.
  apply se_bind_Ok in Hrun as (blk & h0 & Hget & Hrun).
  apply get_interaction_inv in Hget as (-> & m & Hm & Hblk).
  replace h with (set_models h (models h)) in Hrun by by destruct h.
  set (ms := models h) in *.
  (* linear_up *)
  destruct (linear_matmul_init (linear_up blk) h) as [[lu|?] h1] eqn:Hlu.
  2:{ by rewrite (se_bind_raise _ _ _ _ _ (tensor_op_run _ _ ms _ _
        (tensor_op_linear_matmul_init _) Hlu)) in Hrun. }
  rewrite (se_bind_step _ _ _ _ _ (tensor_op_run _ _ ms _ _
        (tensor_op_linear_matmul_init _) Hlu)) in Hrun.
  rewrite (se_bind_step _ _ _ _ _
             (set_interaction_step model i _ h1 ms m blk Hm Hblk)) in Hrun.
  (* linear *)
  set (m1 := set_interactions _ m) in Hrun.
  assert (Hm1 : <[model := m1]> ms !! model = Some m1)
    by by eapply lookup_insert_same.
  assert (Hblk1 : interactions m1 !! i = Some (set_linear_up (LinMatmul lu) blk))
    by by eapply lookup_insert_same.
  rewrite (se_bind_step _ _ _ _ _
             (get_interaction_step model i h1 _ m1 _ Hm1 Hblk1)) in Hrun.
  simpl linear in Hrun.
  destruct (linear blk) as [l_lin| |] eqn:Hlin; [|done..].
  unfold linear_to_cuda in Hrun. rewrite se_bind_step with (s1 := set_models h1 (<[model := m1]> ms)) (a := {| cl_irreps_in := irreps_in l_lin;
                             cl_irreps_out := irreps_out l_lin;
                             cl_instructions := instructions l_lin;
                             cl_weight := weight l_lin |}) in Hrun by done.
  rewrite (se_bind_step _ _ _ _ _
             (set_interaction_step model i _ h1 _ m1 _ Hm1 Hblk1)) in Hrun.
  rewrite list_insert_insert_eq in Hrun.
  (* tp *)
  set (m2 := set_interactions _ m1) in Hrun.
  assert (Hm2 : <[model := m2]> ms !! model = Some m2)
    by by eapply lookup_insert_same.
  assert (Hblk2 : interactions m2 !! i
            = Some (set_linear (LinCuda {| cl_irreps_in := irreps_in l_lin;
                             cl_irreps_out := irreps_out l_lin;
                             cl_instructions := instructions l_lin;
                             cl_weight := weight l_lin |})
                      (set_linear_up (LinMatmul lu) blk)))
    by by eapply lookup_insert_same.
  rewrite (se_bind_step _ _ _ _ _
             (set_interaction_step model i _ h1 _ m2 _ Hm2 Hblk2)) in Hrun.
  rewrite list_insert_insert_eq in Hrun.
  (* forward *)
  set (m3 := set_interactions _ m2) in Hrun.
  assert (Hm3 : <[model := m3]> ms !! model = Some m3)
    by by eapply lookup_insert_same.
  pose proof (lookup_insert_same _ _ _
                (set_tp InvariantMessagePassingTP
                   (set_linear (LinCuda {| cl_irreps_in := irreps_in l_lin;
                             cl_irreps_out := irreps_out l_lin;
                             cl_instructions := instructions l_lin;
                             cl_weight := weight l_lin |})
                      (set_linear_up (LinMatmul lu) blk))) Hblk2) as Hblk3.
  change (<[i := _]> (interactions m2)) with (interactions m3) in Hblk3.
  rewrite (se_bind_step _ _ _ _ _
             (get_interaction_step model i h1 _ m3 _ Hm3 Hblk3)) in Hrun.
  simpl class_name in Hrun.
  set (fw := if str_contains "Residual" (class_name blk)
             then bound_invariant_residual_interaction_forward
             else bound_invariant_interaction_forward).
  assert (Hfw : (if str_contains "Residual" (class_name blk)
                 then set_interaction (F := F) model i
                        (set_forward bound_invariant_residual_interaction_forward)
                 else set_interaction model i
                        (set_forward bound_invariant_interaction_forward))
                = set_interaction model i (set_forward fw))
    by (unfold fw; by destruct (str_contains _ _)).
  rewrite Hfw in Hrun. clear Hfw.
  rewrite (se_bind_step _ _ _ _ _
             (set_interaction_step model i _ h1 _ m3 _ Hm3 Hblk3)) in Hrun.
  rewrite list_insert_insert_eq in Hrun.
  set (blk' := set_forward fw _) in Hrun.
  set (m4 := set_interactions _ m3) in Hrun.
  assert (Hm4 : <[model := m4]> ms !! model = Some m4)
    by by eapply lookup_insert_same.
  (* products *)
  apply se_bind_Ok in Hrun as (pb & h0 & Hget & Hrun).
  apply get_product_inv in Hget as (-> & m4' & Hm4' & Hpb).
  simpl in Hm4'. rewrite Hm4 in Hm4'. injection Hm4' as <-.
  change (products m4) with (products m) in Hpb.
  destruct (extract_all_weights dtype (pb_symmetric_contractions pb) h1)
    as [[aw|?] h2] eqn:Haw.
  2:{ by rewrite (se_bind_raise _ _ _ _ _ (tensor_op_run _ _ _ _ _
        (tensor_op_extract_all_weights _ _) Haw)) in Hrun. }
  rewrite (se_bind_step _ _ _ _ _ (tensor_op_run _ _ _ _ _
        (tensor_op_extract_all_weights _ _) Haw)) in Hrun.
  rewrite (se_bind_step _ _ _ _ _
             (get_product_step model i h2 _ m4 pb Hm4 Hpb)) in Hrun.
  destruct (pb_symmetric_contractions pb) as [e|] eqn:He; [|done].
  rewrite (se_bind_step _ _ _ _ _
             (set_product_step model i _ h2 _ m4 pb Hm4 Hpb)) in Hrun.
  rewrite list_insert_insert_eq in Hrun.
  set (m5 := set_products _ m4) in Hrun.
  assert (Hm5 : <[model := m5]> ms !! model = Some m5)
    by by eapply lookup_insert_same.
  pose proof (lookup_insert_same _ _ _
    (set_pb_symmetric_contractions
       (SymWrapper {| symmetric_contractions :=
          {| cc_coupling_irreps := coupling_of (sc_irreps_in e);
             cc_irreps_out := sc_irreps_out e;
             cc_all_weights := aw;
             nthreadX := 32; nthreadY := 4; nthreadZ := 1;
             cc_dtype := dtype |} |}) pb) Hpb) as Hpb5.
  change (<[i := _]> (products m)) with (products m5) in Hpb5.
  rewrite (se_bind_step _ _ _ _ _
             (get_product_step model i h2 _ m5 _ Hm5 Hpb5)) in Hrun.
  simpl pb_linear in Hrun.
  destruct (linear_matmul_init (pb_linear pb) h2) as [[pl|?] h3] eqn:Hpl.
  2:{ by rewrite (se_bind_raise _ _ _ _ _ (tensor_op_run _ _ _ _ _
        (tensor_op_linear_matmul_init _) Hpl)) in Hrun. }
  rewrite (se_bind_step _ _ _ _ _ (tensor_op_run _ _ _ _ _
        (tensor_op_linear_matmul_init _) Hpl)) in Hrun.
  rewrite (set_product_step model i _ h3 _ m5 _ Hm5 Hpb5) in Hrun.
  rewrite list_insert_insert_eq in Hrun.
  injection Hrun as <-.
  exists m, blk, pb, blk'. eexists. exists h3.
  split_and!; try done.
  - exists e, l_lin, lu, aw, pl, h1, h2. split_and!; done.
  - unfold m5, m4, m3, m2, m1. simpl. unfold set_products, set_interactions. simpl.
    by rewrite !list_insert_insert_eq.
Qed.

(** *** Extraction of the contraction weights *)

Lemma detach_clone_type_Ok dtype src (h h' : @Heap F) w :
  detach_clone_type dtype src h = (Ok w, h') →
  ∃ o d o',
    objs h !! src = Some o ∧ stor h !! o_storage o = Some d ∧
    heap_grows h h' ∧
    length (objs h) ≤ w ∧
    objs h' !! w = Some o' ∧
    length (stor h) ≤ o_storage o' ∧
    requires_grad o' = false ∧
    tensor_value h' w = Some (tcast dtype (Tensor (o_dtype o) (o_shape o) d)).
Proof.
  intros Hrun.
  pose proof (grows_detach_clone_type dtype src h) as Hg. rewrite Hrun in Hg.
  unfold detach_clone_type in Hrun.
  apply se_bind_Ok in Hrun as (a & ha & Hd & Hrun).
  destruct (objs h !! src) as [o|] eqn:Ho.
  2:{ unfold detach, se_bind, get_obj, of_option in Hd. by rewrite Ho in Hd. }
  rewrite (detach_run h src o Ho) in Hd. injection Hd as <- <-.
  apply se_bind_Ok in Hrun as (b & hb & Hc & Hrun).
  set (od := {| o_storage := o_storage o; o_dtype := o_dtype o;
                o_shape := o_shape o; requires_grad := false |}) in *.
  assert (Hod : objs (set_objs h (objs h ++ [od])) !! length (objs h) = Some od)
    by apply lookup_snoc.
  destruct (stor h !! o_storage o) as [d|] eqn:Hsd.
  2:{ unfold clone, se_bind in Hc. rewrite (get_obj_run _ _ _ Hod) in Hc.
      unfold get_storage, of_option in Hc. simpl in Hc. by rewrite Hsd in Hc. }
  rewrite (clone_run _ _ od d Hod Hsd) in Hc. injection Hc as <- <-.
  set (oc := {| o_storage := length (stor h); o_dtype := o_dtype o;
                o_shape := o_shape o; requires_grad := false |}).
  match type of Hrun with type_ _ _ ?hh = _ => set (hc := hh) in * end.
  assert (Hoc : objs hc !! length (objs h ++ [od]) = Some oc)
    by apply lookup_snoc.
  assert (Hsc : stor hc !! o_storage oc = Some d) by apply lookup_snoc.
  rewrite (type_run hc dtype _ oc d Hoc Hsc) in Hrun.
  exists o, d. unfold tcast. simpl t_dtype. simpl o_dtype in Hrun.
  destruct (decide (o_dtype o = dtype)) as [Hdt|Hdt].
  - injection Hrun as <- <-. exists oc. split_and!; try done.
    + simpl. rewrite length_app. lia.
    + unfold tensor_value. rewrite Hoc. simpl. by rewrite lookup_snoc.
  - injection Hrun as <- <-. eexists. split_and!; try done.
    + simpl. rewrite !length_app. lia.
    + simpl. apply lookup_snoc.
    + simpl. rewrite length_app. lia.
    + done.
    + unfold tensor_value. simpl. rewrite lookup_snoc. simpl.
      by rewrite lookup_snoc.
Qed.

Lemma list_index_Ok {A} (l : list A) i (h h' : @Heap F) a :
  list_index l i h = (Ok a, h') → h' = h ∧ l !! i = Some a.
Proof.
  unfold list_index, se_ret, se_raise. destruct (l !! i); intros; by simplify_eq.
Qed.

Lemma dict_set2_insert (d : gmap string (gmap nat nat)) k inner k2 v (h : @Heap F) :
  dict_set2 (<[k := inner]> d) k k2 v h = (Ok (<[k := <[k2 := v]> inner]> d), h).
Proof.
  unfold dict_set2. rewrite lookup_insert_eq. by rewrite insert_insert_eq.
Qed.

Lemma extract_contraction_weights_Ok dtype cs aw j (h h' : @Heap F) aw' :
  extract_contraction_weights dtype cs aw j h = (Ok aw', h') →
  ∃ c p0 p1 w3 w2 w1 ha hb,
    cs !! j = Some c ∧ weights c !! 0 = Some p0 ∧ weights c !! 1 = Some p1 ∧
    detach_clone_type dtype (weights_max c) h = (Ok w3, ha) ∧
    detach_clone_type dtype p0 ha = (Ok w2, hb) ∧
    detach_clone_type dtype p1 hb = (Ok w1, h') ∧
    aw' = <[pretty j := <[1 := w1]> (<[2 := w2]> (<[3 := w3]> ∅))]> aw.
Proof.
  unfold extract_contraction_weights. intros Hrun.
  apply se_bind_Ok in Hrun as (c & ? & [-> Hc]%list_index_Ok & Hrun).
  apply se_bind_Ok in Hrun as (w3 & ha & Hw3 & Hrun).
  rewrite (se_bind_step _ _ _ _ _ (dict_set2_insert _ _ _ _ _ _)) in Hrun.
  apply se_bind_Ok in Hrun as (c' & ? & [-> Hc']%list_index_Ok & Hrun).
  rewrite Hc in Hc'. injection Hc' as <-.
  apply se_bind_Ok in Hrun as (p0 & ? & [-> Hp0]%list_index_Ok & Hrun).
  apply se_bind_Ok in Hrun as (w2 & hb & Hw2 & Hrun).
  rewrite (se_bind_step _ _ _ _ _ (dict_set2_insert _ _ _ _ _ _)) in Hrun.
  apply se_bind_Ok in Hrun as (c' & ? & [-> Hc']%list_index_Ok & Hrun).
  rewrite Hc in Hc'. injection Hc' as <-.
  apply se_bind_Ok in Hrun as (p1 & ? & [-> Hp1]%list_index_Ok & Hrun).
  apply se_bind_Ok in Hrun as (w1 & hc & Hw1 & Hrun).
  rewrite dict_set2_insert in Hrun. injection Hrun as <- <-.
  by exists c, p0, p1, w3, w2, w1, ha, hb.
Qed.

(** The dictionary built by the loop over [j], for any list of distinct
    indices: every visited index has its three entries, made in a heap
    between the initial and the final one. *)
Lemma extract_fold_Ok dtype cs (js : list nat) aw (h h' : @Heap F) aw' :
  NoDup js →
  se_fold js (extract_contraction_weights dtype cs) aw h = (Ok aw', h') →
  heap_grows h h' ∧
  (∀ k, k ∉ (pretty <$> js) → aw' !! k = aw !! k) ∧
  ∀ j, j ∈ js →
    ∃ c p0 p1 w3 w2 w1 h0 ha hb hc,
      cs !! j = Some c ∧ weights c !! 0 = Some p0 ∧ weights c !! 1 = Some p1 ∧
      heap_grows h h0 ∧ heap_grows hc h' ∧
      detach_clone_type dtype (weights_max c) h0 = (Ok w3, ha) ∧
      detach_clone_type dtype p0 ha = (Ok w2, hb) ∧
      detach_clone_type dtype p1 hb = (Ok w1, hc) ∧
      aw' !! pretty j = Some (<[1 := w1]> (<[2 := w2]> (<[3 := w3]> ∅))).
Proof.
  intros Hnd. revert aw h. induction Hnd as [|j js Hj Hnd IH]; intros aw h Hrun.
  - simpl in Hrun. injection Hrun as <- <-.
    split; [apply heap_grows_refl|]. split; [done|]. intros j Hj. by apply elem_of_nil in Hj.
  - simpl in Hrun. apply se_bind_Ok in Hrun as (aw1 & h1 & Hbody & Hrun).
    pose proof (grows_extract_contraction_weights dtype cs aw j h) as Hg1.
    rewrite Hbody in Hg1. simpl in Hg1.
    apply IH in Hrun as (Hg & Hother & Hin).
    apply extract_contraction_weights_Ok in Hbody
      as (c & p0 & p1 & w3 & w2 & w1 & ha & hb & Hc & Hp0 & Hp1 & H3 & H2 & H1 & ->).
    split; [by eapply heap_grows_trans|]. split.
    + intros k Hk. rewrite fmap_cons, not_elem_of_cons in Hk. destruct Hk as [Hkj Hk].
      rewrite (Hother k Hk). by rewrite lookup_insert_ne.
    + intros j' [->|Hj']%elem_of_cons.
      * exists c, p0, p1, w3, w2, w1, h, ha, hb, h1.
        split_and!; try done; try apply heap_grows_refl.
        rewrite Hother; [apply lookup_insert_eq|].
        intros (j' & Heq & Hj')%list_elem_of_fmap.
        apply (inj pretty) in Heq. by subst.
      * destruct (Hin j' Hj')
          as (c' & p0' & p1' & w3' & w2' & w1' & h0 & ha' & hb' & hc' & ? & ? & ?
              & ? & ? & ? & ? & ? & ?).
        exists c', p0', p1', w3', w2', w1', h0, ha', hb', hc'.
        split_and!; try done. by eapply heap_grows_trans.
Qed.

Lemma heap_grows_lengths (h h' : @Heap F) :
  heap_grows h h' →
  length (objs h) ≤ length (objs h') ∧ length (stor h) ≤ length (stor h').
Proof. intros [Ho Hs]. split; by apply prefix_length. Qed.

Lemma detach_clone_type_detached dtype src (h h0 ha h' : @Heap F) w :
  heap_grows h h0 → heap_grows ha h' →
  detach_clone_type dtype src h0 = (Ok w, ha) →
  detached_clone dtype h h' src w.
Proof.
  intros Hg0 Hg' Hrun.
  apply detach_clone_type_Ok in Hrun
    as (o & d & o' & Ho & Hd & Hg & Hw & Ho' & Hs & Hrg & Hv).
  destruct (heap_grows_lengths _ _ Hg0). split.
  - intros t Ht. apply (heap_grows_value _ _ _ _ Hg0) in Ht.
    unfold tensor_value in Ht. rewrite Ho in Ht. simpl in Ht.
    rewrite Hd in Ht. injection Ht as <-.
    by apply (heap_grows_value _ _ _ _ Hg').
  - exists o'. split_and!; [by eapply heap_grows_obj | done | lia | lia].
Qed.

Lemma extract_all_weights_Ok dtype e (h h' : @Heap F) aw :
  extract_all_weights dtype (SymE3nn e) h = (Ok aw, h') →
  heap_grows h h' ∧
  ∀ j c, contractions e !! j = Some c →
    ∃ p0 p1 inner w3 w2 w1,
      weights c !! 0 = Some p0 ∧ weights c !! 1 = Some p1 ∧
      aw !! pretty j = Some inner ∧
      inner !! 3 = Some w3 ∧ inner !! 2 = Some w2 ∧ inner !! 1 = Some w1 ∧
      detached_clone dtype h h' (weights_max c) w3 ∧
      detached_clone dtype h h' p0 w2 ∧
      detached_clone dtype h h' p1 w1.
Proof.
  unfold extract_all_weights, contractions_of. intros Hrun.
  rewrite se_bind_step with (a := contractions e) (s1 := h) in Hrun by done.
  apply extract_fold_Ok in Hrun as (Hg & _ & Hin); [|apply NoDup_seq].
  split; [done|]. intros j c Hc.
  destruct (Hin j) as (c' & p0 & p1 & w3 & w2 & w1 & h0 & ha & hb & hc & Hc' & Hp0
                       & Hp1 & Hg0 & Hgc & H3 & H2 & H1 & Haw).
  { apply elem_of_seq. apply lookup_lt_Some in Hc. lia. }
  rewrite Hc in Hc'. injection Hc' as <-.
  pose proof (grows_detach_clone_type dtype (weights_max c) h0) as G3.
  rewrite H3 in G3. simpl in G3.
  pose proof (grows_detach_clone_type dtype p0 ha) as G2.
  rewrite H2 in G2. simpl in G2.
  pose proof (grows_detach_clone_type dtype p1 hb) as G1.
  rewrite H1 in G1. simpl in G1.
  exists p0, p1, (<[1 := w1]> (<[2 := w2]> (<[3 := w3]> ∅))), w3, w2, w1.
  split_and!; try done.
  - eapply detach_clone_type_detached; [exact Hg0 | | exact H3].
    eauto using heap_grows_trans.
  - eapply detach_clone_type_detached; [ | | exact H2];
      eauto using heap_grows_trans.
  - eapply detach_clone_type_detached; [ | | exact H1];
      eauto using heap_grows_trans.
Qed.

(** *** Freezing the parameters *)

Lemma set_requires_grad_run b p (h : @Heap F) t :
  objs h !! p = Some t →
  set_requires_grad b p h
  = (Ok (), set_objs h
       (<[p := {| o_storage := o_storage t; o_dtype := o_dtype t;
                  o_shape := o_shape t; requires_grad := b |}]> (objs h))).
Proof.
  intros Ht. unfold set_requires_grad.
  by rewrite (se_bind_step _ _ _ _ _ (get_obj_run _ _ _ Ht)).
Qed.

Lemma set_requires_grad_None b p (h : @Heap F) :
  objs h !! p = None → set_requires_grad b p h = (Raise DanglingReference, h).
Proof.
  intros Ht. unfold set_requires_grad, se_bind, get_obj, of_option. by rewrite Ht.
Qed.

(** The loop over the parameters changes nothing but [requires_grad]
    flags, never sets one, and, when every parameter is a tensor object of
    the heap, completes with all of them cleared. *)
Lemma freeze_spec ps (h : @Heap F) :
  let r := (se_for ps (set_requires_grad false) h).1 in
  let h1 := (se_for ps (set_requires_grad false) h).2 in
  stor h1 = stor h ∧ models h1 = models h ∧
  (∀ q, objs h !! q = None → objs h1 !! q = None) ∧
  (∀ q o, objs h !! q = Some o →
     ∃ o', objs h1 !! q = Some o' ∧ o_storage o' = o_storage o
           ∧ o_dtype o' = o_dtype o ∧ o_shape o' = o_shape o
           ∧ (requires_grad o = false → requires_grad o' = false)) ∧
  (r = Ok () →
     ∀ q, q ∈ ps → ∃ o', objs h1 !! q = Some o' ∧ requires_grad o' = false) ∧
  ((∀ p, p ∈ ps → is_Some (objs h !! p)) → r = Ok ()).
Proof.
  revert h. induction ps as [|p ps IH]; intros h; simpl.
  - split_and!; try done.
    + intros q o Hq. by exists o.
    + intros _ q Hq. by apply elem_of_nil in Hq.
  - destruct (objs h !! p) as [t|] eqn:Hp.
    + rewrite (se_bind_step _ _ _ _ _ (set_requires_grad_run false p h t Hp)).
      set (h0 := set_objs h _).
      destruct (IH h0) as (Hs & Hm & Hnone & Hsome & Hfrozen & Hok).
      split_and!; try done.
      * intros q Hq. apply Hnone. simpl.
        destruct (decide (p = q)) as [->|]; [congruence|].
        by rewrite list_lookup_insert_ne.
      * intros q o Hq. destruct (decide (p = q)) as [->|Hne].
        -- destruct (Hsome q {| o_storage := o_storage t; o_dtype := o_dtype t;
                              o_shape := o_shape t; requires_grad := false |})
             as (o' & ? & ? & ? & ? & Hrg).
           { simpl. by eapply lookup_insert_same. }
           simplify_eq. exists o'. split_and!; try done. intros _. by apply Hrg.
        -- apply Hsome. simpl. by rewrite list_lookup_insert_ne.
      * intros Hr q [->|Hq]%elem_of_cons; [|by apply Hfrozen].
        destruct (Hsome p {| o_storage := o_storage t; o_dtype := o_dtype t;
                             o_shape := o_shape t; requires_grad := false |})
          as (o' & ? & ? & ? & ? & Hrg).
        { simpl. by eapply lookup_insert_same. }
        exists o'. split; [done|]. by apply Hrg.
      * intros Hall. apply Hok. intros p' Hp'. simpl.
        destruct (decide (p = p')) as [->|].
        -- eexists. by eapply lookup_insert_same.
        -- rewrite list_lookup_insert_ne by done. apply Hall. by right.
    + rewrite (se_bind_raise _ _ _ _ _ (set_requires_grad_None false p h Hp)).
      simpl. split_and!; try done.
      * intros q o Hq. by exists o.
      * intros Hall. destruct (Hall p) as [? ?]; [by left | congruence].
Qed.

Lemma freeze_value ps (h : @Heap F) q :
  tensor_value (se_for ps (set_requires_grad false) h).2 q = tensor_value h q.
Proof.
  destruct (freeze_spec ps h) as (Hs & _ & Hnone & Hsome & _).
  unfold tensor_value. destruct (objs h !! q) as [o|] eqn:Hq.
  - destruct (Hsome q o Hq) as (o' & -> & Ho1 & Ho2 & Ho3 & _). simpl.
    by rewrite Hs, Ho1, Ho2, Ho3.
  - by rewrite (Hnone q Hq).
Qed.

(** *** The loop over the layers *)

Lemma grows_update_model model f : grows (update_model (F := F) model f).
Proof.
  unfold update_model. apply grows_bind; [apply grows_get_model|].
  intros m h. by split.
Qed.

Lemma grows_get_interaction model i : grows (get_interaction (F := F) model i).
Proof. unfold get_interaction. solve_grows. Qed.
Lemma grows_get_product model i : grows (get_product (F := F) model i).
Proof. unfold get_product. solve_grows. Qed.

Lemma grows_set_interaction model i f : grows (set_interaction (F := F) model i f).
Proof.
  unfold set_interaction. apply grows_bind;
    [apply grows_get_interaction | intros; apply grows_update_model].
Qed.
Lemma grows_set_product model i f : grows (set_product (F := F) model i f).
Proof.
  unfold set_product. apply grows_bind;
    [apply grows_get_product | intros; apply grows_update_model].
Qed.

Lemma grows_optimize_layer model dtype i :
  grows (optimize_layer (F := F) model dtype i).
Proof.
  unfold optimize_layer.
  repeat first
    [ apply grows_get_interaction | apply grows_get_product
    | apply grows_set_interaction | apply grows_set_product
    | apply grows_linear_matmul_init | apply grows_linear_to_cuda
    | apply grows_extract_all_weights | apply grows_raise
    | apply grows_bind; [|intros ?]
    | case_match ].
Qed.

Lemma layers_loop_Ok model dtype n a (h h' : @Heap F) m :
  se_for (seq a n) (optimize_layer model dtype) h = (Ok (), h') →
  models h !! model = Some m →
  ∃ m', models h' !! model = Some m' ∧
    models h' = <[model := m']> (models h) ∧
    heap_grows h h' ∧
    num_interactions m' = num_interactions m ∧
    spherical_harmonics m' = spherical_harmonics m ∧
    length (interactions m') = length (interactions m) ∧
    length (products m') = length (products m) ∧
    (∀ j, ¬ (a ≤ j < a + n) →
       interactions m' !! j = interactions m !! j
       ∧ products m' !! j = products m !! j) ∧
    (∀ j, a ≤ j < a + n →
       ∃ blk pb blk' pb' hj hj',
         interactions m !! j = Some blk ∧ products m !! j = Some pb ∧
         interactions m' !! j = Some blk' ∧ products m' !! j = Some pb' ∧
         heap_grows h hj ∧ heap_grows hj' h' ∧
         layer_rewritten dtype hj hj' blk pb blk' pb').
Proof.
  revert a h m. induction n as [|n IH]; intros a h m Hrun Hm.
  - simpl in Hrun. injection Hrun as <-. exists m.
    split_and!; try done; try apply heap_grows_refl.
    + symmetry. by apply list_insert_id.
    + intros j. lia.
  - simpl in Hrun. apply se_bind_Ok in Hrun as ([] & h1 & Hlayer & Hrun).
    pose proof (grows_optimize_layer model dtype a h) as Hg1.
    rewrite Hlayer in Hg1. simpl in Hg1.
    apply optimize_layer_Ok in Hlayer
      as (m0 & blk & pb & blk' & pb' & h3 & Hm0 & Hblk & Hpb & Hlr & ->).
    rewrite Hm in Hm0. injection Hm0 as <-.
    set (m1 := set_products _ _) in *.
    assert (Hm1 : models (set_models h3 (<[model := m1]> (models h))) !! model
                  = Some m1) by (simpl; by eapply lookup_insert_same).
    destruct (IH (S a) _ m1 Hrun Hm1)
      as (m' & Hm' & Hms & Hg & Hni & Hsh & Hli & Hlp & Hout & Hin).
    exists m'. split_and!; try done.
    + rewrite Hms. simpl. apply list_insert_insert_eq.
    + by eapply heap_grows_trans.
    + rewrite Hli. simpl. by rewrite length_insert.
    + rewrite Hlp. simpl. by rewrite length_insert.
    + intros j Hj. destruct (Hout j) as [-> ->]; [lia|]. simpl.
      rewrite !list_lookup_insert_ne by lia. done.
    + intros j Hj. destruct (decide (j = a)) as [->|Hne].
      * destruct (Hout a) as [Hi' Hp']; [lia|].
        exists blk, pb, blk', pb', h, h3. split_and!; try done.
        all: try apply heap_grows_refl.
        all: try (rewrite Hi'; simpl; by eapply lookup_insert_same).
        all: try (rewrite Hp'; simpl; by eapply lookup_insert_same).
      * destruct (Hin j) as (bj & pj & bj' & pj' & hj & hj' & Hbj & Hpj & ? & ?
                             & Hgj & ? & ?); [lia|].
        unfold m1 in Hbj, Hpj. simpl in Hbj, Hpj.
        rewrite list_lookup_insert_ne in Hbj by lia.
        rewrite list_lookup_insert_ne in Hpj by lia.
        exists bj, pj, bj', pj', hj, hj'. split_and!; try done.
        by eapply heap_grows_trans.
Qed.

(** *** The whole rewrite *)

Lemma get_model_dtype_inv model (h h' : @Heap F) dtype :
  get_model_dtype model h = (Ok dtype, h') →
  h' = h ∧ ∃ m p ps o, models h !! model = Some m ∧ parameters m = p :: ps
                       ∧ objs h !! p = Some o ∧ dtype = o_dtype o.
Proof.
  unfold get_model_dtype, model_parameters, get_model, get_obj, of_option,
    se_bind, se_ret, se_raise.
  intros Hrun. repeat case_match; simplify_eq. split; [done|]. eauto 10.
Qed.

Lemma grows_get_model_dtype model : grows (get_model_dtype (F := F) model).
Proof. unfold get_model_dtype, model_parameters. solve_grows. Qed.

Lemma optimize_cuda_mace_Ok model (h h' : @Heap F) r :
  optimize_cuda_mace model h = (Ok r, h') →
  ∃ m hf p ps o m',
    r = model ∧
    models h !! model = Some m ∧
    se_for (parameters m) (set_requires_grad false) h = (Ok (), hf) ∧
    parameters m = p :: ps ∧ objs hf !! p = Some o ∧
    models h' = <[model := m']> (models h) ∧
    heap_grows hf h' ∧
    num_interactions m' = num_interactions m ∧
    spherical_harmonics m'
      = {| sh_irreps := spherical_harmonics_irreps 3; sh_normalize := true;
           sh_normalization := "component"; sh_backend := "opt" |} ∧
    length (interactions m') = length (interactions m) ∧
    length (products m') = length (products m) ∧
    (∀ j, ¬ j < Z.to_nat (num_interactions m) →
       interactions m' !! j = interactions m !! j
       ∧ products m' !! j = products m !! j) ∧
    (∀ j, j < Z.to_nat (num_interactions m) →
       ∃ blk pb blk' pb' hj hj',
         interactions m !! j = Some blk ∧ products m !! j = Some pb ∧
         interactions m' !! j = Some blk' ∧ products m' !! j = Some pb' ∧
         heap_grows hf hj ∧ heap_grows hj' h' ∧
         layer_rewritten (o_dtype o) hj hj' blk pb blk' pb').
Proof.
  unfold optimize_cuda_mace. intros Hrun.
  apply se_bind_Ok in Hrun as (ps0 & h0 & Hps & Hrun).
  unfold model_parameters in Hps.
  apply se_bind_Ok in Hps as (m_ & h0' & Hgm & Hps).
  injection Hps as <- <-.
  unfold get_model, of_option in Hgm.
  destruct (models h !! model) as [m|] eqn:Hm; [|done]. injection Hgm as <- <-.
  apply se_bind_Ok in Hrun as ([] & hf & Hfreeze & Hrun).
  destruct (freeze_spec (parameters m) h) as (Hs & Hmf & _).
  rewrite Hfreeze in Hs, Hmf. simpl in Hs, Hmf.
  apply se_bind_Ok in Hrun as (dtype & ? & Hdt & Hrun).
  apply get_model_dtype_inv in Hdt
    as (-> & m0 & p & ps & o & Hm0 & Hpar & Ho & ->).
  rewrite Hmf, Hm in Hm0. injection Hm0 as <-.
  assert (Hmf' : models hf !! model = Some m) by by rewrite Hmf.
  rewrite (se_bind_step _ _ _ _ _ (get_model_run _ _ _ Hmf')) in Hrun.
  rewrite (se_bind_step _ _ _ _ _ (update_model_run _ _ _ _ Hmf')) in Hrun.
  set (sh := {| sh_irreps := _ |}) in *.
  set (hs := set_models hf _) in Hrun.
  assert (Hms : models hs !! model = Some (set_spherical_harmonics sh m))
    by (simpl; by eapply lookup_insert_same).
  rewrite (se_bind_step _ _ _ _ _ (get_model_run _ _ _ Hms)) in Hrun.
  apply se_bind_Ok in Hrun as ([] & h6 & Hloop & Hrun).
  injection Hrun as <- <-.
  destruct (layers_loop_Ok _ _ _ _ _ _ _ Hloop Hms)
    as (m' & Hm' & Hmseq & Hg & Hni & Hsh & Hli & Hlp & Hout & Hin).
  exists m, hf, p, ps, o, m'. split_and!; try done.
  - rewrite Hmseq. simpl. rewrite list_insert_insert_eq. by rewrite Hmf.
  - intros j Hj. apply Hout. simpl. lia.
  - intros j Hj. destruct (Hin j) as (blk & pb & blk' & pb' & hj & hj' & ?);
      [simpl; lia|].
    by exists blk, pb, blk', pb', hj, hj'.
Qed.

End LayerFacts.

(** *** Substring test *)



Section RewriteProperties.
Context {F : Type} `{Scalar F} `{!Kernels (F := F)}.

Lemma layer_rewritten_block dtype (hj hj' : @Heap F) blk pb blk' pb' :
  layer_rewritten dtype hj hj' blk pb blk' pb' →
  class_name blk' = class_name blk ∧ skip_tp blk' = skip_tp blk ∧
  conv_tp_weights blk' = conv_tp_weights blk ∧
  avg_num_neighbors blk' = avg_num_neighbors blk ∧
  tp blk' = InvariantMessagePassingTP ∧
  (∃ lu, linear_up blk' = LinMatmul lu) ∧
  (∃ lc, linear blk' = LinCuda lc) ∧
  forward blk' = (if str_contains "Residual" (class_name blk)
                  then bound_invariant_residual_interaction_forward
                  else bound_invariant_interaction_forward) ∧
  (∃ w, pb_symmetric_contractions pb' = SymWrapper w) ∧
  (∃ pl, pb_linear pb' = LinMatmul pl).
Proof.
  intros (e & l_lin & lu & aw & pl & h1 & h2 & _ & _ & _ & _ & _ & -> & ->).
  simpl. split_and!; eauto.
Qed.


Lemma model_parameters_run model (h : @Heap F) m :
  models h !! model = Some m → model_parameters model h = (Ok (parameters m), h).
Proof.
  intros Hm. unfold model_parameters.
  by rewrite (se_bind_step _ _ _ _ _ (get_model_run _ _ _ Hm)).
Qed.

(** Everything [optimize_cuda_mace] does after the loop that clears the
    flags only adds tensor objects and storages. *)
Lemma optimize_cuda_mace_after_freeze model (h hf : @Heap F) m :
  models h !! model = Some m →
  se_for (parameters m) (set_requires_grad false) h = (Ok (), hf) →
  heap_grows hf (optimize_cuda_mace model h).2.
Proof.
  intros Hm Hfreeze. unfold optimize_cuda_mace.
  rewrite (se_bind_step _ _ _ _ _ (model_parameters_run _ _ _ Hm)).
  rewrite (se_bind_step _ _ _ _ _ Hfreeze).
  match goal with
  | |- heap_grows ?h0 (?c ?h0).2 => cut (grows c); [intros G; apply G|]
  end.
  repeat first
    [ apply grows_get_model_dtype | apply grows_get_model
    | apply grows_update_model | apply grows_optimize_layer | apply grows_ret
    | apply grows_for; intros ?
    | apply grows_bind; [|intros ?] ].
Qed.

(** C6: [optimize_cuda_mace] is the loop that clears [requires_grad] on
    every parameter of the model as it was given, followed by the rest of
    the function: when the loop raises, the call raises there; when it
    completes, the call goes on from the heap the loop leaves, in which no
    model object has changed yet, so every replacement comes after the
    freeze.  The parameters are frozen when the loop ends and are still
    frozen in the heap the call leaves, whatever happens afterwards.  When
    the call returns, it returns the location it was given, only that
    model object of the heap has changed, and each of the
    [num_interactions] layers has been rewritten: [linear_up] and the
    product's [linear] are [linear_matmul] replacements, [linear] is the
    accelerated linear, [tp] the accelerated tensor product, [forward] one
    of the two rewritten forwards, and the contraction is wrapped. *)
Theorem optimize_cuda_mace_freezes_and_returns_model model :
  ∃ rest : SE (@Heap F) nat,
  ∀ (h : @Heap F) m,
    models h !! model = Some m →
    let freeze := se_for (parameters m) (set_requires_grad false) in
    optimize_cuda_mace model h = se_bind freeze (λ _, rest) h ∧
    models (freeze h).2 = models h ∧
    ((∀ p, p ∈ parameters m → is_Some (objs h !! p)) → (freeze h).1 = Ok ()) ∧
    ((freeze h).1 = Ok () →
       (∀ p, p ∈ parameters m →
          ∃ o, objs (freeze h).2 !! p = Some o ∧ requires_grad o = false) ∧
       (∀ p, p ∈ parameters m →
          ∃ o, objs (optimize_cuda_mace model h).2 !! p = Some o
               ∧ requires_grad o = false)) ∧
    ∀ r h', optimize_cuda_mace model h = (Ok r, h') →
      r = model ∧
      (freeze h).1 = Ok () ∧
      ∃ m', models h' = <[model := m']> (models h) ∧
        models h' !! model = Some m' ∧
        ∀ i, i < Z.to_nat (num_interactions m) →
          ∃ blk' pb' lu lc w pl,
            interactions m' !! i = Some blk' ∧ products m' !! i = Some pb' ∧
            linear_up blk' = LinMatmul lu ∧
            linear blk' = LinCuda lc ∧
            tp blk' = InvariantMessagePassingTP ∧
            forward blk' ≠ class_forward ∧
            pb_symmetric_contractions pb' = SymWrapper w ∧
            pb_linear pb' = LinMatmul pl.
Proof.
  exists (se_bind (get_model_dtype model) (λ dtype,
          se_bind (get_model model) (λ m,
          se_bind (update_model model
                     (set_spherical_harmonics
                        {| sh_irreps := spherical_harmonics_irreps 3;
                           sh_normalize := true;
                           sh_normalization := "component";
                           sh_backend := "opt" |})) (λ _,
          se_bind (get_model model) (λ m0,
          se_bind (se_for (seq 0 (Z.to_nat (num_interactions m)))
                     (optimize_layer model dtype)) (λ _, se_ret model)))))).
  intros h m Hm freeze.
  destruct (freeze_spec (parameters m) h) as (_ & Hmf & _ & _ & Hfrozen & Hok).
  fold freeze in Hmf, Hfrozen, Hok.
  match goal with |- ?G ∧ _ => assert (Hcall : G) end.
  { unfold optimize_cuda_mace at 1.
    rewrite (se_bind_step _ _ _ _ _ (model_parameters_run _ _ _ Hm)).
    reflexivity. }
  split; [exact Hcall|]. split; [exact Hmf|]. split; [exact Hok|].
  split.
  - intros Hfr. split; [by apply Hfrozen|].
    intros p Hp. destruct (Hfrozen Hfr p Hp) as (o & Ho & Hrg).
    exists o. split; [|done].
    eapply heap_grows_obj; [|exact Ho].
    eapply optimize_cuda_mace_after_freeze; [done|].
    unfold freeze in *. destruct (se_for _ _ h) as [rf hf]. simpl in *.
    by rewrite Hfr.
  - intros r h' Hrun.
    assert (Hfr : (freeze h).1 = Ok ()).
    { rewrite Hcall in Hrun. unfold se_bind at 1 in Hrun.
      destruct (freeze h) as [[[]|e] hf]; [done|done]. }
    apply optimize_cuda_mace_Ok in Hrun
      as (m0 & hf0 & p & ps & o & m' & -> & Hm0 & _ & _ & _ & Hms & _ & _ & _ & _
          & _ & _ & Hin).
    rewrite Hm in Hm0. injection Hm0 as <-.
    split; [done|]. split; [done|]. exists m'. split; [done|].
    split; [rewrite Hms; by eapply lookup_insert_same|].
    intros i Hi.
    destruct (Hin i Hi) as (blk & pb & blk' & pb' & hj & hj' & _ & _ & Hb' & Hp'
                            & _ & _ & Hlr).
    apply layer_rewritten_block in Hlr
      as (_ & _ & _ & _ & Htp & [lu Hlu] & [lc Hlc] & Hfw & [w Hw] & [pl Hpl]).
    exists blk', pb', lu, lc, w, pl. split_and!; try done.
    rewrite Hfw. by destruct (str_contains _ _).
Qed.

Lemma detached_clone_mono dtype (h h0 h0' h' : @Heap F) src w :
  (∀ q t, tensor_value h q = Some t → tensor_value h0 q = Some t) →
  length (objs h) ≤ length (objs h0) →
  length (stor h) ≤ length (stor h0) →
  heap_grows h0' h' →
  detached_clone dtype h0 h0' src w → detached_clone dtype h h' src w.
Proof.
  intros Hv Hlo Hls Hg [Hval (o' & Ho' & Hrg & Hw & Hs)]. split.
  - intros t Ht. eapply heap_grows_value; [done|]. apply Hval. by apply Hv.
  - exists o'. split_and!; [by eapply heap_grows_obj | done | lia | lia].
Qed.

(** C9: for every layer [i] and every contraction [j] of its product
    block, the dictionary handed to the contraction replacement has, under
    the key [str(j)], body order 3 bound to a copy of
    [contractions[j].weights_max], body order 2 to a copy of
    [contractions[j].weights[0]] and body order 1 to a copy of
    [contractions[j].weights[1]].  Each copy is a new tensor object on a
    new storage, does not require gradients, and denotes the original's
    value cast to the dtype of the model's first parameter; every tensor of
    the initial heap denotes the same value after the rewrite. *)
Theorem extracted_weights_by_body_order model (h h' : @Heap F) r m :
  optimize_cuda_mace model h = (Ok r, h') →
  models h !! model = Some m →
  ∃ p ps o m',
    parameters m = p :: ps ∧ objs h !! p = Some o ∧
    models h' !! model = Some m' ∧
    (∀ q t, tensor_value h q = Some t → tensor_value h' q = Some t) ∧
    ∀ i pb, i < Z.to_nat (num_interactions m) → products m !! i = Some pb →
      ∃ e pb' w,
        pb_symmetric_contractions pb = SymE3nn e ∧
        products m' !! i = Some pb' ∧
        pb_symmetric_contractions pb' = SymWrapper w ∧
        cc_dtype (symmetric_contractions w) = o_dtype o ∧
        ∀ j c, contractions e !! j = Some c →
          ∃ p0 p1 inner w3 w2 w1,
            weights c !! 0 = Some p0 ∧ weights c !! 1 = Some p1 ∧
            cc_all_weights (symmetric_contractions w) !! pretty j = Some inner ∧
            inner !! 3 = Some w3 ∧ inner !! 2 = Some w2 ∧ inner !! 1 = Some w1 ∧
            detached_clone (o_dtype o) h h' (weights_max c) w3 ∧
            detached_clone (o_dtype o) h h' p0 w2 ∧
            detached_clone (o_dtype o) h h' p1 w1.
Proof.
  intros Hrun Hm.
  apply optimize_cuda_mace_Ok in Hrun
    as (m0 & hf & p & ps & o_f & m' & -> & Hm0 & Hfreeze & Hpar & Hof & Hms & Hg
        & _ & _ & _ & _ & _ & Hin).
  rewrite Hm in Hm0. injection Hm0 as <-.
  destruct (freeze_spec (parameters m) h) as (Hs & _ & Hnone & Hsome & _).
  rewrite Hfreeze in Hs, Hnone, Hsome. simpl in Hs, Hnone, Hsome.
  assert (Hval : ∀ q t, tensor_value h q = Some t → tensor_value hf q = Some t).
  { intros q t Ht. pose proof (freeze_value (parameters m) h q) as Hfv.
    rewrite Hfreeze in Hfv. simpl in Hfv. by rewrite Hfv. }
  assert (Hlen : length (objs h) ≤ length (objs hf)).
  { destruct (decide (length (objs h) ≤ length (objs hf))) as [|Hn]; [done|].
    destruct (lookup_lt_is_Some_2 (objs h) (length (objs hf))) as [x Hx]; [lia|].
    destruct (Hsome _ _ Hx) as (o' & Ho' & _).
    apply lookup_lt_Some in Ho'. lia. }
  destruct (objs h !! p) as [o|] eqn:Ho; [|by rewrite (Hnone p Ho) in Hof].
  destruct (Hsome p o Ho) as (o' & Ho' & _ & Hdt & _).
  rewrite Hof in Ho'. injection Ho' as <-.
  exists p, ps, o, m'. split_and!; try done.
  { rewrite Hms. by eapply lookup_insert_same. }
  { intros q t Ht. eapply heap_grows_value; [exact Hg|]. by apply Hval. }
  intros i pb Hi Hpb.
  destruct (Hin i Hi) as (blk & pb0 & blk' & pb' & hj & hj' & _ & Hpb0 & _ & Hpb'
                          & Hgj & Hgj' & Hlr).
  rewrite Hpb in Hpb0. injection Hpb0 as <-.
  destruct Hlr as (e & l_lin & lu & aw & pl & h1 & h2 & He & _ & Hlu & Haw & Hpl
                   & _ & ->).
  exists e. eexists. eexists. split_and!; try done.
  intros j c Hc.
  apply extract_all_weights_Ok in Haw as [Hg12 Hex].
  destruct (Hex j c Hc) as (p0 & p1 & inner & w3 & w2 & w1 & ? & ? & ? & ? & ? & ?
                            & D3 & D2 & D1).
  pose proof (grows_linear_matmul_init (linear_up blk) hj) as G1.
  rewrite Hlu in G1. simpl in G1.
  pose proof (grows_linear_matmul_init (pb_linear pb) h2) as G2.
  rewrite Hpl in G2. simpl in G2.
  assert (Hg1 : heap_grows hf h1) by by eapply heap_grows_trans.
  assert (Hg2 : heap_grows h2 h') by by eapply heap_grows_trans.
  destruct (heap_grows_lengths _ _ Hg1) as [Hlo1 Hls1].
  rewrite Hs in Hls1.
  assert (Hv1 : ∀ q t, tensor_value h q = Some t → tensor_value h1 q = Some t).
  { intros q t Ht. eapply heap_grows_value; [exact Hg1|]. by apply Hval. }
  exists p0, p1, inner, w3, w2, w1. rewrite <- Hdt. simpl.
  split_and!; try done.
  all: eapply detached_clone_mono; [exact Hv1 | lia | lia | exact Hg2 | eassumption].
Qed.

End RewriteProperties.

(** *** Splitting and joining paths *)

Lemma str_split_nonempty sep s : str_split sep s ≠ [].
Proof.
  destruct s as [|c s]; simpl; [done|].
  destruct (Ascii.eqb c sep); [done|]. by destruct (str_split sep s).
Qed.

Lemma str_split_app sep d f :
  str_split sep (d +:+ String sep f) = str_split sep d ++ str_split sep f.
Proof.
  induction d as [|c d IH]; simpl.
  - by rewrite Ascii.eqb_refl.
  - destruct (Ascii.eqb c sep); [by rewrite IH|].
    rewrite IH. pose proof (str_split_nonempty sep d).
    by destruct (str_split sep d).
Qed.

Lemma str_split_no_sep sep f :
  str_contains (String sep EmptyString) f = false → str_split sep f = [f].
Proof.
  induction f as [|c f IH]; [done|]. cbn [str_contains str_prefix].
  rewrite Ascii.eqb_sym. destruct (Ascii.eqb c sep) eqn:Hc; simpl.
  - by destruct f.
  - intros Hf. by rewrite Hc, (IH Hf).
Qed.

Lemma str_join_split sep s :
  str_join (String sep EmptyString) (str_split sep s) = s.
Proof.
  induction s as [|c s IH]; [done|]. simpl.
  pose proof (str_split_nonempty sep s) as Hne.
  destruct (Ascii.eqb c sep) eqn:Hc.
  - apply Ascii.eqb_eq in Hc as ->.
    destruct (str_split sep s) as [|x rest]; [done|].
    cbn [str_join]. cbn [str_join] in IH. by rewrite IH.
  - destruct (str_split sep s) as [|w ws]; [done|].
    transitivity (String c (str_join (String sep EmptyString) (w :: ws)));
      [by destruct ws | by rewrite IH].
Qed.

(** When the model path has a directory part, [dir/file], the model is
    saved as [dir/output]. *)
Lemma model_opt_path_with_directory (args : Args) dir file :
  args_model args = dir +:+ "/" +:+ file →
  str_contains "/" file = false →
  model_opt_path args = dir +:+ "/" +:+ args_output args.
Proof.
  intros Hmodel Hfile. unfold model_opt_path. rewrite Hmodel.
  change (dir +:+ "/" +:+ file) with (dir +:+ String "/" file).
  rewrite str_split_app, (str_split_no_sep _ _ Hfile), removelast_last.
  by rewrite str_join_split.
Qed.

(** When the model path is a bare file name, the model is saved as
    [/output], whatever the working directory. *)
Lemma model_opt_path_bare_name (args : Args) :
  str_contains "/" (args_model args) = false →
  model_opt_path args = "/" +:+ args_output args.
Proof.
  intros Hmodel. unfold model_opt_path.
  by rewrite (str_split_no_sep _ _ Hmodel).
Qed.

Section DriverFacts.
Context {F : Type} `{Scalar F} `{!System (F := F)}.

(** C8: when [ase.io.read] raises on the benchmark file, [benchmark] does
    not propagate the exception: it prints that the file could not be
    read, builds the cubic diamond carbon cell repeated 10 x 10 x 10,
    prints its number of atoms, and goes on to time the model on that one
    structure. *)
Theorem benchmark_falls_back_to_diamond model benchmark_file name e
    (w : @World F) :
  ase_io_read benchmark_file = Raise e →
  let synthetic := atoms_repeat (build_bulk "C" "diamond" 3567 true) (10, 10, 10) in
  benchmark model benchmark_file name w
  = time_model model [synthetic] name
      {| w_heap := w_heap w;
         w_stdout := w_stdout w
                     ++ ["Could not read file " +:+ benchmark_file;
                         "Number of atoms " +:+ pretty (ase_len synthetic)];
         w_saved := w_saved w |}.
Proof.
  intros Hread synthetic. unfold benchmark, se_try, se_lift.
  unfold se_bind at 1. rewrite Hread.
  unfold print, se_modify, se_bind, se_ret. simpl.
  by rewrite <- app_assoc.
Qed.

End DriverFacts.

(** C7, at the input [--model model.pt --output optimized_model.pt]: the
    path computed by [main] is [/optimized_model.pt], and that is where the
    driver saves.  Whatever the working directory, the file saved lies in
    the root directory, while the model [model.pt] lies in the working
    directory. *)
Theorem main_saves_bare_model_name_in_root :
  let args := {| args_model := "model.pt"; args_output := "optimized_model.pt";
                 args_dtype := "float32"; args_benchmark := false;
                 args_benchmark_file := "" |} in
  model_opt_path args = "/optimized_model.pt"
  ∧ w_saved (main args {| w_heap := sample_heap; w_stdout := [];
                          w_saved := [] |}).2
    = [("/optimized_model.pt", 1)]
  ∧ containing_directory "/home/user" (model_opt_path args)
    ≠ containing_directory "/home/user" (args_model args)
  ∧ ∀ cwd,
      containing_directory cwd (model_opt_path args) = []
      ∧ containing_directory cwd (args_model args) = path_components cwd.
Proof.
  split; [reflexivity|]. split; [vm_compute; reflexivity|].
  split; [vm_compute; discriminate|].
  intros cwd. split; [reflexivity|].
  unfold containing_directory, resolve_path. simpl.
  change (path_components "model.pt") with ["model.pt"].
  apply removelast_last.
Qed.

(** * Further properties of the code *)

Section ForwardEdgeCases.
Context {F : Type} `{Scalar F} `{!Kernels (F := F)}.

(** X1: the two rewritten forwards compute the same message.  On the same
    block and inputs, with an [edge_index] of two rows and [node_feats] of
    rank at least one: when [skip_tp] raises, the Residual forward raises
    that exception right after calling it, whatever the Standard forward
    would do; when [skip_tp] returns [s], the Residual forward raises
    exactly when the Standard one does, with the same exception, returns
    [(message, s)] when the Standard one returns [(message, None)], and has
    made the calls of the Standard one preceded by the call to [skip_tp]. *)
Theorem residual_is_standard_with_self_connection (h : @Heap F)
    (self : InteractionBlock)
    node_attrs node_feats edge_attrs edge_feats edge_index tr e0 e1 num_nodes :
  select0 0 edge_index = Ok e0 →
  select0 1 edge_index = Ok e1 →
  shape_first (t_shape node_feats) = Ok num_nodes →
  let standard := invariant_interaction_forward h self
                    node_attrs node_feats edge_attrs edge_feats edge_index tr in
  let residual := invariant_residual_interaction_forward h self
                    node_attrs node_feats edge_attrs edge_feats edge_index tr in
  match skip_tp_forward h (skip_tp self) node_feats node_attrs with
  | Raise e =>
      residual = (Raise e, tr ++ [call_skip_tp node_feats node_attrs])
  | Ok s =>
      residual.1
      = match standard.1 with
        | Ok (msg, _) => Ok (msg, Some s)
        | Raise e => Raise e
        end
      ∧ ∃ calls, standard.2 = tr ++ calls
                 ∧ residual.2 = tr ++ call_skip_tp node_feats node_attrs :: calls
  end.
Proof.
  intros He0 He1 Hn.
  unfold invariant_interaction_forward, invariant_residual_interaction_forward,
    tp_calculate_first_occurences, tp_forward_call.
  unfold se_bind, se_lift, invoke, se_ret, se_raise. simpl.
  rewrite He0, He1, Hn.
  destruct (skip_tp_forward h (skip_tp self) node_feats node_attrs) as [s|e];
    [|done].
  split.
  - repeat case_match; simplify_eq/=; congruence.
  - repeat case_match; simplify_eq/=.
    all: try congruence.
    all: repeat match goal with
         | H1 : ?x = _, H2 : ?x = _ |- _ => rewrite H1 in H2; simplify_eq
         end.
    all: eexists; rewrite <- !app_assoc; split; reflexivity.
Qed.

(** X2: when the sub-modules called before the view return and the
    per-edge weights cannot be viewed as [num_edges, -1, channels],
    because there is no edge or no channel or because
    [num_edges * channels] does not divide their number of elements, both
    rewritten forwards raise [RuntimeError]; the bucket offsets have been
    computed by then, and the tensor-product primitive and [self.linear]
    are never called. *)
Theorem forwards_raise_when_weights_cannot_be_viewed (h : @Heap F)
    (self : InteractionBlock)
    node_attrs node_feats edge_attrs edge_feats edge_index run tr
    e0 e1 num_nodes up tp_weights first_occurences num_edges channels :
  InteractionBlock_call h self
    node_attrs node_feats edge_attrs edge_feats edge_index = Some run →
  select0 0 edge_index = Ok e0 →
  select0 1 edge_index = Ok e1 →
  shape_first (t_shape node_feats) = Ok num_nodes →
  (forward self = bound_invariant_residual_interaction_forward →
     ∃ s, skip_tp_forward h (skip_tp self) node_feats node_attrs = Ok s) →
  call_linear_module h (linear_up self) node_feats = Ok up →
  conv_tp_weights_forward h (conv_tp_weights self) edge_feats = Ok tp_weights →
  tp self = InvariantMessagePassingTP →
  calculate_first_occurences (int_ e1) num_nodes empty_int_tensor
  = Ok first_occurences →
  shape_first (t_shape tp_weights) = Ok num_edges →
  shape_last (t_shape up) = Ok channels →
  num_edges * channels = 0
  ∨ numel (t_shape tp_weights) `mod` (num_edges * channels) ≠ 0 →
  ∃ pre,
    (pre = [] ∨ pre = [call_skip_tp node_feats node_attrs]) ∧
    run tr
    = (Raise RuntimeError,
       tr ++ pre
          ++ [call_linear_up node_feats;
              call_conv_tp_weights edge_feats;
              call_calculate_first_occurences (int_ e1) num_nodes
                empty_int_tensor]).
Proof.
  unfold InteractionBlock_call.
  intros Hcall He0 He1 Hn Hskip Hup Hw Htp Hfo Hd0 Hd2 Hview.
  assert (Hv : view_infer_mid num_edges channels tp_weights = Raise RuntimeError).
  { unfold view_infer_mid. destruct Hview as [Hz|Hm].
    - by rewrite decide_True.
    - destruct (decide (num_edges * channels = 0)); [done|].
      by rewrite decide_False. }
  destruct (forward self); simplify_eq.
  - destruct (Hskip eq_refl) as [s Hs].
    exists [call_skip_tp node_feats node_attrs]. split; [by right|].
    unfold invariant_residual_interaction_forward, tp_calculate_first_occurences.
    unfold se_bind, se_lift, invoke, se_ret, se_raise.
    rewrite He0, He1, Hn, Hs, Hup, Hw, Htp, Hfo, Hd0, Hd2, Hv. simpl.
    by rewrite <- !app_assoc.
  - exists []. split; [by left|].
    unfold invariant_interaction_forward, tp_calculate_first_occurences.
    unfold se_bind, se_lift, invoke, se_ret, se_raise.
    rewrite He0, He1, Hn, Hup, Hw, Htp, Hfo, Hd0, Hd2, Hv. simpl.
    by rewrite <- !app_assoc.
Qed.

(** X3: [edge_index] needs two rows.  When it is 0-dimensional or its
    first dimension is below two, both rewritten forwards raise
    [IndexError] before calling any sub-module of the block. *)
Theorem forwards_need_two_index_rows (h : @Heap F) (self : InteractionBlock)
    node_attrs node_feats edge_attrs edge_feats edge_index run tr :
  InteractionBlock_call h self
    node_attrs node_feats edge_attrs edge_feats edge_index = Some run →
  (∀ d rest, t_shape edge_index = d :: rest → d < 2) →
  run tr = (Raise IndexError, tr).
Proof.
  unfold InteractionBlock_call. intros Hcall Hrows.
  assert (Hsel : select0 0 edge_index = Raise IndexError
                 ∨ ∃ e0, select0 0 edge_index = Ok e0
                         ∧ select0 1 edge_index = Raise IndexError).
  { unfold select0. destruct (t_shape edge_index) as [|d rest] eqn:Hs; [by left|].
    specialize (Hrows d rest eq_refl).
    destruct (decide (0 < d)); [|by left]. right. eexists. split; [done|].
    by rewrite decide_False by lia. }
  destruct (forward self); simplify_eq.
  - unfold invariant_residual_interaction_forward, se_bind, se_lift.
    destruct Hsel as [->|(e0 & -> & ->)]; done.
  - unfold invariant_interaction_forward, se_bind, se_lift.
    destruct Hsel as [->|(e0 & -> & ->)]; done.
Qed.

Lemma wrap32_in_range z : (- 2 ^ 31 ≤ z < 2 ^ 31)%Z → wrap32 z = z.
Proof. intros Hz. unfold wrap32. rewrite Z.mod_small; lia. Qed.

Lemma int_in_range (t : tensor Z) :
  Forall (λ z, (- 2 ^ 31 ≤ z < 2 ^ 31)%Z) (t_data t) →
  int_ t = Tensor int32 (t_shape t) (t_data t).
Proof.
  intros Hall. unfold int_. f_equal.
  induction Hall as [|z l Hz _ IH]; [done|]. simpl.
  by rewrite IH, wrap32_in_range.
Qed.

Lemma select0_Forall {A} (P : A → Prop) i (t e : tensor A) :
  select0 i t = Ok e → Forall P (t_data t) → Forall P (t_data e).
Proof.
  unfold select0. intros Hsel Hall. repeat case_match; simplify_eq. simpl.
  by apply Forall_take, Forall_drop.
Qed.

(** X4: the 32-bit cast loses nothing on indices that fit.  When every
    entry of [edge_index] lies in [[-2^31, 2^31)], a call of either
    rewritten forward that returns has passed the tensor-product primitive
    the entries of row 0 as senders and those of row 1 as receivers,
    unchanged, as 32-bit tensors. *)
Theorem forwards_keep_indices_that_fit (h : @Heap F) (self : InteractionBlock)
    node_attrs node_feats edge_attrs edge_feats edge_index run tr msg sc tr' :
  InteractionBlock_call h self
    node_attrs node_feats edge_attrs edge_feats edge_index = Some run →
  run tr = (Ok (msg, sc), tr') →
  Forall (λ z, (- 2 ^ 31 ≤ z < 2 ^ 31)%Z) (t_data edge_index) →
  ∃ e0 e1 up viewed first_occurences,
    select0 0 edge_index = Ok e0 ∧ select0 1 edge_index = Ok e1 ∧
    call_tp_forward up edge_attrs viewed
      (Tensor int32 (t_shape e0) (t_data e0))
      (Tensor int32 (t_shape e1) (t_data e1)) first_occurences ∈ tr'.
Proof.
  unfold InteractionBlock_call. intros Hcall Hrun Hall.
  destruct (forward self); simplify_eq.
  - apply residual_forward_inv in Hrun
      as (e0 & e1 & n & s & up & tpw & fo & d0 & d2 & v & mg & lin & He0 & He1
          & _ & _ & _ & _ & _ & _ & _ & _ & _ & _ & _ & _ & _ & ->).
    exists e0, e1, up, v, fo. split; [done|]. split; [done|].
    rewrite <- (int_in_range e0), <- (int_in_range e1)
      by (eapply select0_Forall; eauto).
    rewrite !elem_of_app, !elem_of_cons. right. do 4 right. by left.
  - apply standard_forward_inv in Hrun
      as (e0 & e1 & n & up & tpw & fo & d0 & d2 & v & mg & lin & He0 & He1
          & _ & _ & _ & _ & _ & _ & _ & _ & _ & _ & _ & _ & ->).
    exists e0, e1, up, v, fo. split; [done|]. split; [done|].
    rewrite <- (int_in_range e0), <- (int_in_range e1)
      by (eapply select0_Forall; eauto).
    rewrite !elem_of_app, !elem_of_cons. right. do 3 right. by left.
Qed.

(** *** What the arg-max selects *)

Section ArgmaxOrder.
Hypothesis fgtb_asym : ∀ a b : F, fgtb a b = true → fgtb b a = false.
Hypothesis fgtb_trans : ∀ a b c : F, fgtb a b = true → fgtb c b = false → fgtb a c = true.

Lemma fgtb_irrefl (a : F) : fgtb a a = false.
Proof. destruct (fgtb a a) eqn:Ha; [by apply fgtb_asym in Ha as Ha'; congruence | done]. Qed.

Lemma argmax_from_first_largest (l pre : list F) bi b i :
  length pre = i → pre !! bi = Some b →
  (∀ j y, pre !! j = Some y → fgtb y b = false) →
  (∀ j y, j < bi → pre !! j = Some y → fgtb b y = true) →
  ∃ m, (pre ++ l) !! argmax_from bi b i l = Some m ∧
    (∀ j y, (pre ++ l) !! j = Some y → fgtb y m = false) ∧
    (∀ j y, j < argmax_from bi b i l → (pre ++ l) !! j = Some y →
            fgtb m y = true).
Proof.
  revert pre bi b i. induction l as [|x l IH]; intros pre bi b i Hlen Hb Hle Hlt.
  - simpl. rewrite app_nil_r. exists b. eauto.
  - simpl. replace (pre ++ x :: l) with ((pre ++ [x]) ++ l)
      by by rewrite <- app_assoc.
    pose proof (lookup_lt_Some _ _ _ Hb) as Hbi.
    destruct (fgtb x b) eqn:Hx.
    + apply IH.
      * rewrite length_app. simpl. lia.
      * subst i. apply lookup_snoc.
      * intros j y Hj. apply lookup_app_Some in Hj as [Hj|[_ Hj]].
        -- apply fgtb_asym. eapply fgtb_trans; [exact Hx|]. by eapply Hle.
        -- destruct (j - length pre); simplify_eq/=. apply fgtb_irrefl.
      * intros j y Hji Hj. rewrite lookup_app_l in Hj by lia.
        eapply fgtb_trans; [exact Hx|]. by eapply Hle.
    + apply IH.
      * rewrite length_app. simpl. lia.
      * by rewrite lookup_app_l by lia.
      * intros j y Hj. apply lookup_app_Some in Hj as [Hj|[_ Hj]].
        -- by eapply Hle.
        -- destruct (j - length pre); by simplify_eq/=.
      * intros j y Hji Hj. rewrite lookup_app_l in Hj by lia. by eapply Hlt.
Qed.

Lemma argmax_row_first_largest (l : list F) :
  l ≠ [] →
  ∃ m, l !! argmax_row l = Some m ∧
    (∀ j y, l !! j = Some y → fgtb y m = false) ∧
    (∀ j y, j < argmax_row l → l !! j = Some y → fgtb m y = true).
Proof.
  destruct l as [|x l]; [done|]. intros _. unfold argmax_row.
  apply (argmax_from_first_largest l [x] 0 x 1); try done.
  - intros [|j] y Hj; simplify_eq/=. apply fgtb_irrefl.
  - intros j y Hj. lia.
Qed.

Lemma numel_app a b : numel (a ++ b) = numel a * numel b.
Proof.
  unfold numel. induction a as [|d a IH]; simpl; [lia|]. rewrite IH. lia.
Qed.

Lemma lookup_row_of k r (d : list F) j :
  j < k → row_of k r d !! j = d !! (r * k + j).
Proof.
  intros Hj. unfold row_of. rewrite lookup_take_lt by done. by rewrite lookup_drop.
Qed.

(** X5: what the wrapper selects.  When the comparison of the scalars is
    asymmetric and [a > b], [c <= b] give [a > c] (a strict order without
    incomparable values), and [y] has shape [..., k] with [0 < k <= 2^31],
    the wrapper calls the kernel and its outcome is the kernel's (the
    result squeezed, or the exception raised); the selector handed to the
    kernel holds, for each leading position [r], an index [i < k] whose
    entry in row [r] of [y] no entry of the row exceeds and which exceeds
    every entry before it: the largest entry, the first one on ties.  For
    a one-hot row this is the hot index. *)
Theorem wrapper_selects_first_largest (h : @Heap F)
    (self : SymmetricContractionWrapper) (x y : tensor F) lead k :
  t_shape y = lead ++ [k] → k ≠ 0 → (Z.of_nat k ≤ 2 ^ 31)%Z →
  well_shaped y →
  ∃ sel,
    SymmetricContractionWrapper_forward h self x y
    = match cuda_contraction_forward h (symmetric_contractions self) x sel with
      | Ok out => Ok (squeeze out)
      | Raise e => Raise e
      end
    ∧ length (t_data sel) = numel lead
    ∧ ∀ r, r < numel lead →
        ∃ i m,
          t_data sel !! r = Some (Z.of_nat i) ∧ i < k ∧
          t_data y !! (r * k + i) = Some m ∧
          (∀ j v, j < k → t_data y !! (r * k + j) = Some v → fgtb v m = false) ∧
          (∀ j v, j < i → t_data y !! (r * k + j) = Some v → fgtb m v = true).
Proof.
  intros Hs Hk Hk32 Hws. unfold SymmetricContractionWrapper_forward.
  rewrite (argmax_last_Ok y lead k Hs Hk). simpl.
  eexists. split; [reflexivity|]. simpl.
  split; [by rewrite !length_map, length_seq|].
  intros r Hr.
  unfold well_shaped in Hws. rewrite Hs, numel_app in Hws.
  replace (numel [k]) with k in Hws by (unfold numel; simpl; lia).
  assert (Hrow : length (row_of k r (t_data y)) = k).
  { unfold row_of. rewrite length_take, length_drop. nia. }
  destruct (argmax_row_first_largest (row_of k r (t_data y)))
    as (m & Hm & Hmax & Hfirst).
  { intros Hnil. rewrite Hnil in Hrow. simpl in Hrow. lia. }
  pose proof (lookup_lt_Some _ _ _ Hm) as Hi. rewrite Hrow in Hi.
  exists (argmax_row (row_of k r (t_data y))), m.
  split_and!.
  - rewrite !lookup_map, lookup_seq_lt by done. simpl.
    by rewrite wrap32_in_range by lia.
  - done.
  - by rewrite <- lookup_row_of.
  - intros j v Hj Hv. rewrite <- lookup_row_of in Hv by done. by eapply Hmax.
  - intros j v Hj Hv. rewrite <- lookup_row_of in Hv by lia. by eapply Hfirst.
Qed.

End ArgmaxOrder.

End ForwardEdgeCases.

Section LinearEdgeCases.
Context {F : Type} `{Scalar F}.

Lemma linear_matmul_init_dangling (h : @Heap F) (l : LinearE3nn) :
  objs h !! weight l = None →
  linear_matmul_init (LinE3nn l) h = (Raise DanglingReference, h).
Proof.
  intros Ho. unfold linear_matmul_init, data_, detach, se_bind, get_obj, of_option.
  by rewrite Ho.
Qed.

Lemma linear_matmul_init_inv (h h' : @Heap F) lin r :
  linear_matmul_init lin h = (Ok r, h') →
  ∃ l o d,
    lin = LinE3nn l ∧ objs h !! weight l = Some o ∧
    stor h !! o_storage o = Some d ∧
    numel [num_irreps (irreps_in l); num_irreps (irreps_out l)] = numel (o_shape o) ∧
    r = {| lm_weights := S (S (length (objs h))) |} ∧
    let od := {| o_storage := o_storage o; o_dtype := o_dtype o;
                 o_shape := o_shape o; requires_grad := false |} in
    let ov := {| o_storage := o_storage o; o_dtype := o_dtype o;
                 o_shape := [num_irreps (irreps_in l); num_irreps (irreps_out l)];
                 requires_grad := false |} in
    h' = {| objs := (objs h ++ [od]) ++ [ov] ++
              [{| o_storage := length (stor h); o_dtype := o_dtype o;
                  o_shape := [num_irreps (irreps_in l); num_irreps (irreps_out l)];
                  requires_grad := false |}];
            stor := stor h ++ [map (λ x, fdiv x (pow_half (num_irreps (irreps_in l)))) d];
            models := models h |}.
Proof.
  intros Hinit. destruct lin as [l| |]; [|done..].
  destruct (objs h !! weight l) as [o|] eqn:Ho;
    [|by rewrite (linear_matmul_init_dangling h l Ho) in Hinit].
  rewrite (linear_matmul_init_unfold h l o Ho) in Hinit.
  destruct (decide _) as [Hn|]; [|done].
  destruct (stor h !! o_storage o) as [d|] eqn:Hd; [|done].
  injection Hinit as <- <-. by exists l, o, d.
Qed.

(** X6: the replacement owns its weights.  A successful construction
    leaves every tensor object and storage of the heap as it was and stores
    in [self.weights] a tensor object that did not exist before, on a
    storage that did not exist before, of shape
    [num_channels_in, num_channels_out], not requiring gradients: the
    original weight is neither modified nor shared. *)
Theorem linear_matmul_init_owns_its_weights (h h' : @Heap F) lin r :
  linear_matmul_init lin h = (Ok r, h') →
  ∃ l o',
    lin = LinE3nn l ∧
    heap_grows h h' ∧ models h' = models h ∧
    length (objs h) ≤ lm_weights r ∧
    objs h' !! lm_weights r = Some o' ∧
    length (stor h) ≤ o_storage o' ∧
    o_shape o' = [num_irreps (irreps_in l); num_irreps (irreps_out l)] ∧
    requires_grad o' = false.
Proof.
  intros Hinit.
  pose proof (grows_linear_matmul_init lin h) as Hg. rewrite Hinit in Hg.
  apply linear_matmul_init_inv in Hinit
    as (l & o & d & -> & Ho & Hd & Hn & -> & ->).
  exists l. eexists. split_and!; try done.
  - simpl. lia.
  - simpl. rewrite lookup_app_r by (rewrite length_app; simpl; lia).
    rewrite length_app. simpl.
    by replace (S (S (length (objs h))) - (length (objs h) + 1)) with 1 by lia.
  - simpl. lia.
  - done.
  - done.
Qed.

Lemma linear_matmul_forward_after_init (h h' : @Heap F) (l : LinearE3nn) o d r x :
  objs h !! weight l = Some o → stor h !! o_storage o = Some d →
  linear_matmul_init (LinE3nn l) h = (Ok r, h') →
  linear_matmul_forward h' r x
  = matmul x (Tensor (o_dtype o)
                [num_irreps (irreps_in l); num_irreps (irreps_out l)]
                (map (λ w, fdiv w (pow_half (num_irreps (irreps_in l)))) d)).
Proof.
  intros Ho Hd Hinit.
  apply linear_matmul_init_inv in Hinit
    as (l' & o' & d' & [= <-] & Ho' & Hd' & Hn & -> & ->).
  simplify_eq. unfold linear_matmul_forward, tensor_value. simpl.
  rewrite lookup_app_r by (rewrite length_app; simpl; lia).
  rewrite length_app. simpl.
  replace (S (S (length (objs h))) - (length (objs h) + 1)) with 1 by lia.
  simpl. by rewrite lookup_snoc.
Qed.

Lemma length_flat_map_const {A B} (f : A → list B) (l : list A) n :
  (∀ x, length (f x) = n) → length (flat_map f l) = length l * n.
Proof.
  intros Hf. induction l as [|a l IH]; [done|]. simpl.
  rewrite length_app, Hf, IH. lia.
Qed.

(** X7: which inputs the replacement accepts.  For a replacement built
    from a layer with multiplicities [c_in], [c_out], an input of any rank
    at least one whose last dimension is [c_in] and whose dtype is the
    weight's gives a result with the same leading dimensions, last
    dimension [c_out] and as many elements as its shape says; every other
    input (0-dimensional, another last dimension, another dtype) raises
    [RuntimeError]. *)
Theorem linear_matmul_forward_accepts (h h' : @Heap F) (l : LinearE3nn)
    (W : tensor F) (r : linear_matmul) (c_in c_out : nat) (x : tensor F) :
  num_irreps (irreps_in l) = c_in →
  num_irreps (irreps_out l) = c_out →
  tensor_value h (weight l) = Some W →
  linear_matmul_init (LinE3nn l) h = (Ok r, h') →
  (∀ lead, t_shape x = lead ++ [c_in] → t_dtype x = t_dtype W →
     ∃ y, linear_matmul_forward h' r x = Ok y
          ∧ t_dtype y = t_dtype x
          ∧ t_shape y = lead ++ [c_out]
          ∧ well_shaped y) ∧
  (¬ ((∃ lead, t_shape x = lead ++ [c_in]) ∧ t_dtype x = t_dtype W) →
     linear_matmul_forward h' r x = Raise RuntimeError).
Proof.
  intros Hin Hout HW Hinit. unfold tensor_value in HW.
  destruct (objs h !! weight l) as [o|] eqn:Ho; [|done]. simpl in HW.
  destruct (stor h !! o_storage o) as [d|] eqn:Hd; [|done]. simpl in HW.
  injection HW as <-.
  rewrite (linear_matmul_forward_after_init h h' l o d r x Ho Hd Hinit).
  rewrite Hin, Hout. unfold matmul. simpl. split.
  - intros lead Hs Hdt. rewrite Hs, last_snoc, removelast_last.
    rewrite decide_True by done. eexists. split; [done|]. simpl.
    split_and!; try done. unfold well_shaped. simpl.
    rewrite (length_flat_map_const _ _ c_out)
      by (intros i; by rewrite length_map, length_seq).
    rewrite length_seq, numel_app. unfold numel at 3. simpl. lia.
  - intros Hnot. destruct (last (t_shape x)) as [k'|] eqn:Hlast; [|done].
    destruct (decide (k' = c_in ∧ t_dtype x = o_dtype o)) as [[-> Hdt]|]; [|done].
    exfalso. apply Hnot. split; [|done].
    exists (removelast (t_shape x)).
    destruct (t_shape x) as [|a s] using rev_ind; [done|].
    rewrite last_snoc in Hlast. injection Hlast as ->.
    by rewrite removelast_last.
Qed.

End LinearEdgeCases.

Section ExtractionFacts.
Context {F : Type} `{Scalar F}.

Lemma detach_clone_type_succeeds dtype src (h : @Heap F) :
  is_Some (tensor_value h src) →
  ∃ w h', detach_clone_type dtype src h = (Ok w, h').
Proof.
  intros [t Ht]. unfold tensor_value in Ht.
  destruct (objs h !! src) as [o|] eqn:Ho; [|done]. simpl in Ht.
  destruct (stor h !! o_storage o) as [d|] eqn:Hd; [|done].
  unfold detach_clone_type.
  rewrite (se_bind_step _ _ _ _ _ (detach_run h src o Ho)).
  set (od := {| o_storage := o_storage o; o_dtype := o_dtype o;
                o_shape := o_shape o; requires_grad := false |}).
  assert (Hod : objs (set_objs h (objs h ++ [od])) !! length (objs h) = Some od)
    by apply lookup_snoc.
  rewrite (se_bind_step _ _ _ _ _ (clone_run _ _ od d Hod Hd)).
  set (oc := {| o_storage := length (stor h); o_dtype := o_dtype o;
                o_shape := o_shape o; requires_grad := false |}).
  match goal with |- ∃ _ _, type_ _ _ ?hh = _ => set (hc := hh) end.
  assert (Hoc : objs hc !! length (objs h ++ [od]) = Some oc) by apply lookup_snoc.
  assert (Hsc : stor hc !! o_storage oc = Some d) by apply lookup_snoc.
  rewrite (type_run hc dtype _ oc d Hoc Hsc).
  destruct (decide _); eauto.
Qed.

Lemma tensor_value_grows_is_Some (h h' : @Heap F) p :
  heap_grows h h' → is_Some (tensor_value h p) → is_Some (tensor_value h' p).
Proof. intros Hg [t Ht]. exists t. by eapply heap_grows_value. Qed.

(** One pass of the loop over [j]: it completes when the contraction has
    at least two lower-order weights and raises [IndexError] otherwise. *)
Lemma extract_contraction_weights_cases dtype cs aw j (h : @Heap F) c :
  cs !! j = Some c →
  (∀ p, p ∈ contraction_parameters c → is_Some (tensor_value h p)) →
  if decide (2 ≤ length (weights c))
  then ∃ aw' h', extract_contraction_weights dtype cs aw j h = (Ok aw', h')
  else ∃ h', extract_contraction_weights dtype cs aw j h = (Raise IndexError, h').
Proof.
  intros Hc Hvalid. unfold extract_contraction_weights.
  assert (Hidx : ∀ h0 : @Heap F, list_index cs j h0 = (Ok c, h0))
    by (intros h0; unfold list_index; by rewrite Hc).
  rewrite (se_bind_step _ _ _ _ _ (Hidx h)).
  destruct (detach_clone_type_succeeds dtype (weights_max c) h) as (w3 & ha & H3).
  { apply Hvalid. by left. }
  pose proof (grows_detach_clone_type dtype (weights_max c) h) as G3.
  rewrite H3 in G3. simpl in G3.
  rewrite (se_bind_step _ _ _ _ _ H3).
  rewrite (se_bind_step _ _ _ _ _ (dict_set2_insert _ _ _ _ _ _)).
  rewrite (se_bind_step _ _ _ _ _ (Hidx ha)).
  destruct (weights c) as [|p0 [|p1 ws]] eqn:Hw; simpl length.
  - rewrite decide_False by lia. by eexists.
  - rewrite decide_False by lia.
    rewrite se_bind_step with (a := p0) (s1 := ha) by done.
    destruct (detach_clone_type_succeeds dtype p0 ha) as (w2 & hb & H2).
    { eapply (tensor_value_grows_is_Some h ha); [done|]. apply Hvalid.
      unfold contraction_parameters. rewrite Hw. right. by left. }
    rewrite (se_bind_step _ _ _ _ _ H2).
    rewrite (se_bind_step _ _ _ _ _ (dict_set2_insert _ _ _ _ _ _)).
    rewrite (se_bind_step _ _ _ _ _ (Hidx hb)). rewrite Hw.
    by eexists.
  - rewrite decide_True by lia.
    rewrite se_bind_step with (a := p0) (s1 := ha) by done.
    destruct (detach_clone_type_succeeds dtype p0 ha) as (w2 & hb & H2).
    { eapply (tensor_value_grows_is_Some h ha); [done|]. apply Hvalid.
      unfold contraction_parameters. rewrite Hw. right. by left. }
    pose proof (grows_detach_clone_type dtype p0 ha) as G2.
    rewrite H2 in G2. simpl in G2.
    rewrite (se_bind_step _ _ _ _ _ H2).
    rewrite (se_bind_step _ _ _ _ _ (dict_set2_insert _ _ _ _ _ _)).
    rewrite (se_bind_step _ _ _ _ _ (Hidx hb)). rewrite Hw.
    rewrite se_bind_step with (a := p1) (s1 := hb) by done.
    destruct (detach_clone_type_succeeds dtype p1 hb) as (w1 & hc & H1).
    { eapply (tensor_value_grows_is_Some h hb); [by eapply heap_grows_trans|].
      apply Hvalid. unfold contraction_parameters. rewrite Hw.
      right. right. by left. }
    rewrite (se_bind_step _ _ _ _ _ H1). rewrite dict_set2_insert. eauto.
Qed.

Lemma extract_fold_cases dtype cs n a aw (h : @Heap F) :
  a + n = length cs →
  (∀ c p, c ∈ cs → p ∈ contraction_parameters c → is_Some (tensor_value h p)) →
  ((∀ j c, a ≤ j → cs !! j = Some c → 2 ≤ length (weights c)) →
     ∃ aw' h', se_fold (seq a n) (extract_contraction_weights dtype cs) aw h
               = (Ok aw', h')) ∧
  ((∃ j c, a ≤ j ∧ cs !! j = Some c ∧ length (weights c) < 2) →
     (se_fold (seq a n) (extract_contraction_weights dtype cs) aw h).1
     = Raise IndexError).
Proof.
  revert a aw h. induction n as [|n IH]; intros a aw h Hlen Hvalid.
  - split; [simpl; eauto|]. intros (j & c & Hj & Hc & _).
    apply lookup_lt_Some in Hc. lia.
  - destruct (lookup_lt_is_Some_2 cs a) as [c Hc]; [lia|].
    pose proof (extract_contraction_weights_cases dtype cs aw a h c Hc) as Hbody.
    simpl.
    destruct (decide (2 ≤ length (weights c))) as [Hok|Hbad].
    + destruct Hbody as (aw1 & h1 & Hb).
      { intros p Hp. eapply Hvalid; [|done]. by eapply list_elem_of_lookup_2. }
      pose proof (grows_extract_contraction_weights dtype cs aw a h) as G.
      rewrite Hb in G. simpl in G.
      rewrite (se_bind_step _ _ _ _ _ Hb).
      destruct (IH (S a) aw1 h1) as [IHok IHbad]; [lia| |].
      { intros c' p Hc' Hp. eapply (tensor_value_grows_is_Some h h1); [done|].
        eauto. }
      split.
      * intros Hall. apply IHok. intros j c' Hj. apply Hall. lia.
      * intros (j & c' & Hj & Hc' & Hlt). apply IHbad.
        exists j, c'. split_and!; try done.
        destruct (decide (j = a)) as [->|]; [|lia]. simplify_eq. lia.
    + destruct Hbody as (h1 & Hb).
      { intros p Hp. eapply Hvalid; [|done]. by eapply list_elem_of_lookup_2. }
      rewrite (se_bind_raise _ _ _ _ _ Hb). split; [|done].
      intros Hall. specialize (Hall a c (le_n _) Hc). lia.
Qed.

Lemma extract_all_weights_succeeds dtype
    (e : SymmetricContractionE3nn) (h : @Heap F) :
  (∀ c p, c ∈ contractions e → p ∈ contraction_parameters c →
          is_Some (tensor_value h p)) →
  Forall (λ c, 2 ≤ length (weights c)) (contractions e) →
  ∃ aw h', extract_all_weights dtype (SymE3nn e) h = (Ok aw, h').
Proof.
  intros Hvalid Hall. unfold extract_all_weights, contractions_of.
  rewrite se_bind_step with (a := contractions e) (s1 := h) by done.
  destruct (extract_fold_cases dtype (contractions e) (length (contractions e))
              0 ∅ h) as [Hok _]; [done | done |].
  apply Hok. intros j c _ Hc.
  rewrite Forall_forall in Hall. apply Hall. by eapply list_elem_of_lookup_2.
Qed.

(** X8: the extraction needs two lower-order weights per contraction.
    With the weights of the contractions present in the heap, the loop
    that fills [all_weights] completes when every contraction has at least
    two entries in [weights] and raises [IndexError] as soon as one has
    fewer: a contraction of correlation order below three cannot be
    rewritten. *)
Theorem extract_all_weights_needs_two_lower_orders dtype
    (e : SymmetricContractionE3nn) (h : @Heap F) :
  (∀ c p, c ∈ contractions e → p ∈ contraction_parameters c →
          is_Some (tensor_value h p)) →
  (Forall (λ c, 2 ≤ length (weights c)) (contractions e) →
     ∃ aw h', extract_all_weights dtype (SymE3nn e) h = (Ok aw, h')) ∧
  (¬ Forall (λ c, 2 ≤ length (weights c)) (contractions e) →
     (extract_all_weights dtype (SymE3nn e) h).1 = Raise IndexError).
Proof.
  intros Hvalid. unfold extract_all_weights, contractions_of.
  rewrite se_bind_step with (a := contractions e) (s1 := h) by done.
  destruct (extract_fold_cases dtype (contractions e) (length (contractions e))
              0 ∅ h) as [Hok Hbad]; [done | done |].
  split.
  - intros Hall. apply Hok. intros j c _ Hc.
    rewrite Forall_forall in Hall. apply Hall. by eapply list_elem_of_lookup_2.
  - intros Hnot. apply Hbad.
    apply not_Forall_Exists in Hnot; [|intros c; apply _].
    apply Exists_exists in Hnot as (c & Hc & Hlt).
    apply list_elem_of_lookup in Hc as [j Hj].
    simpl in Hlt. exists j, c. split_and!; [lia | done | lia].
Qed.

(** X9: the keys of the dictionary handed to the kernel.  After a
    successful extraction over [n] contractions, [all_weights] has exactly
    the keys [str(0)], ..., [str(n-1)], distinct keys for distinct indices,
    and each inner dictionary has exactly the keys 1, 2 and 3. *)
Theorem extract_all_weights_keys dtype (e : SymmetricContractionE3nn)
    (h h' : @Heap F) aw :
  extract_all_weights dtype (SymE3nn e) h = (Ok aw, h') →
  (∀ k, is_Some (aw !! k) ↔ ∃ j, j < length (contractions e) ∧ k = pretty j) ∧
  (∀ j j' : nat, pretty j = pretty j' → j = j') ∧
  (∀ k inner, aw !! k = Some inner →
     ∀ b, is_Some (inner !! b) ↔ b = 1 ∨ b = 2 ∨ b = 3).
Proof.
  unfold extract_all_weights, contractions_of. intros Hrun.
  rewrite se_bind_step with (a := contractions e) (s1 := h) in Hrun by done.
  apply extract_fold_Ok in Hrun as (_ & Hother & Hin); [|apply NoDup_seq].
  assert (Hkeys : ∀ k, is_Some (aw !! k)
                       ↔ ∃ j, j < length (contractions e) ∧ k = pretty j).
  { intros k. split.
    - intros Hk. destruct (decide (k ∈ pretty <$> seq 0 (length (contractions e))))
        as [Hel|Hnel].
      + apply list_elem_of_fmap in Hel as (j & -> & Hj).
        apply elem_of_seq in Hj. exists j. split; [lia|done].
      + rewrite (Hother k Hnel), lookup_empty in Hk. by destruct Hk.
    - intros (j & Hj & ->).
      destruct (Hin j) as (c & p0 & p1 & w3 & w2 & w1 & h0 & ha & hb & hc & _ & _
                           & _ & _ & _ & _ & _ & _ & Haw).
      { apply elem_of_seq. lia. }
      by rewrite Haw. }
  split; [exact Hkeys|]. split; [intros j j'; apply (inj pretty)|].
  intros k inner Hk b.
  destruct (proj1 (Hkeys k)) as (j & Hj & ->); [by rewrite Hk|].
  destruct (Hin j) as (c & p0 & p1 & w3 & w2 & w1 & h0 & ha & hb & hc & _ & _
                       & _ & _ & _ & _ & _ & _ & Haw).
  { apply elem_of_seq. lia. }
  rewrite Hk in Haw. injection Haw as ->.
  rewrite !lookup_insert_is_Some, lookup_empty. split.
  - intros [Hb | [_ [Hb | [_ [Hb | [_ Hn] ] ] ] ] ]; [by auto | by auto | by auto |].
    by apply is_Some_None in Hn.
  - intros [-> | [-> | ->] ]; auto 10.
Qed.

End ExtractionFacts.

Section RewriteEdgeCases.
Context {F : Type} `{Scalar F}.

Lemma freeze_untouched ps (h : @Heap F) q :
  q ∉ ps → objs (se_for ps (set_requires_grad false) h).2 !! q = objs h !! q.
Proof.
  revert h. induction ps as [|p ps IH]; intros h Hq; [done|].
  apply not_elem_of_cons in Hq as [Hne Hq]. simpl.
  destruct (objs h !! p) as [t|] eqn:Hp.
  - rewrite (se_bind_step _ _ _ _ _ (set_requires_grad_run false p h t Hp)).
    rewrite IH by done. simpl. by rewrite list_lookup_insert_ne.
  - by rewrite (se_bind_raise _ _ _ _ _ (set_requires_grad_None false p h Hp)).
Qed.

Lemma freeze_length ps (h : @Heap F) :
  length (objs (se_for ps (set_requires_grad false) h).2) = length (objs h).
Proof.
  revert h. induction ps as [|p ps IH]; intros h; [done|]. simpl.
  destruct (objs h !! p) as [t|] eqn:Hp.
  - rewrite (se_bind_step _ _ _ _ _ (set_requires_grad_run false p h t Hp)).
    rewrite IH. simpl. by rewrite length_insert.
  - by rewrite (se_bind_raise _ _ _ _ _ (set_requires_grad_None false p h Hp)).
Qed.

(** X10: freezing touches flags only.  Whatever its outcome, the loop
    [for param in ...: param.requires_grad = False] leaves every storage
    and every model object as it was, creates no tensor object, keeps the
    value every tensor object denotes, and leaves the objects that are not
    among the parameters identical. *)
Theorem freeze_changes_flags_only ps (h : @Heap F) :
  let h1 := (se_for ps (set_requires_grad false) h).2 in
  stor h1 = stor h ∧ models h1 = models h ∧
  length (objs h1) = length (objs h) ∧
  (∀ q, tensor_value h1 q = tensor_value h q) ∧
  (∀ q, q ∉ ps → objs h1 !! q = objs h !! q).
Proof.
  destruct (freeze_spec ps h) as (Hs & Hm & _).
  split_and!; try done.
  - apply freeze_length.
  - apply freeze_value.
  - apply freeze_untouched.
Qed.

(** X11: a model without parameters.  [get_model_dtype] takes the first
    element of [model.parameters()]; when there is none, the rewrite raises
    [StopIteration] and the heap is left exactly as it was. *)
Theorem optimize_without_parameters_raises model (h : @Heap F) m :
  models h !! model = Some m →
  parameters m = [] →
  optimize_cuda_mace model h = (Raise StopIteration, h).
Proof.
  intros Hm Hps. unfold optimize_cuda_mace.
  rewrite (se_bind_step _ _ _ _ _ (model_parameters_run _ _ _ Hm)).
  rewrite Hps. simpl se_for.
  rewrite se_bind_step with (a := ()) (s1 := h) by done.
  unfold get_model_dtype.
  unfold se_bind at 1. unfold se_bind at 1.
  by rewrite (model_parameters_run _ _ _ Hm), Hps.
Qed.

(** The rewrite up to the loop over the layers: with every parameter in
    the heap and at least one parameter, it freezes, reads the dtype of the
    first parameter, installs the new spherical harmonics and enters the
    loop. *)
Lemma optimize_cuda_mace_prefix model (h : @Heap F) m p ps :
  models h !! model = Some m →
  (∀ q, q ∈ parameters m → is_Some (objs h !! q)) →
  parameters m = p :: ps →
  ∃ hf o o',
    se_for (parameters m) (set_requires_grad false) h = (Ok (), hf) ∧
    objs h !! p = Some o ∧ objs hf !! p = Some o' ∧ o_dtype o' = o_dtype o ∧
    optimize_cuda_mace model h
    = se_bind (se_for (seq 0 (Z.to_nat (num_interactions m)))
                 (optimize_layer model (o_dtype o)))
        (λ _, se_ret model)
        (set_models hf
           (<[model := set_spherical_harmonics
                         {| sh_irreps := spherical_harmonics_irreps 3;
                            sh_normalize := true;
                            sh_normalization := "component";
                            sh_backend := "opt" |} m]> (models h))).
Proof.
  intros Hm Hall Hps.
  destruct (freeze_spec (parameters m) h) as (_ & Hmf & _ & Hsome & _ & Hok).
  destruct (se_for (parameters m) (set_requires_grad false) h) as [rf hf] eqn:Hf.
  simpl in *. rewrite (Hok Hall) in *.
  destruct (Hall p) as [o Ho]; [rewrite Hps; by left|].
  destruct (Hsome p o Ho) as (o' & Ho' & _ & Hdt & _).
  exists hf, o, o'. split_and!; try done.
  unfold optimize_cuda_mace.
  rewrite (se_bind_step _ _ _ _ _ (model_parameters_run _ _ _ Hm)).
  rewrite (se_bind_step _ _ _ _ _ Hf).
  assert (Hmf' : models hf !! model = Some m) by by rewrite Hmf.
  assert (Hdtype : get_model_dtype model hf = (Ok (o_dtype o), hf)).
  { unfold get_model_dtype.
    rewrite (se_bind_step _ _ _ _ _ (model_parameters_run _ _ _ Hmf')).
    rewrite Hps. rewrite (se_bind_step _ _ _ _ _ (get_obj_run _ _ _ Ho')).
    by rewrite Hdt. }
  rewrite (se_bind_step _ _ _ _ _ Hdtype).
  rewrite (se_bind_step _ _ _ _ _ (get_model_run _ _ _ Hmf')).
  rewrite (se_bind_step _ _ _ _ _ (update_model_run _ _ _ _ Hmf')).
  rewrite Hmf.
  assert (Hms : models (set_models hf
             (<[model := set_spherical_harmonics
                         {| sh_irreps := spherical_harmonics_irreps 3;
                            sh_normalize := true;
                            sh_normalization := "component";
                            sh_backend := "opt" |} m]> (models h))) !! model
          = Some (set_spherical_harmonics
                         {| sh_irreps := spherical_harmonics_irreps 3;
                            sh_normalize := true;
                            sh_normalization := "component";
                            sh_backend := "opt" |} m))
    by (simpl; by eapply lookup_insert_same).
  by rewrite (se_bind_step _ _ _ _ _ (get_model_run _ _ _ Hms)).
Qed.

(** X12: a model with no layer to rewrite.  When [num_interactions] is
    zero or negative, the rewrite returns the model with its parameters
    frozen and its spherical harmonics replaced, and with every interaction
    and product block as it was. *)
Theorem optimize_with_no_layers model (h : @Heap F) m :
  models h !! model = Some m →
  (∀ q, q ∈ parameters m → is_Some (objs h !! q)) →
  parameters m ≠ [] →
  (num_interactions m ≤ 0)%Z →
  ∃ hf m',
    se_for (parameters m) (set_requires_grad false) h = (Ok (), hf) ∧
    optimize_cuda_mace model h
    = (Ok model, set_models hf (<[model := m']> (models h))) ∧
    interactions m' = interactions m ∧ products m' = products m ∧
    spherical_harmonics m'
    = {| sh_irreps := spherical_harmonics_irreps 3; sh_normalize := true;
         sh_normalization := "component"; sh_backend := "opt" |}.
Proof.
  intros Hm Hall Hne Hn.
  destruct (parameters m) as [|p ps] eqn:Hps; [done|].
  destruct (optimize_cuda_mace_prefix model h m p ps Hm) as
    (hf & o & o' & Hf & _ & _ & _ & Hrun); [by rewrite Hps | done |].
  rewrite Hps in Hf. exists hf. eexists. split; [done|].
  rewrite Hrun. replace (Z.to_nat (num_interactions m)) with 0 by lia.
  simpl. split_and!; reflexivity.
Qed.

(** When the model has a layer, an exception raised by the construction
    of the first [linear_up] replacement is the outcome of the rewrite. *)
Lemma optimize_first_layer_raises model (h : @Heap F) m p ps blk :
  models h !! model = Some m →
  (∀ q, q ∈ parameters m → is_Some (objs h !! q)) →
  parameters m = p :: ps →
  (0 < num_interactions m)%Z →
  interactions m !! 0 = Some blk →
  ∃ hf,
    se_for (parameters m) (set_requires_grad false) h = (Ok (), hf) ∧
    ∀ e h1,
      linear_matmul_init (linear_up blk)
        (set_models hf
           (<[model := set_spherical_harmonics
                         {| sh_irreps := spherical_harmonics_irreps 3;
                            sh_normalize := true;
                            sh_normalization := "component";
                            sh_backend := "opt" |} m]> (models h)))
      = (Raise e, h1) →
      optimize_cuda_mace model h = (Raise e, h1).
Proof.
  intros Hm Hall Hps Hn Hblk.
  destruct (optimize_cuda_mace_prefix model h m p ps Hm Hall Hps) as
    (hf & o & o' & Hf & _ & _ & _ & Hrun).
  exists hf. split; [done|]. intros e h1 Hinit. rewrite Hrun.
  destruct (Z.to_nat (num_interactions m)) as [|n] eqn:Hnat; [lia|].
  simpl seq. simpl se_for.
  set (sh := {| sh_irreps := _ |}) in *.
  assert (Hms : <[model := set_spherical_harmonics sh m]> (models h) !! model
                = Some (set_spherical_harmonics sh m))
    by by eapply lookup_insert_same.
  apply se_bind_raise, se_bind_raise. unfold optimize_layer.
  rewrite (se_bind_step _ _ _ _ _
             (get_interaction_step model 0 hf _ _ blk Hms Hblk)).
  by apply se_bind_raise.
Qed.

End RewriteEdgeCases.

Section FrameFacts.
Context {F : Type} `{Scalar F}.

Lemma same_frame_refl (m : @MACE F) : same_frame m m.
Proof. by repeat split. Qed.

Lemma same_frame_trans (m1 m2 m3 : @MACE F) :
  same_frame m1 m2 → same_frame m2 m3 → same_frame m1 m3.
Proof. unfold same_frame. intros (?&?&?&?&?&?) (?&?&?&?&?&?). split_and!; congruence. Qed.

Lemma model_frame_refl model (h : @Heap F) : model_frame model h h.
Proof.
  split_and!; try done. intros m Hm. exists m. split; [done|apply same_frame_refl].
Qed.

Lemma model_frame_trans model (h1 h2 h3 : @Heap F) :
  model_frame model h1 h2 → model_frame model h2 h3 → model_frame model h1 h3.
Proof.
  intros (Hl1 & Ho1 & Hm1) (Hl2 & Ho2 & Hm2). split_and!.
  - congruence.
  - intros k Hk. rewrite Ho2, Ho1; done.
  - intros m Hm. destruct (Hm1 m Hm) as (m' & Hm' & Hf1).
    destruct (Hm2 m' Hm') as (m'' & Hm'' & Hf2).
    exists m''. split; [done|]. by eapply same_frame_trans.
Qed.

Lemma model_frame_models_eq model (h h' : @Heap F) :
  models h' = models h → model_frame model h h'.
Proof.
  intros Heq. split_and!; try (by rewrite Heq).
  intros m Hm. exists m. rewrite Heq. split; [done|apply same_frame_refl].
Qed.

Lemma frames_ret {A} model (a : A) : frames model (se_ret (S := @Heap F) a).
Proof. intros h. apply model_frame_refl. Qed.

Lemma frames_raise {A} model e :
  frames model (se_raise (S := @Heap F) (A := A) e).
Proof. intros h. apply model_frame_refl. Qed.

Lemma frames_bind {A B} model (m : SE (@Heap F) A) (k : A → SE (@Heap F) B) :
  frames model m → (∀ a, frames model (k a)) → frames model (se_bind m k).
Proof.
  intros Hm Hk h. unfold se_bind. specialize (Hm h).
  destruct (m h) as [[a|e] h1]; simpl in *; [|done].
  eapply model_frame_trans; [done|apply Hk].
Qed.

Lemma frames_for {A} model (xs : list A) (body : A → SE (@Heap F) unit) :
  (∀ x, frames model (body x)) → frames model (se_for xs body).
Proof.
  intros Hb. induction xs as [|x xs IH]; simpl; [apply frames_ret|].
  apply frames_bind; [apply Hb | by intros _].
Qed.

Lemma frames_tensor_op {A} model (c : SE (@Heap F) A) :
  tensor_op c → frames model c.
Proof. intros Hc h. apply model_frame_models_eq. by apply tensor_op_models. Qed.

Lemma frames_get_model model k : frames model (get_model (F := F) k).
Proof.
  intros h. apply model_frame_models_eq. unfold get_model, of_option.
  by destruct (models h !! k).
Qed.

Lemma frames_update_model model f :
  (∀ m : @MACE F, same_frame m (f m)) → frames model (update_model model f).
Proof.
  intros Hf h. unfold update_model, se_bind, get_model, of_option, se_modify.
  destruct (models h !! model) as [m|] eqn:Hm; simpl; [|apply model_frame_refl].
  split_and!; simpl.
  - by rewrite length_insert.
  - intros k Hk. by rewrite list_lookup_insert_ne.
  - intros m0 Hm0. rewrite Hm in Hm0. injection Hm0 as <-. exists (f m).
    split; [by eapply lookup_insert_same | apply Hf].
Qed.

Lemma frames_get_interaction model i :
  frames model (get_interaction (F := F) model i).
Proof.
  unfold get_interaction. apply frames_bind; [apply frames_get_model|].
  intros m. apply frames_tensor_op, tensor_op_list_index.
Qed.

Lemma frames_get_product model i : frames model (get_product (F := F) model i).
Proof.
  unfold get_product. apply frames_bind; [apply frames_get_model|].
  intros m. apply frames_tensor_op, tensor_op_list_index.
Qed.

Lemma frames_set_interaction model i f :
  frames model (set_interaction (F := F) model i f).
Proof.
  unfold set_interaction. apply frames_bind; [apply frames_get_interaction|].
  intros _. apply frames_update_model. intros m.
  unfold same_frame. simpl. split_and!; try done. by rewrite length_alter.
Qed.

Lemma frames_set_product model i f :
  frames model (set_product (F := F) model i f).
Proof.
  unfold set_product. apply frames_bind; [apply frames_get_product|].
  intros _. apply frames_update_model. intros m.
  unfold same_frame. simpl. split_and!; try done. by rewrite length_alter.
Qed.

Lemma frames_set_requires_grad model b p :
  frames model (set_requires_grad (F := F) b p).
Proof.
  intros h. apply model_frame_models_eq.
  unfold set_requires_grad, se_bind, get_obj, of_option, se_modify.
  by destruct (objs h !! p).
Qed.

Lemma frames_model_parameters model :
  frames model (model_parameters (F := F) model).
Proof.
  unfold model_parameters. apply frames_bind; [apply frames_get_model|].
  intros m. apply frames_ret.
Qed.

Lemma frames_get_model_dtype model :
  frames model (get_model_dtype (F := F) model).
Proof.
  unfold get_model_dtype. apply frames_bind; [apply frames_model_parameters|].
  intros [|p ps]; [apply frames_raise|].
  apply frames_tensor_op. solve_tensor_op.
Qed.

Lemma frames_optimize_layer model dtype i :
  frames model (optimize_layer (F := F) model dtype i).
Proof.
  unfold optimize_layer.
  repeat first
    [ apply frames_get_interaction | apply frames_get_product
    | apply frames_set_interaction | apply frames_set_product
    | apply frames_tensor_op, tensor_op_linear_matmul_init
    | apply frames_tensor_op, tensor_op_linear_to_cuda
    | apply frames_tensor_op, tensor_op_extract_all_weights
    | apply frames_raise
    | apply frames_bind; [|intros ?]
    | case_match ].
Qed.

Lemma frames_optimize_cuda_mace model :
  frames model (optimize_cuda_mace (F := F) model).
Proof.
  unfold optimize_cuda_mace.
  repeat first
    [ apply frames_model_parameters | apply frames_get_model_dtype
    | apply frames_get_model | apply frames_optimize_layer | apply frames_ret
    | apply frames_for; intros ?
    | apply frames_set_requires_grad
    | apply frames_update_model; intros ?; by repeat split
    | apply frames_bind; [|intros ?] ].
Qed.

(** X13: what the rewrite never touches.  Whatever the outcome of
    [optimize_cuda_mace], also when it raises half-way, the heap it leaves
    has the same model objects at the same places, every model other than
    the one it was given is unchanged, and the one it was given has the
    same [num_interactions], the same node embedding, the same parameters
    outside the blocks and as many interaction and product blocks as
    before. *)
Theorem optimize_cuda_mace_keeps_the_frame model (h : @Heap F) m :
  models h !! model = Some m →
  let h' := (optimize_cuda_mace model h).2 in
  length (models h') = length (models h) ∧
  (∀ k, k ≠ model → models h' !! k = models h !! k) ∧
  ∃ m', models h' !! model = Some m' ∧
        num_interactions m' = num_interactions m ∧
        node_embedding_irreps_in m' = node_embedding_irreps_in m ∧
        embedding_params m' = embedding_params m ∧
        readout_params m' = readout_params m ∧
        length (interactions m') = length (interactions m) ∧
        length (products m') = length (products m).
Proof.
  intros Hm h'. destruct (frames_optimize_cuda_mace model h) as (Hl & Ho & Hf).
  split; [done|]. split; [done|].
  destruct (Hf m Hm) as (m' & Hm' & Hsame). by exists m'.
Qed.

End FrameFacts.

Section RewriteTotality.
Context {F : Type} `{Scalar F}.

Lemma linear_matmul_init_succeeds (h : @Heap F) lin :
  linear_ok h lin → ∃ r h', linear_matmul_init lin h = (Ok r, h').
Proof.
  intros (l & o & -> & Ho & [d Hd] & Hn).
  rewrite (linear_matmul_init_unfold h l o Ho), numel_pair.
  rewrite decide_True by done. rewrite Hd. eauto.
Qed.

Lemma linear_ok_grows (h h' : @Heap F) lin :
  heap_grows h h' → linear_ok h lin → linear_ok h' lin.
Proof.
  intros Hg (l & o & -> & Ho & [d Hd] & Hn). exists l, o. split_and!; try done.
  - by eapply heap_grows_obj.
  - exists d. by eapply heap_grows_storage.
Qed.

Lemma layer_ok_grows (h h' : @Heap F) blk pb :
  heap_grows h h' → layer_ok h blk pb → layer_ok h' blk pb.
Proof.
  intros Hg (Hup & Hlin & (e & He & Hval & Hlen) & Hpl).
  split_and!; try done; try by eapply linear_ok_grows.
  exists e. split_and!; try done.
  intros c p Hc Hp. eapply tensor_value_grows_is_Some; [done|]. eauto.
Qed.

Lemma linear_ok_freeze ps (h : @Heap F) lin :
  linear_ok h lin →
  linear_ok (se_for ps (set_requires_grad false) h).2 lin.
Proof.
  intros (l & o & -> & Ho & Hd & Hn).
  destruct (freeze_spec ps h) as (Hs & _ & _ & Hsome & _).
  destruct (Hsome _ _ Ho) as (o' & Ho' & Hst & _ & Hsh & _).
  exists l, o'. split_and!; try done.
  - by rewrite Hs, Hst.
  - by rewrite Hsh.
Qed.

Lemma layer_ok_freeze ps (h : @Heap F) blk pb :
  layer_ok h blk pb →
  layer_ok (se_for ps (set_requires_grad false) h).2 blk pb.
Proof.
  intros (Hup & Hlin & (e & He & Hval & Hlen) & Hpl).
  split_and!; try done; try by apply linear_ok_freeze.
  exists e. split_and!; try done.
  intros c p Hc Hp. rewrite freeze_value. eauto.
Qed.

Lemma layer_ok_models (h : @Heap F) ms blk pb :
  layer_ok h blk pb → layer_ok (set_models h ms) blk pb.
Proof. done. Qed.

(** One pass of the loop over the layers completes on a layer it can
    rewrite. *)
Lemma optimize_layer_succeeds model dtype i (h : @Heap F) m blk pb :
  models h !! model = Some m →
  interactions m !! i = Some blk → products m !! i = Some pb →
  layer_ok h blk pb →
  ∃ h', optimize_layer model dtype i h = (Ok (), h').
Proof.
  intros Hm Hblk Hpb (Hup & [l_lin Hlin] & (e & He & Hval & Hlen) & Hpl).
  destruct (linear_matmul_init_succeeds h _ Hup) as (lu & h1 & Hlu).
  pose proof (grows_linear_matmul_init (linear_up blk) h) as G1.
  rewrite Hlu in G1. simpl in G1.
  destruct (extract_all_weights_succeeds dtype e h1) as (aw & h2 & Haw).
  { intros c p Hc Hp. eapply tensor_value_grows_is_Some; [done|]. eauto. }
  { done. }
  pose proof (grows_extract_all_weights dtype (SymE3nn e) h1) as G2.
  rewrite Haw in G2. simpl in G2.
  destruct (linear_matmul_init_succeeds h2 (pb_linear pb)) as (pl & h3 & Hplr).
  { eapply linear_ok_grows; [|done]. by eapply heap_grows_trans. }
  unfold optimize_layer.
  replace h with (set_models h (models h)) by by destruct h.
  set (ms := models h) in *.
  rewrite (se_bind_step _ _ _ _ _ (get_interaction_step model i h ms m blk Hm Hblk)).
  rewrite (se_bind_step _ _ _ _ _ (tensor_op_run _ _ ms _ _
        (tensor_op_linear_matmul_init _) Hlu)).
  rewrite (se_bind_step _ _ _ _ _
             (set_interaction_step model i _ h1 ms m blk Hm Hblk)).
  set (m1 := set_interactions _ m).
  assert (Hm1 : <[model := m1]> ms !! model = Some m1)
    by by eapply lookup_insert_same.
  assert (Hblk1 : interactions m1 !! i = Some (set_linear_up (LinMatmul lu) blk))
    by by eapply lookup_insert_same.
  rewrite (se_bind_step _ _ _ _ _
             (get_interaction_step model i h1 _ m1 _ Hm1 Hblk1)).
  simpl linear. rewrite Hlin. unfold linear_to_cuda.
  rewrite se_bind_step with (s1 := set_models h1 (<[model := m1]> ms))
    (a := {| cl_irreps_in := irreps_in l_lin;
             cl_irreps_out := irreps_out l_lin;
             cl_instructions := instructions l_lin;
             cl_weight := weight l_lin |}) by done.
  rewrite (se_bind_step _ _ _ _ _
             (set_interaction_step model i _ h1 _ m1 _ Hm1 Hblk1)).
  rewrite list_insert_insert_eq.
  set (m2 := set_interactions _ m1).
  assert (Hm2 : <[model := m2]> ms !! model = Some m2)
    by by eapply lookup_insert_same.
  assert (Hblk2 : interactions m2 !! i
            = Some (set_linear (LinCuda {| cl_irreps_in := irreps_in l_lin;
                             cl_irreps_out := irreps_out l_lin;
                             cl_instructions := instructions l_lin;
                             cl_weight := weight l_lin |})
                      (set_linear_up (LinMatmul lu) blk)))
    by by eapply lookup_insert_same.
  rewrite (se_bind_step _ _ _ _ _
             (set_interaction_step model i _ h1 _ m2 _ Hm2 Hblk2)).
  rewrite list_insert_insert_eq.
  set (m3 := set_interactions _ m2).
  assert (Hm3 : <[model := m3]> ms !! model = Some m3)
    by by eapply lookup_insert_same.
  pose proof (lookup_insert_same _ _ _
                (set_tp InvariantMessagePassingTP
                   (set_linear (LinCuda {| cl_irreps_in := irreps_in l_lin;
                             cl_irreps_out := irreps_out l_lin;
                             cl_instructions := instructions l_lin;
                             cl_weight := weight l_lin |})
                      (set_linear_up (LinMatmul lu) blk))) Hblk2) as Hblk3.
  change (<[i := _]> (interactions m2)) with (interactions m3) in Hblk3.
  rewrite (se_bind_step _ _ _ _ _
             (get_interaction_step model i h1 _ m3 _ Hm3 Hblk3)).
  simpl class_name.
  set (fw := if str_contains "Residual" (class_name blk)
             then bound_invariant_residual_interaction_forward
             else bound_invariant_interaction_forward).
  assert (Hfw : (if str_contains "Residual" (class_name blk)
                 then set_interaction (F := F) model i
                        (set_forward bound_invariant_residual_interaction_forward)
                 else set_interaction model i
                        (set_forward bound_invariant_interaction_forward))
                = set_interaction model i (set_forward fw))
    by (unfold fw; by destruct (str_contains _ _)).
  rewrite Hfw. clear Hfw.
  rewrite (se_bind_step _ _ _ _ _
             (set_interaction_step model i _ h1 _ m3 _ Hm3 Hblk3)).
  rewrite list_insert_insert_eq.
  set (m4 := set_interactions _ m3).
  assert (Hm4 : <[model := m4]> ms !! model = Some m4)
    by by eapply lookup_insert_same.
  assert (Hpb4 : products m4 !! i = Some pb) by done.
  rewrite (se_bind_step _ _ _ _ _
             (get_product_step model i h1 _ m4 pb Hm4 Hpb4)).
  rewrite He.
  rewrite (se_bind_step _ _ _ _ _ (tensor_op_run _ _ _ _ _
        (tensor_op_extract_all_weights _ _) Haw)).
  rewrite (se_bind_step _ _ _ _ _
             (get_product_step model i h2 _ m4 pb Hm4 Hpb4)).
  rewrite He.
  rewrite (se_bind_step _ _ _ _ _
             (set_product_step model i _ h2 _ m4 pb Hm4 Hpb4)).
  rewrite list_insert_insert_eq.
  set (m5 := set_products _ m4).
  assert (Hm5 : <[model := m5]> ms !! model = Some m5)
    by by eapply lookup_insert_same.
  pose proof (lookup_insert_same _ _ _
    (set_pb_symmetric_contractions
       (SymWrapper {| symmetric_contractions :=
          {| cc_coupling_irreps := coupling_of (sc_irreps_in e);
             cc_irreps_out := sc_irreps_out e;
             cc_all_weights := aw;
             nthreadX := 32; nthreadY := 4; nthreadZ := 1;
             cc_dtype := dtype |} |}) pb) Hpb4) as Hpb5.
  change (<[i := _]> (products m4)) with (products m5) in Hpb5.
  rewrite (se_bind_step _ _ _ _ _
             (get_product_step model i h2 _ m5 _ Hm5 Hpb5)).
  simpl pb_linear.
  rewrite (se_bind_step _ _ _ _ _ (tensor_op_run _ _ _ _ _
        (tensor_op_linear_matmul_init _) Hplr)).
  rewrite (set_product_step model i _ h3 _ m5 _ Hm5 Hpb5).
  eauto.
Qed.

Lemma layers_loop_succeeds model dtype n a (h : @Heap F) m :
  models h !! model = Some m →
  (∀ j, a ≤ j < a + n →
     ∃ blk pb, interactions m !! j = Some blk ∧ products m !! j = Some pb
               ∧ layer_ok h blk pb) →
  ∃ h', se_for (seq a n) (optimize_layer model dtype) h = (Ok (), h').
Proof.
  revert a h m. induction n as [|n IH]; intros a h m Hm Hok; [simpl; eauto|].
  destruct (Hok a) as (blk & pb & Hblk & Hpb & Hl); [lia|].
  destruct (optimize_layer_succeeds model dtype a h m blk pb Hm Hblk Hpb Hl)
    as (h1 & Hrun).
  pose proof (grows_optimize_layer model dtype a h) as G.
  rewrite Hrun in G. simpl in G.
  simpl. rewrite (se_bind_step _ _ _ _ _ Hrun).
  apply optimize_layer_Ok in Hrun
    as (m0 & blk0 & pb0 & blk' & pb' & h3 & Hm0 & _ & _ & _ & ->).
  rewrite Hm in Hm0. injection Hm0 as <-.
  eapply IH.
  - simpl. by eapply lookup_insert_same.
  - intros j Hj. destruct (Hok j) as (bj & pj & Hbj & Hpj & Hlj); [lia|].
    exists bj, pj. simpl. rewrite !list_lookup_insert_ne by lia.
    split_and!; try done. by eapply layer_ok_grows.
Qed.

(** X14: the rewrite completes on a model it can rewrite.  When the model
    has a parameter, its parameters are in the heap, and each of its first
    [num_interactions] layers has e3nn linear layers whose weights have
    [num_channels_in * num_channels_out] elements and an e3nn contraction
    with at least two lower-order weights per part, [optimize_cuda_mace]
    returns, and returns the model it was given. *)
Theorem optimize_cuda_mace_succeeds model (h : @Heap F) m :
  models h !! model = Some m →
  parameters m ≠ [] →
  (∀ q, q ∈ parameters m → is_Some (objs h !! q)) →
  (∀ j, j < Z.to_nat (num_interactions m) →
     ∃ blk pb, interactions m !! j = Some blk ∧ products m !! j = Some pb
               ∧ layer_ok h blk pb) →
  ∃ h', optimize_cuda_mace model h = (Ok model, h').
Proof.
  intros Hm Hne Hall Hok.
  destruct (parameters m) as [|p ps] eqn:Hps; [done|].
  destruct (optimize_cuda_mace_prefix model h m p ps Hm) as
    (hf & o & o' & Hf & _ & _ & _ & Hrun); [by rewrite Hps | done |].
  rewrite Hrun.
  set (hs := set_models hf _).
  destruct (layers_loop_succeeds model (o_dtype o)
              (Z.to_nat (num_interactions m)) 0 hs
              (set_spherical_harmonics
                 {| sh_irreps := spherical_harmonics_irreps 3;
                    sh_normalize := true; sh_normalization := "component";
                    sh_backend := "opt" |} m)) as (h' & Hloop).
  - unfold hs. simpl. by eapply lookup_insert_same.
  - intros j Hj. destruct (Hok j) as (blk & pb & Hb & Hp & Hl); [lia|].
    exists blk, pb. split_and!; try done.
    apply layer_ok_models.
    replace hf with (se_for (parameters m) (set_requires_grad false) h).2
      by by rewrite Hf.
    by apply layer_ok_freeze.
  - exists h'. by rewrite (se_bind_step _ _ _ _ _ Hloop).
Qed.

Lemma se_for_app {S A} (xs ys : list A) (body : A → SE S unit) s :
  se_for (xs ++ ys) body s = se_bind (se_for xs body) (λ _, se_for ys body) s.
Proof.
  revert s. induction xs as [|x xs IH]; intros s; [done|].
  simpl. unfold se_bind in *. destruct (body x s) as [[[]|e] s1]; [|done].
  apply IH.
Qed.

(** X21: the layers are counted by [num_interactions].  When the model
    has fewer interaction blocks than [num_interactions] says, the rewrite
    raises [IndexError] after it has rewritten the blocks there are: in
    the heap it leaves, every block of the model has its [linear_up] and
    product [linear] replaced by [linear_matmul], its [linear] and [tp] by
    the accelerated ones, its [forward] rebound and its contraction
    wrapped.  When the model has more blocks and the rewrite returns, the
    blocks past the count are as they were. *)
Theorem optimize_counts_layers_by_num_interactions model (h : @Heap F) m :
  models h !! model = Some m →
  parameters m ≠ [] →
  (∀ q, q ∈ parameters m → is_Some (objs h !! q)) →
  (length (interactions m) < Z.to_nat (num_interactions m) →
   (∀ j, j < length (interactions m) →
      ∃ blk pb, interactions m !! j = Some blk ∧ products m !! j = Some pb
                ∧ layer_ok h blk pb) →
   ∃ h' m',
     optimize_cuda_mace model h = (Raise IndexError, h') ∧
     models h' !! model = Some m' ∧
     length (interactions m') = length (interactions m) ∧
     ∀ j, j < length (interactions m) →
       ∃ blk' pb' lu lc w pl,
         interactions m' !! j = Some blk' ∧ products m' !! j = Some pb' ∧
         linear_up blk' = LinMatmul lu ∧
         linear blk' = LinCuda lc ∧
         tp blk' = InvariantMessagePassingTP ∧
         forward blk' ≠ class_forward ∧
         pb_symmetric_contractions pb' = SymWrapper w ∧
         pb_linear pb' = LinMatmul pl) ∧
  (∀ r h' m' j, optimize_cuda_mace model h = (Ok r, h') →
     models h' !! model = Some m' →
     Z.to_nat (num_interactions m) ≤ j →
     interactions m' !! j = interactions m !! j
     ∧ products m' !! j = products m !! j).
Proof.
  intros Hm Hne Hall. split.
  - intros Hlt Hok.
    destruct (parameters m) as [|p ps] eqn:Hps; [done|].
    destruct (optimize_cuda_mace_prefix model h m p ps Hm) as
      (hf & o & o' & Hf & _ & _ & _ & Hrun); [by rewrite Hps | done |].
    rewrite Hrun. set (hs := set_models hf _).
    set (sh := {| sh_irreps := _ |}) in *.
    set (len := length (interactions m)) in *.
    replace (Z.to_nat (num_interactions m))
      with (len + S (Z.to_nat (num_interactions m) - len - 1)) by lia.
    rewrite seq_app. unfold se_bind at 1. rewrite se_for_app.
    assert (Hms : models hs !! model = Some (set_spherical_harmonics sh m))
      by (unfold hs; simpl; by eapply lookup_insert_same).
    destruct (layers_loop_succeeds model (o_dtype o) len 0 hs _ Hms)
      as (h1 & Hloop).
    { intros j Hj. destruct (Hok j) as (blk & pb & Hb & Hp & Hl); [lia|].
      exists blk, pb. split_and!; try done. apply layer_ok_models.
      replace hf with (se_for (parameters m) (set_requires_grad false) h).2
        by by rewrite Hf.
      by apply layer_ok_freeze. }
    rewrite (se_bind_step _ _ _ _ _ Hloop).
    destruct (layers_loop_Ok _ _ _ _ _ _ _ Hloop Hms)
      as (m' & Hm' & _ & _ & _ & _ & Hli & _ & _ & Hin).
    exists h1, m'.
    assert (Hnone : interactions m' !! len = None).
    { apply lookup_ge_None. rewrite Hli. simpl. unfold len. lia. }
    split_and!; [| done | by rewrite Hli |].
    + simpl se_for. unfold optimize_layer, get_interaction.
      unfold se_bind at 1. unfold se_bind at 1. unfold se_bind at 1.
      rewrite (get_model_run _ _ _ Hm'). unfold list_index.
      by rewrite Hnone.
    + intros j Hj.
      destruct (Hin j) as (blk & pb & blk' & pb' & hj & hj' & _ & _ & Hb' & Hp'
                           & _ & _ & Hlr); [lia|].
      apply layer_rewritten_block in Hlr
        as (_ & _ & _ & _ & Htp & [lu Hlu] & [lc Hlc] & Hfw & [w Hw] & [pl Hpl]).
      exists blk', pb', lu, lc, w, pl. split_and!; try done.
      rewrite Hfw. by destruct (str_contains _ _).
  - intros r h' m' j Hrun Hm' Hj.
    apply optimize_cuda_mace_Ok in Hrun
      as (m0 & hf & p & ps & o & m2 & -> & Hm0 & _ & _ & _ & Hms & _ & _ & _ & _
          & _ & Hout & _).
    rewrite Hm in Hm0. injection Hm0 as <-.
    rewrite Hms in Hm'. erewrite lookup_insert_same in Hm' by done.
    injection Hm' as <-. apply Hout. lia.
Qed.

(** X22: the rewrite never writes to a tensor that exists.  Whatever the
    outcome of [optimize_cuda_mace], every storage of the heap is as it
    was, new storages come after them, no tensor object is removed, and
    every tensor object denotes the value it denoted: freezing changes
    flags, and everything else allocates. *)
Theorem optimize_cuda_mace_preserves_values model (h : @Heap F) :
  let h' := (optimize_cuda_mace model h).2 in
  stor h `prefix_of` stor h' ∧
  length (objs h) ≤ length (objs h') ∧
  ∀ q t, tensor_value h q = Some t → tensor_value h' q = Some t.
Proof.
  intros h'. unfold h', optimize_cuda_mace.
  destruct (models h !! model) as [m|] eqn:Hm.
  2:{ assert (Hp : model_parameters model h = (Raise DanglingReference, h)).
      { unfold model_parameters, get_model, of_option, se_bind. by rewrite Hm. }
      rewrite (se_bind_raise _ _ _ _ _ Hp). simpl. split_and!; done. }
  rewrite (se_bind_step _ _ _ _ _ (model_parameters_run _ _ _ Hm)).
  destruct (freeze_spec (parameters m) h) as (Hs & _).
  pose proof (freeze_length (parameters m) h) as Hl.
  pose proof (freeze_value (parameters m) h) as Hv.
  destruct (se_for (parameters m) (set_requires_grad false) h)
    as [[[]|e] hf] eqn:Hf; simpl in Hs, Hl, Hv.
  - pose proof (optimize_cuda_mace_after_freeze model h hf m Hm Hf) as Hg.
    unfold optimize_cuda_mace in Hg.
    rewrite (se_bind_step _ _ _ _ _ (model_parameters_run _ _ _ Hm)) in Hg.
    split_and!.
    + rewrite <- Hs. apply Hg.
    + rewrite <- Hl. apply prefix_length, Hg.
    + intros q t Hq. eapply heap_grows_value; [exact Hg|]. by rewrite Hv.
  - rewrite (se_bind_raise _ _ _ _ _ Hf). simpl. split_and!.
    + by rewrite Hs.
    + by rewrite Hl.
    + intros q t Hq. by rewrite Hv.
Qed.

End RewriteTotality.

Section RewriteOutcomes.
Context {F : Type} `{Scalar F}.

Lemma freeze_Ok_dom ps (h hf : @Heap F) :
  se_for ps (set_requires_grad false) h = (Ok (), hf) →
  ∀ p, p ∈ ps → is_Some (objs h !! p).
Proof.
  revert h. induction ps as [|p ps IH]; intros h Hrun q Hq.
  - by apply elem_of_nil in Hq.
  - simpl in Hrun. destruct (objs h !! p) as [t|] eqn:Hp.
    + rewrite (se_bind_step _ _ _ _ _ (set_requires_grad_run false p h t Hp))
        in Hrun.
      apply elem_of_cons in Hq as [->|Hq]; [by rewrite Hp|].
      specialize (IH _ Hrun q Hq). simpl in IH.
      apply lookup_lt_is_Some in IH. rewrite length_insert in IH.
      by apply lookup_lt_is_Some.
    + by rewrite (se_bind_raise _ _ _ _ _ (set_requires_grad_None false p h Hp))
        in Hrun.
Qed.

Lemma elem_of_flat_map {A B} (f : A → list B) (l : list A) y :
  y ∈ flat_map f l ↔ ∃ i x, l !! i = Some x ∧ y ∈ f x.
Proof.
  rewrite list_elem_of_In, in_flat_map. split.
  - intros (x & Hx & Hy). apply list_elem_of_In, list_elem_of_lookup in Hx as [i Hi].
    exists i, x. split; [done|]. by apply list_elem_of_In.
  - intros (i & x & Hi & Hy). exists x. split; apply list_elem_of_In; [|done].
    by eapply list_elem_of_lookup_2.
Qed.

(** The parameters of a rewritten model are among those of the model
    before the rewrite. *)
Lemma parameters_after_rewrite model (h h' : @Heap F) r m m' :
  models h !! model = Some m →
  optimize_cuda_mace model h = (Ok r, h') →
  models h' !! model = Some m' →
  ∀ q, q ∈ parameters m' → q ∈ parameters m.
Proof.
  intros Hm Hrun Hm' q.
  destruct (frames_optimize_cuda_mace model h) as (_ & _ & Hfr).
  destruct (Hfr m Hm) as (m1 & Hm1 & (_ & _ & Hemb & Hro & _ & _)).
  rewrite Hrun in Hm1. simpl in Hm1. rewrite Hm' in Hm1. injection Hm1 as <-.
  apply optimize_cuda_mace_Ok in Hrun
    as (m0 & hf & p & ps & o & m2 & -> & Hm0 & _ & _ & _ & Hms & _ & _ & _ & _
        & _ & Hout & Hin).
  rewrite Hm in Hm0. injection Hm0 as <-.
  assert (m2 = m') as ->.
  { rewrite Hms in Hm'. erewrite lookup_insert_same in Hm' by done. congruence. }
  unfold parameters. rewrite Hemb, Hro.
  rewrite !elem_of_app, !elem_of_flat_map.
  intros [Hq | [(j & blk' & Hj & Hq) | [(j & pb' & Hj & Hq) | Hq] ] ];
    [by left | | | by auto].
  - right. left.
    destruct (decide (j < Z.to_nat (num_interactions m))) as [Hlt|Hge].
    + destruct (Hin j Hlt) as (blk & pb & blk2 & pb2 & hj & hj' & Hb & _ & Hb2 & _
                               & _ & _ & Hlr).
      rewrite Hj in Hb2. injection Hb2 as <-.
      destruct Hlr as (e & l_lin & lu & aw & pl & h1 & h2 & _ & Hlin & _ & _ & _
                       & -> & _).
      exists j, blk. split; [done|].
      unfold block_parameters in *. simpl in Hq. rewrite Hlin. simpl.
      rewrite !elem_of_app in *. rewrite elem_of_cons in *. tauto.
    + destruct (Hout j Hge) as [Hi _]. rewrite Hi in Hj. eauto.
  - right. right. left.
    destruct (decide (j < Z.to_nat (num_interactions m))) as [Hlt|Hge].
    + destruct (Hin j Hlt) as (blk & pb & blk2 & pb2 & hj & hj' & _ & _ & _ & Hp2
                               & _ & _ & Hlr).
      rewrite Hj in Hp2. injection Hp2 as <-.
      destruct Hlr as (e & l_lin & lu & aw & pl & h1 & h2 & _ & _ & _ & _ & _
                       & _ & ->).
      unfold product_parameters in Hq. simpl in Hq. by apply elem_of_nil in Hq.
    + destruct (Hout j Hge) as [_ Hp]. rewrite Hp in Hj. eauto.
Qed.

(** X15: the rewrite cannot be applied twice.  After a call that returned
    on a model with at least one layer, a second call on the returned
    model freezes the parameters again and then raises [KeyError] at the
    first layer: the [linear_matmul] now in [linear_up] has no [irreps_in]
    in its [__dict__]. *)
Theorem optimize_cuda_mace_twice_raises model (h h' : @Heap F) r m :
  models h !! model = Some m →
  (0 < num_interactions m)%Z →
  optimize_cuda_mace model h = (Ok r, h') →
  (optimize_cuda_mace r h').1 = Raise KeyError.
Proof.
  intros Hm Hn Hrun.
  pose proof Hrun as Hrun0.
  apply optimize_cuda_mace_Ok in Hrun
    as (m0 & hf & p & ps & o & m' & -> & Hm0 & Hfreeze & _ & _ & Hms & Hg & Hni
        & _ & _ & _ & _ & Hin).
  rewrite Hm in Hm0. injection Hm0 as <-.
  assert (Hm' : models h' !! model = Some m')
    by (rewrite Hms; by eapply lookup_insert_same).
  destruct (Hin 0) as (blk & pb & blk' & pb' & hj & hj' & _ & _ & Hb' & _ & _ & _
                       & Hlr); [lia|].
  destruct Hlr as (e & l_lin & lu & aw & pl & h1 & h2 & _ & _ & _ & _ & _
                   & Hblk' & _).
  assert (Hw : weight l_lin ∈ parameters m').
  { unfold parameters. rewrite !elem_of_app, !elem_of_flat_map.
    right. left. exists 0, blk'. split; [done|]. rewrite Hblk'.
    unfold block_parameters. simpl. rewrite !elem_of_app, elem_of_cons. auto. }
  assert (Hall : ∀ q, q ∈ parameters m' → is_Some (objs h' !! q)).
  { intros q Hq.
    pose proof (parameters_after_rewrite model h h' model m m' Hm Hrun0 Hm' q Hq)
      as Hq0.
    destruct (freeze_Ok_dom _ _ _ Hfreeze q Hq0) as [oq Hoq].
    destruct (freeze_spec (parameters m) h) as (_ & _ & _ & Hsome & _).
    destruct (Hsome q oq Hoq) as (oq' & Hoq' & _).
    rewrite Hfreeze in Hoq'. simpl in Hoq'.
    exists oq'. by eapply heap_grows_obj. }
  destruct (parameters m') as [|p' ps'] eqn:Hps'; [by apply elem_of_nil in Hw|].
  destruct (optimize_first_layer_raises model h' m' p' ps' blk' Hm'
              ltac:(by rewrite Hps') Hps' ltac:(lia) Hb') as (hf' & _ & Hraise).
  erewrite Hraise; [done|]. by rewrite Hblk'.
Qed.

(** X16: a weight of the wrong size in the first layer.  When the weight
    of the first [linear_up] does not have
    [num_channels_in * num_channels_out] elements, the rewrite raises
    [RuntimeError] and nothing is rolled back: the model is left with the
    new spherical harmonics and with every interaction and product block
    as it was, and no storage has been created or changed. *)
Theorem optimize_stops_at_a_bad_first_weight model (h : @Heap F) m blk l o :
  models h !! model = Some m →
  (∀ q, q ∈ parameters m → is_Some (objs h !! q)) →
  (0 < num_interactions m)%Z →
  interactions m !! 0 = Some blk → linear_up blk = LinE3nn l →
  objs h !! weight l = Some o →
  numel (o_shape o) ≠ num_irreps (irreps_in l) * num_irreps (irreps_out l) →
  ∃ h1 m1,
    optimize_cuda_mace model h = (Raise RuntimeError, h1) ∧
    stor h1 = stor h ∧
    models h1 !! model = Some m1 ∧
    spherical_harmonics m1
    = {| sh_irreps := spherical_harmonics_irreps 3; sh_normalize := true;
         sh_normalization := "component"; sh_backend := "opt" |} ∧
    interactions m1 = interactions m ∧ products m1 = products m.
Proof.
  intros Hm Hall Hn Hblk Hup Ho Hne.
  assert (Hw : weight l ∈ parameters m).
  { unfold parameters. rewrite !elem_of_app, !elem_of_flat_map.
    right. left. exists 0, blk. split; [done|].
    unfold block_parameters. rewrite Hup. simpl. by left. }
  destruct (parameters m) as [|p ps] eqn:Hps; [by apply elem_of_nil in Hw|].
  destruct (optimize_first_layer_raises model h m p ps blk Hm
              ltac:(by rewrite Hps) Hps Hn Hblk) as (hf & Hf & Hraise).
  destruct (freeze_spec (parameters m) h) as (Hs & _ & _ & Hsome & _).
  rewrite Hf in Hs, Hsome. simpl in Hs, Hsome.
  destruct (Hsome _ _ Ho) as (o' & Ho' & _ & _ & Hsh & _).
  set (hs := set_models hf _) in Hraise.
  assert (Hinit : ∃ h1, linear_matmul_init (linear_up blk) hs
                        = (Raise RuntimeError, h1)
                        ∧ stor h1 = stor hf ∧ models h1 = models hs).
  { rewrite Hup. rewrite (linear_matmul_init_unfold hs l o' Ho').
    rewrite numel_pair, Hsh. rewrite decide_False by congruence.
    eexists. split; [done|]. by split. }
  destruct Hinit as (h1 & Hinit & Hs1 & Hm1).
  exists h1. eexists. split; [by apply Hraise|].
  split; [congruence|]. rewrite Hm1. unfold hs. simpl.
  split; [by eapply lookup_insert_same|]. by split_and!.
Qed.

(** X17: what a rewritten layer keeps and shares.  After a call that
    returned, each of the first [num_interactions] layers has the class
    name, radial network, self-connection and normalisation constant it
    had; its accelerated [linear] carries the irreps and instructions of
    the e3nn layer and the very weight object of that layer (no copy); and
    the kernel inside the contraction wrapper was built from the irreps of
    the inputs of the e3nn contraction, its output irreps, a 32 x 4 x 1
    thread tiling and the dtype the model's first parameter had before
    the call. *)
Theorem rewritten_layer_keeps_and_shares model (h h' : @Heap F) r m i :
  models h !! model = Some m →
  optimize_cuda_mace model h = (Ok r, h') →
  i < Z.to_nat (num_interactions m) →
  ∃ m' blk pb blk' l_lin e aw pl p ps o,
    models h' !! model = Some m' ∧
    interactions m !! i = Some blk ∧ products m !! i = Some pb ∧
    interactions m' !! i = Some blk' ∧
    linear blk = LinE3nn l_lin ∧ pb_symmetric_contractions pb = SymE3nn e ∧
    parameters m = p :: ps ∧ objs h !! p = Some o ∧
    class_name blk' = class_name blk ∧
    conv_tp_weights blk' = conv_tp_weights blk ∧
    skip_tp blk' = skip_tp blk ∧
    avg_num_neighbors blk' = avg_num_neighbors blk ∧
    linear blk' = LinCuda {| cl_irreps_in := irreps_in l_lin;
                             cl_irreps_out := irreps_out l_lin;
                             cl_instructions := instructions l_lin;
                             cl_weight := weight l_lin |} ∧
    products m' !! i
    = Some {| pb_symmetric_contractions :=
                SymWrapper {| symmetric_contractions :=
                  {| cc_coupling_irreps := coupling_of (sc_irreps_in e);
                     cc_irreps_out := sc_irreps_out e;
                     cc_all_weights := aw;
                     nthreadX := 32; nthreadY := 4; nthreadZ := 1;
                     cc_dtype := o_dtype o |} |};
              pb_linear := LinMatmul pl |}.
Proof.
  intros Hm Hrun Hi.
  apply optimize_cuda_mace_Ok in Hrun
    as (m0 & hf & p & ps & o & m' & -> & Hm0 & Hfreeze & Hps & Ho & Hms & _ & _
        & _ & _ & _ & _ & Hin).
  rewrite Hm in Hm0. injection Hm0 as <-.
  destruct (Hin i Hi) as (blk & pb & blk' & pb' & hj & hj' & Hb & Hp & Hb' & Hp'
                          & _ & _ & Hlr).
  destruct Hlr as (e & l_lin & lu & aw & pl & h1 & h2 & He & Hlin & _ & _ & _
                   & Hblk' & Hpb').
  destruct (freeze_Ok_dom _ _ _ Hfreeze p) as [o0 Ho0]; [rewrite Hps; by left|].
  destruct (freeze_spec (parameters m) h) as (_ & _ & _ & Hsome & _).
  destruct (Hsome p o0 Ho0) as (o' & Ho' & _ & Hdt & _).
  rewrite Hfreeze in Ho'. simpl in Ho'. rewrite Ho in Ho'. injection Ho' as <-.
  exists m', blk, pb, blk', l_lin, e, aw, pl, p, ps, o0.
  split_and!; try done.
  - rewrite Hms. by eapply lookup_insert_same.
  - by rewrite Hblk'.
  - by rewrite Hblk'.
  - by rewrite Hblk'.
  - by rewrite Hblk'.
  - by rewrite Hblk'.
  - rewrite Hp', Hpb', Hdt. done.
Qed.

End RewriteOutcomes.

(** *** Where the optimised model is saved *)

Lemma path_components_dir_file dir f :
  str_contains "/" f = false → f ≠ "" → f ≠ "." →
  path_components (dir +:+ String "/" f) = path_components dir ++ [f].
Proof.
  intros Hf H1 H2. unfold path_components.
  rewrite str_split_app, (str_split_no_sep _ _ Hf), filter_app.
  f_equal. by rewrite filter_cons_True.
Qed.

Lemma str_prefix_slash_dir dir f g :
  str_prefix "/" (dir +:+ String "/" f) = str_prefix "/" (dir +:+ String "/" g).
Proof. by destruct dir. Qed.

Lemma containing_directory_dir_file cwd dir f :
  str_contains "/" f = false → f ≠ "" → f ≠ "." →
  containing_directory cwd (dir +:+ String "/" f)
  = if str_prefix "/" (dir +:+ String "/" f) then path_components dir
    else path_components cwd ++ path_components dir.
Proof.
  intros Hf H1 H2. unfold containing_directory, resolve_path.
  rewrite (path_components_dir_file _ _ Hf H1 H2).
  destruct (str_prefix _ _).
  - apply removelast_last.
  - rewrite app_assoc. apply removelast_last.
Qed.

(** X18: a model path with a directory part.  When [--model] is
    [dir/file] and [--output] is a plain file name, the path [main] saves
    to is [dir/output], and it lies in the directory of the model, for
    every working directory. *)
Theorem output_lands_next_to_the_model (args : Args) cwd dir file :
  args_model args = dir +:+ "/" +:+ file →
  str_contains "/" file = false → file ≠ "" → file ≠ "." →
  str_contains "/" (args_output args) = false →
  args_output args ≠ "" → args_output args ≠ "." →
  model_opt_path args = dir +:+ "/" +:+ args_output args ∧
  containing_directory cwd (model_opt_path args)
  = containing_directory cwd (args_model args).
Proof.
  intros Hmodel Hf Hf1 Hf2 Ho Ho1 Ho2.
  rewrite (model_opt_path_with_directory args dir file Hmodel Hf).
  split; [done|]. rewrite Hmodel.
  change (dir +:+ "/" +:+ file) with (dir +:+ String "/" file).
  change (dir +:+ "/" +:+ args_output args)
    with (dir +:+ String "/" (args_output args)).
  rewrite !containing_directory_dir_file by done.
  by rewrite (str_prefix_slash_dir dir (args_output args) file).
Qed.

(** X19: a model path without a directory part.  When [--model] is a
    bare file name, the path [main] saves to is [/output]; with a plain
    file name for [--output] it lies in the root directory, while the
    model lies in the working directory. *)
Theorem bare_model_name_saves_in_the_root (args : Args) cwd :
  str_contains "/" (args_model args) = false →
  args_model args ≠ "" → args_model args ≠ "." →
  str_contains "/" (args_output args) = false →
  model_opt_path args = "/" +:+ args_output args ∧
  containing_directory cwd (model_opt_path args) = [] ∧
  containing_directory cwd (args_model args) = path_components cwd.
Proof.
  intros Hm Hm1 Hm2 Ho.
  rewrite (model_opt_path_bare_name args Hm). split; [done|]. split.
  - unfold containing_directory, resolve_path, path_components.
    change ("/" +:+ args_output args) with ("" +:+ String "/" (args_output args)).
    rewrite str_split_app, (str_split_no_sep _ _ Ho). simpl.
    rewrite filter_cons_False by (by intros [? _]).
    destruct (decide (args_output args ≠ "" ∧ args_output args ≠ ".")).
    + by rewrite filter_cons_True.
    + by rewrite filter_cons_False.
  - unfold containing_directory, resolve_path.
    assert (Hp : str_prefix "/" (args_model args) = false).
    { destruct (args_model args) as [|c s]; [done|]. simpl in Hm. simpl.
      by apply orb_false_elim in Hm as [Hc _]. }
    rewrite Hp. unfold path_components at 2.
    rewrite (str_split_no_sep _ _ Hm), filter_cons_True by done.
    apply removelast_last.
Qed.

Section DriverOutcomes.
Context {F : Type} `{Scalar F} `{!System (F := F)}.

(** X20: [main] without [--benchmark].  It prints nothing.  When it
    returns, the two settings succeeded, the model was loaded and
    rewritten, the output file could be written, and exactly one save was
    completed: of the very object that was loaded (the rewrite is in
    place), at the computed path.  When it raises, no save was completed.
    In particular, when everything up to the save succeeds and
    [torch.save] raises, [main] raises that exception: the rewritten model
    is left in memory and no save is recorded. *)
Theorem main_saves_once_or_not_at_all (args : Args) (w : @World F) :
  args_benchmark args = false →
  let out := main args w in
  w_stdout out.2 = w_stdout w ∧
  (out.1 = Ok () →
     ∃ model h1 h2,
       set_default_dtype (args_dtype args) = Ok () ∧
       init_device "cuda" = Ok () ∧
       torch_load (args_model args) (w_heap w) = (Ok model, h1) ∧
       optimize_cuda_mace model h1 = (Ok model, h2) ∧
       write_file (model_opt_path args) = Ok () ∧
       out.2 = {| w_heap := h2; w_stdout := w_stdout w;
                  w_saved := w_saved w ++ [(model_opt_path args, model)] |}) ∧
  (out.1 ≠ Ok () → out.2.(w_saved) = w_saved w) ∧
  (∀ model h1 r h2 e,
     set_default_dtype (args_dtype args) = Ok () →
     init_device "cuda" = Ok () →
     torch_load (args_model args) (w_heap w) = (Ok model, h1) →
     optimize_cuda_mace model h1 = (Ok r, h2) →
     write_file (model_opt_path args) = Raise e →
     out = (Raise e, {| w_heap := h2; w_stdout := w_stdout w;
                        w_saved := w_saved w |})).
Proof.
  intros Hb out. unfold out, main. rewrite Hb.
  unfold torch_save, se_bind, se_lift, lift_heap, se_modify, se_ret.
  destruct (set_default_dtype (args_dtype args)) as [[]|e1].
  2:{ split_and!; [done | done | done | intros; simplify_eq]. }
  destruct (init_device "cuda") as [[]|e2].
  2:{ split_and!; [done | done | done | intros; simplify_eq]. }
  destruct (torch_load (args_model args) (w_heap w)) as [[model|e3] h1] eqn:Hload;
    simpl.
  2:{ split_and!; [done | done | done | intros; simplify_eq]. }
  destruct (optimize_cuda_mace model h1) as [[r|e4] h2] eqn:Hopt; simpl.
  2:{ split_and!; [done | done | done | intros; simplify_eq; congruence]. }
  destruct (write_file (model_opt_path args)) as [[]|e5] eqn:Hopen; simpl.
  - split_and!; [done | | done | intros; simplify_eq].
    intros _. pose proof Hopt as Hopt'.
    apply optimize_cuda_mace_Ok in Hopt' as (? & ? & ? & ? & ? & ? & -> & _).
    exists model, h1, h2. by split_and!.
  - split_and!; [done | done | done |].
    intros model0 h0 r0 h3 e _ _ [= <- <-] Hopt2 [= <-].
    rewrite Hopt in Hopt2. by injection Hopt2 as <- <-.
Qed.

End DriverOutcomes.

(** * The statements at work on the sample model *)

Lemma all_below_in_heap {F} (h : @Heap F) (ps : list nat) :
  forallb (λ p, p <? length (objs h)) ps = true →
  ∀ p, p ∈ ps → is_Some (objs h !! p).
Proof.
  intros Hall p Hp. apply lookup_lt_is_Some_2.
  rewrite forallb_forall in Hall. apply Nat.ltb_lt, Hall.
  by apply list_elem_of_In.
Qed.

Lemma Z_gtb_asym (a b : Z) : (a >? b)%Z = true → (b >? a)%Z = false.
Proof. rewrite !Z.gtb_ltb, Z.ltb_lt, Z.ltb_ge. lia. Qed.

Lemma Z_gtb_trans (a b c : Z) :
  (a >? b)%Z = true → (c >? b)%Z = false → (a >? c)%Z = true.
Proof. rewrite !Z.gtb_ltb, !Z.ltb_lt, Z.ltb_ge. lia. Qed.

Lemma sample_layers_ok j :
  j < 2 →
  ∃ blk pb, interactions sample_model !! j = Some blk
            ∧ products sample_model !! j = Some pb
            ∧ layer_ok sample_heap blk pb.
Proof.
  intros Hj.
  destruct j as [|[|j] ]; [| |lia]; eexists _, _;
    (split; [reflexivity|]); (split; [reflexivity|]);
    (split_and!;
     [ eexists _, _; split_and!;
       [reflexivity | reflexivity | vm_compute; eauto | reflexivity]
     | by eexists
     | eexists; split; [reflexivity|]; split;
       [ intros c p Hc Hp; apply list_elem_of_singleton in Hc as ->;
         simpl in Hp;
         repeat (apply elem_of_cons in Hp as [->|Hp]; [vm_compute; eauto|]);
         by apply elem_of_nil in Hp
       | repeat constructor ]
     | eexists _, _; split_and!;
       [reflexivity | reflexivity | vm_compute; eauto | reflexivity] ]).
Qed.

Lemma linear_matmul_init_fails_fast_witness :
  let l := {| irreps_in := scalars 3; irreps_out := scalars 2;
              instructions := [(0, 0)]; weight := 1 |} in
  objs sample_heap !! weight l = Some (sample_param 1 [1; 8])
  ∧ numel [1; 8] ≠ num_irreps (irreps_in l) * num_irreps (irreps_out l)
  ∧ ∃ h', linear_matmul_init (LinE3nn l) sample_heap = (Raise RuntimeError, h')
          ∧ stor h' = stor sample_heap
          ∧ models h' = models sample_heap
          ∧ ∀ p, p < length (objs sample_heap) →
                 objs h' !! p = objs sample_heap !! p.
Proof.
  intros l. split; [reflexivity|]. split; [vm_compute; lia|].
  apply (linear_matmul_init_fails_fast sample_heap l (sample_param 1 [1; 8]));
    [reflexivity | vm_compute; lia].
Defined.

Lemma linear_matmul_forward_exact_witness :
  let l := {| irreps_in := scalars 4; irreps_out := scalars 2;
              instructions := [(0, 0)]; weight := 1 |} in
  let W := Tensor float64 [1; 8] [8; 12; 16; 20; 24; 28; 32; 36]%Z in
  let r := {| lm_weights := 18 |} in
  let h' := (linear_matmul_init (LinE3nn l) sample_heap).2 in
  tensor_value sample_heap (weight l) = Some W
  ∧ well_shaped W
  ∧ linear_matmul_init (LinE3nn l) sample_heap = (Ok r, h')
  ∧ linear_matmul_forward h' r (Tensor float64 [1; 4] [1; 2; 3; 4]%Z)
    = Ok (Tensor float64 [1; 2] [120; 140]%Z)
  ∧ reshape_val [4; 2] W = Ok (Tensor (t_dtype W) [4; 2] (t_data W))
  ∧ (∀ x, linear_matmul_forward h' r x
          = matmul x (Tensor (t_dtype W) [4; 2]
                        (map (λ w, fdiv w (pow_half 4)) (t_data W))))
  ∧ (∀ x batch, t_shape x = [batch; 4] → t_dtype x = t_dtype W →
       ∃ y, linear_matmul_forward h' r x = Ok y
            ∧ t_dtype y = t_dtype x
            ∧ t_shape y = [batch; 2]
            ∧ ∀ b j, b < batch → j < 2 →
                t_data y !! (b * 2 + j)
                = Some (fdot (take 4 (drop (b * 4) (t_data x)))
                             (map (λ i, fdiv (nth (i * 2 + j) (t_data W) fzero)
                                             (pow_half 4))
                                  (seq 0 4)))).
Proof.
  intros l W r h'. split; [reflexivity|]. split; [reflexivity|].
  split; [vm_compute; reflexivity|]. split; [vm_compute; reflexivity|].
  apply (linear_matmul_forward_exact sample_heap h' l W r 4 2);
    [reflexivity | reflexivity | reflexivity | reflexivity
    | vm_compute; reflexivity].
Defined.

(** C1 as first stated fails in binary64: for a layer of 2921 input
    channels whose first weight is the square root of 2921, the forward
    on the input that selects that weight returns
    [sqrt(2921) / 2921 ** 0.5 = 1.0000000000000002], while
    [x @ (W.reshape(2921, 1) / sqrt(2921))] is [1.0]. *)
Lemma linear_matmul_forward_not_sqrt :
  let S := Binary64.float_scalar in
  let root := PrimFloat.sqrt (Binary64.float_of_nat 2921) in
  let r := {| lm_weights := 3 |} in
  let h' := (@linear_matmul_init _ S (LinE3nn Binary64.wide_layer)
               Binary64.wide_heap).2 in
  let y := Tensor float64 [1; 1] [PrimFloat.div root (@pow_half _ S 2921)] in
  @linear_matmul_init _ S (LinE3nn Binary64.wide_layer) Binary64.wide_heap
  = (Ok r, h')
  ∧ @linear_matmul_forward _ S h' r Binary64.wide_input = Ok y
  ∧ @matmul _ S Binary64.wide_input
      (Tensor float64 [2921; 1]
         (map (λ w, PrimFloat.div w root) (t_data Binary64.wide_weight)))
    = Ok (Tensor float64 [1; 1] [PrimFloat.div root root])
  ∧ PrimFloat.eqb (PrimFloat.div root root) (PrimFloat.div root (@pow_half _ S 2921))
    = false
  ∧ @matmul _ S Binary64.wide_input
      (Tensor float64 [2921; 1]
         (map (λ w, PrimFloat.div w root) (t_data Binary64.wide_weight)))
    ≠ @linear_matmul_forward _ S h' r Binary64.wide_input.
Proof.
  intros S root r h' y.
  assert (Hcode : @linear_matmul_forward _ S h' r Binary64.wide_input = Ok y)
    by (vm_compute; reflexivity).
  assert (Hsqrt : @matmul _ S Binary64.wide_input
            (Tensor float64 [2921; 1]
               (map (λ w, PrimFloat.div w root) (t_data Binary64.wide_weight)))
          = Ok (Tensor float64 [1; 1] [PrimFloat.div root root]))
    by (vm_compute; reflexivity).
  assert (Hne : PrimFloat.eqb (PrimFloat.div root root)
                  (PrimFloat.div root (@pow_half _ S 2921)) = false)
    by (vm_compute; reflexivity).
  split; [vm_compute; reflexivity|]. split; [exact Hcode|].
  split; [exact Hsqrt|]. split; [exact Hne|].
  rewrite Hcode, Hsqrt. intros Heq.
  apply (f_equal (λ out : res (tensor PrimFloat.float),
                    match out with
                    | Ok t => match t_data t with
                              | [v] => PrimFloat.eqb v (PrimFloat.div root root)
                              | _ => false
                              end
                    | Raise _ => false
                    end)) in Heq.
  vm_compute in Heq. discriminate Heq.
Qed.

Lemma wrapper_forward_argmax_kernel_squeeze_witness :
  let x := Tensor float64 [2; 4] [1; 2; 3; 4; 5; 6; 7; 8]%Z in
  let y := sample_node_attrs in
  let out := Tensor float64 [2; 4] [1; 2; 3; 4; 5; 6; 7; 8]%Z in
  SymmetricContractionWrapper_forward sample_heap sample_wrapper x y = Ok out
  ∧ t_shape y = [2] ++ [3] ∧ 3 ≠ 0
  ∧ (∃ y_idx k,
       argmax_last y = Ok y_idx ∧
       cuda_contraction_forward sample_heap
         (symmetric_contractions sample_wrapper) x (int_ y_idx) = Ok k ∧
       t_dtype (int_ y_idx) = int32
       ∧ out = squeeze k
       ∧ t_shape out = filter (λ d, d ≠ 1) (t_shape k)
       ∧ (1 ∉ t_shape out)
       ∧ t_data out = t_data k)
  ∧ ∃ sel,
      SymmetricContractionWrapper_forward sample_heap sample_wrapper x y
      = match cuda_contraction_forward sample_heap
                (symmetric_contractions sample_wrapper) x sel with
        | Ok out => Ok (squeeze out)
        | Raise e => Raise e
        end
      ∧ t_dtype sel = int32
      ∧ t_shape sel = [2]
      ∧ t_data sel
        = map (λ r, wrap32 (Z.of_nat (argmax_row (row_of 3 r (t_data y)))))
              (seq 0 (numel [2])).
Proof.
  intros x y out.
  destruct (wrapper_forward_argmax_kernel_squeeze sample_heap sample_wrapper x y)
    as [Hreturns Htotal].
  split; [reflexivity|]. split; [reflexivity|]. split; [lia|].
  split; [apply (Hreturns out); reflexivity | apply (Htotal [2] 3); [reflexivity | lia]].
Defined.

(** C2 as first stated fails: with one node, the kernel's result of shape
    [1, 4, 1] comes back with shape [4], not [1, 4]. *)
Lemma wrapper_forward_not_trailing_only :
  ¬ (∀ x y out : tensor Z,
       SymmetricContractionWrapper_forward sample_heap sample_wrapper x y = Ok out →
       ∃ y_idx k,
         argmax_last y = Ok y_idx ∧
         cuda_contraction_forward sample_heap
           (symmetric_contractions sample_wrapper) x (int_ y_idx) = Ok k ∧
         t_shape out = squeeze_trailing_shape (t_shape k)).
Proof.
  intros Hall.
  destruct (Hall (Tensor float64 [1; 4] [1; 2; 3; 4]%Z)
                   (Tensor float64 [1; 3] [0; 1; 0]%Z)
                   (Tensor float64 [4] [1; 2; 3; 4]%Z) eq_refl)
    as (y_idx & k & Hidx & Hk & Hshape).
  vm_compute in Hidx. injection Hidx as <-.
  vm_compute in Hk. injection Hk as <-.
  vm_compute in Hshape. discriminate.
Qed.

Lemma wrapper_forward_drops_every_singleton_witness :
  let x := Tensor float64 [1; 4] [1; 2; 3; 4]%Z in
  let y := Tensor float64 [1; 3] [0; 1; 0]%Z in
  let out := Tensor float64 [4] [1; 2; 3; 4]%Z in
  SymmetricContractionWrapper_forward sample_heap sample_wrapper x y = Ok out ∧
  ∃ y_idx k,
    argmax_last y = Ok y_idx ∧
    cuda_contraction_forward sample_heap
      (symmetric_contractions sample_wrapper) x (int_ y_idx) = Ok k ∧
    (∀ i, t_shape k !! i = Some 1 → length (t_shape out) < length (t_shape k)) ∧
    (∀ rest, t_shape k = 1 :: rest →
       t_shape out = squeeze_shape rest
       ∧ length (t_shape out) < length (t_shape k)) ∧
    (∀ n rest, t_shape k = n :: rest → n ≠ 1 →
       t_shape out = n :: squeeze_shape rest
       ∧ length (t_shape out) = S (length (squeeze_shape rest))).
Proof.
  intros x y out. split; [reflexivity|].
  apply (wrapper_forward_drops_every_singleton sample_heap sample_wrapper x y out).
  reflexivity.
Defined.



Lemma optimize_cuda_mace_freezes_and_returns_model_witness :
  let freeze := se_for (parameters sample_model) (set_requires_grad false) in
  let short_heap := set_objs sample_heap (take 15 (objs sample_heap)) in
  ∃ rest : SE (Heap (F := Z)) nat,
    (models sample_heap !! 0 = Some sample_model ∧
     optimize_cuda_mace 0 sample_heap = se_bind freeze (λ _, rest) sample_heap ∧
     models (freeze sample_heap).2 = models sample_heap ∧
     (freeze sample_heap).1 = Ok () ∧
     (∀ p, p ∈ parameters sample_model →
        ∃ o, objs (freeze sample_heap).2 !! p = Some o
             ∧ requires_grad o = false) ∧
     (∀ p, p ∈ parameters sample_model →
        ∃ o, objs (optimize_cuda_mace 0 sample_heap).2 !! p = Some o
             ∧ requires_grad o = false) ∧
     optimize_cuda_mace 0 sample_heap = (Ok 0, sample_rewritten) ∧
     ∃ m', models sample_rewritten = <[0 := m']> (models sample_heap) ∧
       models sample_rewritten !! 0 = Some m' ∧
       ∀ i, i < Z.to_nat (num_interactions sample_model) →
         ∃ blk' pb' lu lc w pl,
           interactions m' !! i = Some blk' ∧ products m' !! i = Some pb' ∧
           linear_up blk' = LinMatmul lu ∧
           linear blk' = LinCuda lc ∧
           tp blk' = InvariantMessagePassingTP ∧
           forward blk' ≠ class_forward ∧
           pb_symmetric_contractions pb' = SymWrapper w ∧
           pb_linear pb' = LinMatmul pl) ∧
    (models short_heap !! 0 = Some sample_model ∧
     (freeze short_heap).1 = Raise DanglingReference ∧
     optimize_cuda_mace 0 short_heap
     = (Raise DanglingReference, (freeze short_heap).2) ∧
     models (optimize_cuda_mace 0 short_heap).2 = models short_heap).
Proof.
  intros freeze short_heap.
  destruct (optimize_cuda_mace_freezes_and_returns_model (F := Z) 0)
    as [rest Hrest].
  exists rest. split.
  - destruct (Hrest sample_heap sample_model eq_refl)
      as (Hcall & Hmodels & Hok & Hfrozen & Hret).
    assert (Hfr : (freeze sample_heap).1 = Ok ())
      by (apply Hok, all_below_in_heap; reflexivity).
    destruct (Hfrozen Hfr) as [Hf1 Hf2].
    assert (Hrun : optimize_cuda_mace 0 sample_heap = (Ok 0, sample_rewritten))
      by (vm_compute; reflexivity).
    destruct (Hret 0 sample_rewritten Hrun) as (_ & _ & Hlayers).
    split; [reflexivity|]. split; [exact Hcall|]. split; [exact Hmodels|].
    split; [exact Hfr|]. split; [exact Hf1|]. split; [exact Hf2|].
    split; [exact Hrun|]. exact Hlayers.
  - destruct (Hrest short_heap sample_model eq_refl)
      as (Hcall & Hmodels & _).
    assert (Hfr : freeze short_heap
                  = (Raise DanglingReference, (freeze short_heap).2))
      by (vm_compute; reflexivity).
    split; [reflexivity|]. split; [by rewrite Hfr|].
    assert (Hraise : optimize_cuda_mace 0 short_heap
                     = (Raise DanglingReference, (freeze short_heap).2)).
    { rewrite Hcall. unfold se_bind at 1. by rewrite Hfr. }
    split; [exact Hraise|]. rewrite Hraise. exact Hmodels.
Defined.

Lemma extracted_weights_by_body_order_witness :
  optimize_cuda_mace 0 sample_heap = (Ok 0, sample_rewritten)
  ∧ models sample_heap !! 0 = Some sample_model
  ∧ ∃ p ps o m',
      parameters sample_model = p :: ps ∧ objs sample_heap !! p = Some o ∧
      models sample_rewritten !! 0 = Some m' ∧
      (∀ q t, tensor_value sample_heap q = Some t →
              tensor_value sample_rewritten q = Some t) ∧
      ∀ i pb, i < Z.to_nat (num_interactions sample_model) →
        products sample_model !! i = Some pb →
        ∃ e pb' w,
          pb_symmetric_contractions pb = SymE3nn e ∧
          products m' !! i = Some pb' ∧
          pb_symmetric_contractions pb' = SymWrapper w ∧
          cc_dtype (symmetric_contractions w) = o_dtype o ∧
          ∀ j c, contractions e !! j = Some c →
            ∃ p0 p1 inner w3 w2 w1,
              weights c !! 0 = Some p0 ∧ weights c !! 1 = Some p1 ∧
              cc_all_weights (symmetric_contractions w) !! pretty j = Some inner ∧
              inner !! 3 = Some w3 ∧ inner !! 2 = Some w2 ∧ inner !! 1 = Some w1 ∧
              detached_clone (o_dtype o) sample_heap sample_rewritten
                (weights_max c) w3 ∧
              detached_clone (o_dtype o) sample_heap sample_rewritten p0 w2 ∧
              detached_clone (o_dtype o) sample_heap sample_rewritten p1 w1.
Proof.
  split; [vm_compute; reflexivity|]. split; [reflexivity|].
  apply (extracted_weights_by_body_order 0 sample_heap sample_rewritten 0
           sample_model); [vm_compute; reflexivity | reflexivity].
Defined.

Lemma benchmark_falls_back_to_diamond_witness :
  let w := {| w_heap := sample_heap; w_stdout := []; w_saved := [] |} in
  let synthetic :=
    atoms_repeat (build_bulk "C" "diamond" 3567 true) (10, 10, 10) in
  ase_io_read "missing.xyz" = Raise OSError
  ∧ benchmark 0 "missing.xyz" "opt" w
    = time_model 0 [synthetic] "opt"
        {| w_heap := w_heap w;
           w_stdout := w_stdout w
                       ++ ["Could not read file " +:+ "missing.xyz";
                           "Number of atoms " +:+ pretty (ase_len synthetic)];
           w_saved := w_saved w |}.
Proof.
  intros w synthetic. split; [reflexivity|].
  apply (benchmark_falls_back_to_diamond 0 "missing.xyz" "opt" OSError w).
  reflexivity.
Defined.

(** ** The further statements at work on the sample model *)


Lemma residual_is_standard_with_self_connection_witness :
  let h := sample_rewritten in
  let self := sample_rewritten_block 1 in
  let e0 := Tensor int64 [2] [0; 1]%Z in
  let e1 := Tensor int64 [2] [1; 0]%Z in
  let other_attrs := Tensor float64 [3; 1] [1; 0; 0]%Z in
  select0 0 sample_edge_index = Ok e0 ∧
  select0 1 sample_edge_index = Ok e1 ∧
  shape_first (t_shape sample_node_feats) = Ok 2 ∧
  skip_tp_forward h (skip_tp self) sample_node_feats other_attrs
  = Raise RuntimeError ∧
  skip_tp_forward h (skip_tp self) sample_node_feats sample_node_attrs
  = Ok sample_node_feats ∧
  (let standard := invariant_interaction_forward h self
                     other_attrs sample_node_feats sample_edge_attrs
                     sample_edge_feats sample_edge_index [] in
   let residual := invariant_residual_interaction_forward h self
                     other_attrs sample_node_feats sample_edge_attrs
                     sample_edge_feats sample_edge_index [] in
   match skip_tp_forward h (skip_tp self) sample_node_feats other_attrs with
   | Raise e =>
       residual = (Raise e, [] ++ [call_skip_tp sample_node_feats other_attrs])
   | Ok s =>
       residual.1
       = match standard.1 with
         | Ok (msg, _) => Ok (msg, Some s)
         | Raise e => Raise e
         end
       ∧ ∃ calls, standard.2 = [] ++ calls
                  ∧ residual.2
                    = [] ++ call_skip_tp sample_node_feats other_attrs :: calls
   end) ∧
  (let standard := invariant_interaction_forward h self
                     sample_node_attrs sample_node_feats sample_edge_attrs
                     sample_edge_feats sample_edge_index [] in
   let residual := invariant_residual_interaction_forward h self
                     sample_node_attrs sample_node_feats sample_edge_attrs
                     sample_edge_feats sample_edge_index [] in
   match skip_tp_forward h (skip_tp self) sample_node_feats sample_node_attrs with
   | Raise e =>
       residual
       = (Raise e, [] ++ [call_skip_tp sample_node_feats sample_node_attrs])
   | Ok s =>
       residual.1
       = match standard.1 with
         | Ok (msg, _) => Ok (msg, Some s)
         | Raise e => Raise e
         end
       ∧ ∃ calls, standard.2 = [] ++ calls
                  ∧ residual.2
                    = [] ++ call_skip_tp sample_node_feats sample_node_attrs
                         :: calls
   end).
Proof.
  intros h self e0 e1 other_attrs.
  split; [reflexivity|]. split; [reflexivity|]. split; [reflexivity|].
  split; [vm_compute; reflexivity|]. split; [vm_compute; reflexivity|].
  split.
  - apply (residual_is_standard_with_self_connection h self other_attrs
             sample_node_feats sample_edge_attrs sample_edge_feats
             sample_edge_index [] e0 e1 2); reflexivity.
  - apply (residual_is_standard_with_self_connection h self sample_node_attrs
             sample_node_feats sample_edge_attrs sample_edge_feats
             sample_edge_index [] e0 e1 2); reflexivity.
Defined.

Lemma forwards_raise_when_weights_cannot_be_viewed_witness :
  let h := sample_rewritten in
  let self := sample_rewritten_block 1 in
  let edge_feats := Tensor float64 [2; 3] [1; 1; 2; 2; 3; 3]%Z in
  let run := invariant_residual_interaction_forward h self sample_node_attrs
               sample_node_feats sample_edge_attrs edge_feats
               sample_edge_index in
  ∃ e0 e1 up first_occurences,
    InteractionBlock_call h self sample_node_attrs sample_node_feats
      sample_edge_attrs edge_feats sample_edge_index = Some run ∧
    select0 0 sample_edge_index = Ok e0 ∧
    select0 1 sample_edge_index = Ok e1 ∧
    shape_first (t_shape sample_node_feats) = Ok 2 ∧
    skip_tp_forward h (skip_tp self) sample_node_feats sample_node_attrs
    = Ok sample_node_feats ∧
    call_linear_module h (linear_up self) sample_node_feats = Ok up ∧
    conv_tp_weights_forward h (conv_tp_weights self) edge_feats = Ok edge_feats ∧
    tp self = InvariantMessagePassingTP ∧
    calculate_first_occurences (int_ e1) 2 empty_int_tensor
    = Ok first_occurences ∧
    shape_first (t_shape edge_feats) = Ok 2 ∧
    shape_last (t_shape up) = Ok 2 ∧
    numel (t_shape edge_feats) `mod` (2 * 2) ≠ 0 ∧
    ∃ pre,
      (pre = [] ∨ pre = [call_skip_tp sample_node_feats sample_node_attrs]) ∧
      run []
      = (Raise RuntimeError,
         [] ++ pre
            ++ [call_linear_up sample_node_feats;
                call_conv_tp_weights edge_feats;
                call_calculate_first_occurences (int_ e1) 2 empty_int_tensor]).
Proof.
  intros h self edge_feats run.
  match eval vm_compute in
    (select0 0 sample_edge_index, select0 1 sample_edge_index,
     call_linear_module h (linear_up self) sample_node_feats) with
  | (Ok ?a, Ok ?b, Ok ?u) =>
      match eval vm_compute in
        (calculate_first_occurences (int_ b) 2 empty_int_tensor) with
      | Ok ?fo =>
          exists a, b, u, fo;
          split_and!; try (vm_compute; reflexivity); [vm_compute; lia|];
          apply (forwards_raise_when_weights_cannot_be_viewed h self
                   sample_node_attrs sample_node_feats sample_edge_attrs
                   edge_feats sample_edge_index run [] a b 2 u edge_feats fo
                   2 2);
            try (vm_compute; reflexivity);
            [ intros _; exists sample_node_feats; vm_compute; reflexivity
            | right; vm_compute; lia ]
      end
  end.
Defined.

Lemma forwards_need_two_index_rows_witness :
  let h := sample_rewritten in
  let self := sample_rewritten_block 0 in
  let edge_index := Tensor int64 [1; 2] [0; 1]%Z in
  let run := invariant_interaction_forward h self sample_node_attrs
               sample_node_feats sample_edge_attrs sample_edge_feats edge_index in
  InteractionBlock_call h self sample_node_attrs sample_node_feats
    sample_edge_attrs sample_edge_feats edge_index = Some run ∧
  (∀ d rest, t_shape edge_index = d :: rest → d < 2) ∧
  run [] = (Raise IndexError, []).
Proof.
  intros h self edge_index run.
  assert (Hrows : ∀ d rest, t_shape edge_index = d :: rest → d < 2).
  { intros d rest Hs. injection Hs as <- _. lia. }
  split; [vm_compute; reflexivity|]. split; [exact Hrows|].
  apply (forwards_need_two_index_rows h self sample_node_attrs sample_node_feats
           sample_edge_attrs sample_edge_feats edge_index run []);
    [vm_compute; reflexivity | exact Hrows].
Defined.

Lemma forwards_keep_indices_that_fit_witness :
  let h := sample_rewritten in
  let self := sample_rewritten_block 1 in
  ∃ run msg sc tr',
    InteractionBlock_call h self sample_node_attrs sample_node_feats
      sample_edge_attrs sample_edge_feats sample_edge_index = Some run ∧
    run [] = (Ok (msg, sc), tr') ∧
    Forall (λ z, (- 2 ^ 31 ≤ z < 2 ^ 31)%Z) (t_data sample_edge_index) ∧
    ∃ e0 e1 up viewed first_occurences,
      select0 0 sample_edge_index = Ok e0 ∧
      select0 1 sample_edge_index = Ok e1 ∧
      call_tp_forward up sample_edge_attrs viewed
        (Tensor int32 (t_shape e0) (t_data e0))
        (Tensor int32 (t_shape e1) (t_data e1)) first_occurences ∈ tr'.
Proof.
  intros h self.
  assert (Hfit : Forall (λ z, (- 2 ^ 31 ≤ z < 2 ^ 31)%Z)
                   (t_data sample_edge_index)).
  { unfold sample_edge_index. simpl. repeat constructor; lia. }
  set (run := invariant_residual_interaction_forward h self sample_node_attrs
                sample_node_feats sample_edge_attrs sample_edge_feats
                sample_edge_index).
  match eval vm_compute in (run []) with
  | (Ok (?m, ?s), ?t) =>
      exists run, m, s, t;
      split; [reflexivity|];
      split; [vm_compute; reflexivity|];
      split; [exact Hfit|];
      apply (forwards_keep_indices_that_fit h self sample_node_attrs
               sample_node_feats sample_edge_attrs sample_edge_feats
               sample_edge_index run [] m s t);
        [reflexivity | vm_compute; reflexivity | exact Hfit]
  end.
Defined.

Lemma wrapper_selects_first_largest_witness :
  let x := Tensor float64 [2; 4] [1; 2; 3; 4; 5; 6; 7; 8]%Z in
  let y := sample_node_attrs in
  (∀ a b : Z, fgtb a b = true → fgtb b a = false) ∧
  (∀ a b c : Z, fgtb a b = true → fgtb c b = false → fgtb a c = true) ∧
  t_shape y = [2] ++ [3] ∧ 3 ≠ 0 ∧ (Z.of_nat 3 ≤ 2 ^ 31)%Z ∧ well_shaped y ∧
  ∃ sel,
    SymmetricContractionWrapper_forward sample_heap sample_wrapper x y
    = match cuda_contraction_forward sample_heap
              (symmetric_contractions sample_wrapper) x sel with
      | Ok out => Ok (squeeze out)
      | Raise e => Raise e
      end
    ∧ length (t_data sel) = numel [2]
    ∧ ∀ r, r < numel [2] →
        ∃ i m,
          t_data sel !! r = Some (Z.of_nat i) ∧ i < 3 ∧
          t_data y !! (r * 3 + i) = Some m ∧
          (∀ j v, j < 3 → t_data y !! (r * 3 + j) = Some v → fgtb v m = false) ∧
          (∀ j v, j < i → t_data y !! (r * 3 + j) = Some v → fgtb m v = true).
Proof.
  intros x y.
  split; [exact Z_gtb_asym|]. split; [exact Z_gtb_trans|].
  split; [reflexivity|]. split; [lia|]. split; [lia|]. split; [reflexivity|].
  apply (@wrapper_selects_first_largest Z Z_scalar sample_kernels
           Z_gtb_asym Z_gtb_trans sample_heap sample_wrapper x y [2] 3);
    [reflexivity | lia | lia | reflexivity].
Defined.

Lemma linear_matmul_init_owns_its_weights_witness :
  let l := {| irreps_in := scalars 4; irreps_out := scalars 2;
              instructions := [(0, 0)]; weight := 1 |} in
  let r := {| lm_weights := 18 |} in
  let h' := (linear_matmul_init (LinE3nn l) sample_heap).2 in
  linear_matmul_init (LinE3nn l) sample_heap = (Ok r, h') ∧
  ∃ l0 o',
    LinE3nn l = LinE3nn l0 ∧
    heap_grows sample_heap h' ∧ models h' = models sample_heap ∧
    length (objs sample_heap) ≤ lm_weights r ∧
    objs h' !! lm_weights r = Some o' ∧
    length (stor sample_heap) ≤ o_storage o' ∧
    o_shape o' = [num_irreps (irreps_in l0); num_irreps (irreps_out l0)] ∧
    requires_grad o' = false.
Proof.
  intros l r h'. split; [vm_compute; reflexivity|].
  apply (linear_matmul_init_owns_its_weights sample_heap h' (LinE3nn l) r).
  vm_compute; reflexivity.
Defined.

Lemma linear_matmul_forward_accepts_witness :
  let l := {| irreps_in := scalars 4; irreps_out := scalars 2;
              instructions := [(0, 0)]; weight := 1 |} in
  let W := Tensor float64 [1; 8] [8; 12; 16; 20; 24; 28; 32; 36]%Z in
  let r := {| lm_weights := 18 |} in
  let h' := (linear_matmul_init (LinE3nn l) sample_heap).2 in
  let x := Tensor float64 [3; 1; 4] [1; 2; 3; 4; 5; 6; 7; 8; 9; 10; 11; 12]%Z in
  tensor_value sample_heap (weight l) = Some W ∧
  linear_matmul_init (LinE3nn l) sample_heap = (Ok r, h') ∧
  (∀ lead, t_shape x = lead ++ [4] → t_dtype x = t_dtype W →
     ∃ y, linear_matmul_forward h' r x = Ok y
          ∧ t_dtype y = t_dtype x
          ∧ t_shape y = lead ++ [2]
          ∧ well_shaped y) ∧
  (¬ ((∃ lead, t_shape x = lead ++ [4]) ∧ t_dtype x = t_dtype W) →
     linear_matmul_forward h' r x = Raise RuntimeError).
Proof.
  intros l W r h' x. split; [reflexivity|]. split; [vm_compute; reflexivity|].
  apply (linear_matmul_forward_accepts sample_heap h' l W r 4 2 x);
    [reflexivity | reflexivity | reflexivity | vm_compute; reflexivity].
Defined.

Lemma extract_all_weights_needs_two_lower_orders_witness :
  let e := {| sc_irreps_in := scalars 2; sc_irreps_out := scalars 2;
              contractions := [{| weights_max := 7; weights := [8; 9] |}] |} in
  (∀ c p, c ∈ contractions e → p ∈ contraction_parameters c →
          is_Some (tensor_value sample_heap p)) ∧
  (Forall (λ c, 2 ≤ length (weights c)) (contractions e) →
     ∃ aw h', extract_all_weights float32 (SymE3nn e) sample_heap = (Ok aw, h')) ∧
  (¬ Forall (λ c, 2 ≤ length (weights c)) (contractions e) →
     (extract_all_weights float32 (SymE3nn e) sample_heap).1 = Raise IndexError).
Proof.
  intros e.
  assert (Hval : ∀ c p, c ∈ contractions e → p ∈ contraction_parameters c →
                        is_Some (tensor_value sample_heap p)).
  { intros c p Hc Hp. apply list_elem_of_singleton in Hc as ->. simpl in Hp.
    repeat (apply elem_of_cons in Hp as [->|Hp]; [vm_compute; eauto|]).
    by apply elem_of_nil in Hp. }
  split; [exact Hval|].
  apply (extract_all_weights_needs_two_lower_orders float32 e sample_heap Hval).
Defined.

Lemma extract_all_weights_keys_witness :
  let e := {| sc_irreps_in := scalars 2; sc_irreps_out := scalars 2;
              contractions := [{| weights_max := 7; weights := [8; 9] |}] |} in
  let out := extract_all_weights float32 (SymE3nn e) sample_heap in
  let aw := match out.1 with Ok aw => aw | Raise _ => ∅ end in
  out = (Ok aw, out.2) ∧
  (∀ k, is_Some (aw !! k) ↔ ∃ j, j < length (contractions e) ∧ k = pretty j) ∧
  (∀ j j' : nat, pretty j = pretty j' → j = j') ∧
  (∀ k inner, aw !! k = Some inner →
     ∀ b, is_Some (inner !! b) ↔ b = 1 ∨ b = 2 ∨ b = 3).
Proof.
  intros e out aw. split; [vm_compute; reflexivity|].
  apply (extract_all_weights_keys float32 e sample_heap out.2 aw).
  vm_compute; reflexivity.
Defined.

Lemma optimize_without_parameters_raises_witness :
  let m : MACE (F := Z) :=
    {| num_interactions := 0;
       spherical_harmonics := spherical_harmonics sample_model;
       node_embedding_irreps_in := scalars 3;
       embedding_params := []; interactions := []; products := [];
       readout_params := [] |} in
  let h := set_models sample_heap [m] in
  models h !! 0 = Some m ∧ parameters m = [] ∧
  optimize_cuda_mace 0 h = (Raise StopIteration, h).
Proof.
  intros m h. split; [reflexivity|]. split; [reflexivity|].
  apply (optimize_without_parameters_raises 0 h m); reflexivity.
Defined.

Lemma optimize_with_no_layers_witness :
  let m : MACE (F := Z) :=
    {| num_interactions := 0;
       spherical_harmonics := spherical_harmonics sample_model;
       node_embedding_irreps_in := scalars 3;
       embedding_params := [0];
       interactions := interactions sample_model;
       products := products sample_model;
       readout_params := [15] |} in
  let h := set_models sample_heap [m] in
  models h !! 0 = Some m ∧
  (∀ q, q ∈ parameters m → is_Some (objs h !! q)) ∧
  parameters m ≠ [] ∧ (num_interactions m ≤ 0)%Z ∧
  ∃ hf m',
    se_for (parameters m) (set_requires_grad false) h = (Ok (), hf) ∧
    optimize_cuda_mace 0 h = (Ok 0, set_models hf (<[0 := m']> (models h))) ∧
    interactions m' = interactions m ∧ products m' = products m ∧
    spherical_harmonics m'
    = {| sh_irreps := spherical_harmonics_irreps 3; sh_normalize := true;
         sh_normalization := "component"; sh_backend := "opt" |}.
Proof.
  intros m h.
  assert (Hall : ∀ q, q ∈ parameters m → is_Some (objs h !! q))
    by (apply all_below_in_heap; reflexivity).
  split; [reflexivity|]. split; [exact Hall|]. split; [discriminate|].
  split; [simpl; lia|].
  apply (optimize_with_no_layers 0 h m);
    [reflexivity | exact Hall | discriminate | simpl; lia].
Defined.

Lemma optimize_cuda_mace_keeps_the_frame_witness :
  models sample_heap !! 0 = Some sample_model ∧
  let h' := (optimize_cuda_mace 0 sample_heap).2 in
  length (models h') = length (models sample_heap) ∧
  (∀ k, k ≠ 0 → models h' !! k = models sample_heap !! k) ∧
  ∃ m', models h' !! 0 = Some m' ∧
        num_interactions m' = num_interactions sample_model ∧
        node_embedding_irreps_in m' = node_embedding_irreps_in sample_model ∧
        embedding_params m' = embedding_params sample_model ∧
        readout_params m' = readout_params sample_model ∧
        length (interactions m') = length (interactions sample_model) ∧
        length (products m') = length (products sample_model).
Proof.
  split; [reflexivity|].
  apply (optimize_cuda_mace_keeps_the_frame 0 sample_heap sample_model).
  reflexivity.
Defined.

Lemma optimize_cuda_mace_succeeds_witness :
  models sample_heap !! 0 = Some sample_model ∧
  parameters sample_model ≠ [] ∧
  (∀ q, q ∈ parameters sample_model → is_Some (objs sample_heap !! q)) ∧
  (∀ j, j < Z.to_nat (num_interactions sample_model) →
     ∃ blk pb, interactions sample_model !! j = Some blk
               ∧ products sample_model !! j = Some pb
               ∧ layer_ok sample_heap blk pb) ∧
  ∃ h', optimize_cuda_mace 0 sample_heap = (Ok 0, h').
Proof.
  assert (Hall : ∀ q, q ∈ parameters sample_model →
                      is_Some (objs sample_heap !! q))
    by (apply all_below_in_heap; reflexivity).
  split; [reflexivity|]. split; [discriminate|]. split; [exact Hall|].
  split; [exact sample_layers_ok|].
  apply (optimize_cuda_mace_succeeds 0 sample_heap sample_model);
    [reflexivity | discriminate | exact Hall | exact sample_layers_ok].
Defined.

Lemma optimize_cuda_mace_twice_raises_witness :
  models sample_heap !! 0 = Some sample_model ∧
  (0 < num_interactions sample_model)%Z ∧
  optimize_cuda_mace 0 sample_heap = (Ok 0, sample_rewritten) ∧
  (optimize_cuda_mace 0 sample_rewritten).1 = Raise KeyError.
Proof.
  split; [reflexivity|]. split; [simpl; lia|]. split; [vm_compute; reflexivity|].
  apply (optimize_cuda_mace_twice_raises 0 sample_heap sample_rewritten 0
           sample_model); [reflexivity | simpl; lia | vm_compute; reflexivity].
Defined.

Lemma optimize_stops_at_a_bad_first_weight_witness :
  let blk := sample_block "RealAgnosticInteractionBlock" 2 in
  let l := {| irreps_in := scalars 4; irreps_out := scalars 2;
              instructions := [(0, 0)]; weight := 2 |} in
  let m : MACE (F := Z) :=
    {| num_interactions := 1;
       spherical_harmonics := spherical_harmonics sample_model;
       node_embedding_irreps_in := scalars 3;
       embedding_params := [0];
       interactions := [blk];
       products := [sample_product 7];
       readout_params := [15] |} in
  let h := set_models sample_heap [m] in
  let o := sample_param 2 [4] in
  models h !! 0 = Some m ∧
  (∀ q, q ∈ parameters m → is_Some (objs h !! q)) ∧
  (0 < num_interactions m)%Z ∧
  interactions m !! 0 = Some blk ∧ linear_up blk = LinE3nn l ∧
  objs h !! weight l = Some o ∧
  numel (o_shape o) ≠ num_irreps (irreps_in l) * num_irreps (irreps_out l) ∧
  ∃ h1 m1,
    optimize_cuda_mace 0 h = (Raise RuntimeError, h1) ∧
    stor h1 = stor h ∧
    models h1 !! 0 = Some m1 ∧
    spherical_harmonics m1
    = {| sh_irreps := spherical_harmonics_irreps 3; sh_normalize := true;
         sh_normalization := "component"; sh_backend := "opt" |} ∧
    interactions m1 = interactions m ∧ products m1 = products m.
Proof.
  intros blk l m h o.
  assert (Hall : ∀ q, q ∈ parameters m → is_Some (objs h !! q))
    by (apply all_below_in_heap; reflexivity).
  split; [reflexivity|]. split; [exact Hall|]. split; [simpl; lia|].
  split; [reflexivity|]. split; [reflexivity|]. split; [reflexivity|].
  split; [vm_compute; lia|].
  apply (optimize_stops_at_a_bad_first_weight 0 h m blk l o);
    [reflexivity | exact Hall | simpl; lia | reflexivity | reflexivity
    | reflexivity | vm_compute; lia].
Defined.

Lemma rewritten_layer_keeps_and_shares_witness :
  models sample_heap !! 0 = Some sample_model ∧
  optimize_cuda_mace 0 sample_heap = (Ok 0, sample_rewritten) ∧
  1 < Z.to_nat (num_interactions sample_model) ∧
  ∃ m' blk pb blk' l_lin e aw pl p ps o,
    models sample_rewritten !! 0 = Some m' ∧
    interactions sample_model !! 1 = Some blk ∧
    products sample_model !! 1 = Some pb ∧
    interactions m' !! 1 = Some blk' ∧
    linear blk = LinE3nn l_lin ∧ pb_symmetric_contractions pb = SymE3nn e ∧
    parameters sample_model = p :: ps ∧ objs sample_heap !! p = Some o ∧
    class_name blk' = class_name blk ∧
    conv_tp_weights blk' = conv_tp_weights blk ∧
    skip_tp blk' = skip_tp blk ∧
    avg_num_neighbors blk' = avg_num_neighbors blk ∧
    linear blk' = LinCuda {| cl_irreps_in := irreps_in l_lin;
                             cl_irreps_out := irreps_out l_lin;
                             cl_instructions := instructions l_lin;
                             cl_weight := weight l_lin |} ∧
    products m' !! 1
    = Some {| pb_symmetric_contractions :=
                SymWrapper {| symmetric_contractions :=
                  {| cc_coupling_irreps := coupling_of (sc_irreps_in e);
                     cc_irreps_out := sc_irreps_out e;
                     cc_all_weights := aw;
                     nthreadX := 32; nthreadY := 4; nthreadZ := 1;
                     cc_dtype := o_dtype o |} |};
              pb_linear := LinMatmul pl |}.
Proof.
  split; [reflexivity|]. split; [vm_compute; reflexivity|]. split; [simpl; lia|].
  apply (rewritten_layer_keeps_and_shares 0 sample_heap sample_rewritten 0
           sample_model 1); [reflexivity | vm_compute; reflexivity | simpl; lia].
Defined.

Lemma output_lands_next_to_the_model_witness :
  let args := {| args_model := "runs/model.pt";
                 args_output := "optimized_model.pt";
                 args_dtype := "float32"; args_benchmark := false;
                 args_benchmark_file := "" |} in
  args_model args = "runs" +:+ "/" +:+ "model.pt" ∧
  model_opt_path args = "runs" +:+ "/" +:+ args_output args ∧
  containing_directory "/home/user" (model_opt_path args)
  = containing_directory "/home/user" (args_model args).
Proof.
  intros args. split; [reflexivity|].
  apply (output_lands_next_to_the_model args "/home/user" "runs" "model.pt");
    [reflexivity | reflexivity | discriminate | discriminate
    | reflexivity | discriminate | discriminate].
Defined.

Lemma bare_model_name_saves_in_the_root_witness :
  let args := {| args_model := "model.pt";
                 args_output := "optimized_model.pt";
                 args_dtype := "float32"; args_benchmark := false;
                 args_benchmark_file := "" |} in
  str_contains "/" (args_model args) = false ∧
  str_contains "/" (args_output args) = false ∧
  model_opt_path args = "/" +:+ args_output args ∧
  containing_directory "/home/user" (model_opt_path args) = [] ∧
  containing_directory "/home/user" (args_model args)
  = path_components "/home/user".
Proof.
  intros args. split; [reflexivity|]. split; [reflexivity|].
  apply (bare_model_name_saves_in_the_root args "/home/user");
    [reflexivity | discriminate | discriminate | reflexivity].
Defined.

Lemma main_saves_once_or_not_at_all_witness :
  let args := {| args_model := "runs/model.pt";
                 args_output := "optimized_model.pt";
                 args_dtype := "float32"; args_benchmark := false;
                 args_benchmark_file := "" |} in
  let args' := {| args_model := "runs/model.pt";
                  args_output := "missing/optimized_model.pt";
                  args_dtype := "float32"; args_benchmark := false;
                  args_benchmark_file := "" |} in
  let w := {| w_heap := sample_heap; w_stdout := []; w_saved := [] |} in
  args_benchmark args = false ∧
  (main args w).1 = Ok () ∧
  w_saved (main args w).2 = [("runs/optimized_model.pt", 1)] ∧
  (main args' w).1 = Raise OSError ∧
  w_saved (main args' w).2 = [] ∧
  (let out := main args w in
   w_stdout out.2 = w_stdout w ∧
   (out.1 = Ok () →
      ∃ model h1 h2,
        set_default_dtype (args_dtype args) = Ok () ∧
        init_device "cuda" = Ok () ∧
        torch_load (args_model args) (w_heap w) = (Ok model, h1) ∧
        optimize_cuda_mace model h1 = (Ok model, h2) ∧
        write_file (model_opt_path args) = Ok () ∧
        out.2 = {| w_heap := h2; w_stdout := w_stdout w;
                   w_saved := w_saved w ++ [(model_opt_path args, model)] |}) ∧
   (out.1 ≠ Ok () → out.2.(w_saved) = w_saved w) ∧
   (∀ model h1 r h2 e,
      set_default_dtype (args_dtype args) = Ok () →
      init_device "cuda" = Ok () →
      torch_load (args_model args) (w_heap w) = (Ok model, h1) →
      optimize_cuda_mace model h1 = (Ok r, h2) →
      write_file (model_opt_path args) = Raise e →
      out = (Raise e, {| w_heap := h2; w_stdout := w_stdout w;
                         w_saved := w_saved w |}))) ∧
  (let out := main args' w in
   w_stdout out.2 = w_stdout w ∧
   (out.1 = Ok () →
      ∃ model h1 h2,
        set_default_dtype (args_dtype args') = Ok () ∧
        init_device "cuda" = Ok () ∧
        torch_load (args_model args') (w_heap w) = (Ok model, h1) ∧
        optimize_cuda_mace model h1 = (Ok model, h2) ∧
        write_file (model_opt_path args') = Ok () ∧
        out.2 = {| w_heap := h2; w_stdout := w_stdout w;
                   w_saved := w_saved w ++ [(model_opt_path args', model)] |}) ∧
   (out.1 ≠ Ok () → out.2.(w_saved) = w_saved w) ∧
   (∀ model h1 r h2 e,
      set_default_dtype (args_dtype args') = Ok () →
      init_device "cuda" = Ok () →
      torch_load (args_model args') (w_heap w) = (Ok model, h1) →
      optimize_cuda_mace model h1 = (Ok r, h2) →
      write_file (model_opt_path args') = Raise e →
      out = (Raise e, {| w_heap := h2; w_stdout := w_stdout w;
                         w_saved := w_saved w |}))).
Proof.
  intros args args' w. split; [reflexivity|]. split; [vm_compute; reflexivity|].
  split; [vm_compute; reflexivity|]. split; [vm_compute; reflexivity|].
  split; [vm_compute; reflexivity|]. split.
  - apply (main_saves_once_or_not_at_all args w). reflexivity.
  - apply (main_saves_once_or_not_at_all args' w). reflexivity.
Defined.

Lemma optimize_counts_layers_by_num_interactions_witness :
  let m : MACE (F := Z) :=
    {| num_interactions := 3;
       spherical_harmonics := spherical_harmonics sample_model;
       node_embedding_irreps_in := scalars 3;
       embedding_params := [0];
       interactions := interactions sample_model;
       products := products sample_model;
       readout_params := [15] |} in
  let h := set_models sample_heap [m] in
  models h !! 0 = Some m ∧ parameters m ≠ [] ∧
  (∀ q, q ∈ parameters m → is_Some (objs h !! q)) ∧
  length (interactions m) < Z.to_nat (num_interactions m) ∧
  ∃ h' m',
    optimize_cuda_mace 0 h = (Raise IndexError, h') ∧
    models h' !! 0 = Some m' ∧
    length (interactions m') = length (interactions m) ∧
    ∀ j, j < length (interactions m) →
      ∃ blk' pb' lu lc w pl,
        interactions m' !! j = Some blk' ∧ products m' !! j = Some pb' ∧
        linear_up blk' = LinMatmul lu ∧
        linear blk' = LinCuda lc ∧
        tp blk' = InvariantMessagePassingTP ∧
        forward blk' ≠ class_forward ∧
        pb_symmetric_contractions pb' = SymWrapper w ∧
        pb_linear pb' = LinMatmul pl.
Proof.
  intros m h.
  assert (Hall : ∀ q, q ∈ parameters m → is_Some (objs h !! q))
    by (apply all_below_in_heap; reflexivity).
  split; [reflexivity|]. split; [discriminate|]. split; [exact Hall|].
  split; [simpl; lia|].
  apply (optimize_counts_layers_by_num_interactions 0 h m);
    [reflexivity | discriminate | exact Hall | simpl; lia | exact sample_layers_ok].
Defined.
